(** * FreskoWinner: counters, sessions, rate limits and winner selection

    A shallow embedding of three pieces of the repository:
    - [CounterSystem] (counter-system.js): the page-visit counters kept in
      [localStorage] and in the remote table [page_counters];
    - [SecuritySystem] (security.js): rate limiting, the CSRF token and the
      session record;
    - [AdminFunctions.selectWinners] (admin-functions.js).

    Browser storage is a finite map from string keys to string values, as
    the Storage interface has it.  A string is the sequence of its code
    units; where the code looks at single characters ([parseInt], [trim],
    the patterns) they are read as code units below 256.  Numbers are
    integers ([Z]); the numbers of JavaScript are doubles, whose arithmetic
    and printing are those of [Z] on the safe integers (up to 2^53 - 1 in
    absolute value).  The millisecond clock is far below that; a theorem
    whose truth rests on the arithmetic of a stored count bounds the count
    by [JS.MAX_SAFE_INTEGER]. *)

From Stdlib Require Import ZArith String Ascii List Sorting.Permutation.
From stdpp Require Import base tactics option list gmap strings pretty.

Local Open Scope string_scope.
Local Open Scope Z_scope.

(** ** JavaScript primitives used by the code *)

Module JS.

(** [StrWhiteSpaceChar] among the code units below 256: TAB, LF, VT, FF,
    CR, SP and NBSP. *)
Definition is_space (a : ascii) : bool :=
  let n := N_of_ascii a in
  ((9 <=? n) && (n <=? 13) || (n =? 32) || (n =? 160))%N.

Fixpoint skip_space (s : string) : string :=
  match s with
  | String a t => if is_space a then skip_space t else s
  | EmptyString => s
  end.

(** The value of a character as a digit of the given radix (10 or 16). *)
Definition digit (radix : Z) (a : ascii) : option Z :=
  let n := Z.of_N (N_of_ascii a) in
  let v :=
    if (48 <=? n) && (n <=? 57) then Some (n - 48)
    else if (97 <=? n) && (n <=? 122) then Some (n - 87)
    else if (65 <=? n) && (n <=? 90) then Some (n - 55)
    else None in
  match v with
  | Some d => if d <? radix then Some d else None
  | None => None
  end.

(** The longest prefix of digits, read most significant digit first. *)
Fixpoint digits (radix : Z) (s : string) (acc : Z) : Z :=
  match s with
  | String a t =>
      match digit radix a with
      | Some d => digits radix t (acc * radix + d)
      | None => acc
      end
  | EmptyString => acc
  end.

Definition starts_with_digit (radix : Z) (s : string) : bool :=
  match s with
  | String a _ => bool_decide (is_Some (digit radix a))
  | EmptyString => false
  end.

Definition number (radix : Z) (s : string) : option Z :=
  if starts_with_digit radix s then Some (digits radix s 0) else None.

(** An optional sign in front of the number. *)
Definition strip_sign (s : string) : Z * string :=
  match s with
  | String "-" t => (-1, t)
  | String "+" t => (1, t)
  | _ => (1, s)
  end.

(** With no radix argument, a [0x] or [0X] prefix selects radix 16. *)
Definition strip_radix (s : string) : Z * string :=
  match s with
  | String "0" (String "x" t) | String "0" (String "X" t) => (16, t)
  | _ => (10, s)
  end.

(** [parseInt(string)] with no radix argument: leading white space, an
    optional sign, an optional [0x] prefix, then the longest prefix of
    digits.  [None] is [NaN].  The result is the number read, which is
    what [parseInt] returns when it is a safe integer. *)
Definition parseInt (s : string) : option Z :=
  let '(sign, s) := strip_sign (skip_space s) in
  let '(radix, s) := strip_radix s in
  (λ n, sign * n) <$> number radix s.

(** [parseInt(storage.getItem(key))]: a missing item is [null], which
    [parseInt] reads as the text "null", hence [NaN]. *)
Definition parseInt_item (v : option string) : option Z :=
  v ≫= parseInt.

(** [x || 0] on the result of [parseInt]: [NaN] and [0] both give [0]. *)
Definition or_zero (n : option Z) : Z := default 0 n.

(** [Number.MAX_SAFE_INTEGER] and [Number.isSafeInteger]: on these
    integers the sums, the comparisons, [toString] and [parseInt] of the
    code are those of [Z].  Beyond them a double rounds ([n + 1] may be
    [n]), from 10^21 on [toString] prints an exponent, and [parseInt]
    rounds what it reads. *)
Definition MAX_SAFE_INTEGER : Z := 2 ^ 53 - 1.

Definition isSafeInteger (n : Z) : Prop :=
  - MAX_SAFE_INTEGER ≤ n ≤ MAX_SAFE_INTEGER.

(** [Number.prototype.toString] on an integer below 10^21 in absolute
    value: its decimal digits. *)
Definition toString (n : Z) : string := pretty n.

(** Truthiness of [storage.getItem(key)]: [null] and the empty string are
    falsy. *)
Definition truthy (v : option string) : bool :=
  match v with
  | Some (String _ _) => true
  | _ => false
  end.

(** [Math.ceil(x / d)] for integers [x] and [d > 0]. *)
Definition ceil_div (x d : Z) : Z := - ((- x) / d).

End JS.

(** *** [parseInt] reads back what [toString] prints *)

Section Numerals.
Import JS.

Definition all_decimal (s : string) : Prop :=
  Forall (λ a, is_Some (digit 10 a)) (list_ascii_of_string s).

Lemma string_app_cons (a : ascii) (s t : string) :
  String a s +:+ t = String a (s +:+ t).
Proof. reflexivity. Qed.

Lemma string_app_nil_l (s : string) : "" +:+ s = s.
Proof. reflexivity. Qed.

Lemma string_app_assoc (s1 s2 s3 : string) :
  (s1 +:+ s2) +:+ s3 = s1 +:+ (s2 +:+ s3).
Proof.
  induction s1 as [| a s1 IH]; [done |].
  by rewrite !string_app_cons, IH.
Qed.

Lemma string_app_nil_r (s : string) : s +:+ "" = s.
Proof.
  induction s as [| a s IH]; [done |]. by rewrite string_app_cons, IH.
Qed.

Lemma all_decimal_app (s1 s2 : string) :
  all_decimal s1 → all_decimal s2 → all_decimal (s1 +:+ s2).
Proof.
  unfold all_decimal. induction s1 as [| a s1 IH]; [done |].
  rewrite string_app_cons. simpl.
  intros H1 H2. inversion H1; subst. constructor; auto.
Qed.

Lemma pretty_char_digit (x : N) :
  (x < 10)%N → digit 10 (pretty_N_char x) = Some (Z.of_N x).
Proof.
  intros Hx.
  assert (x = 0 ∨ x = 1 ∨ x = 2 ∨ x = 3 ∨ x = 4 ∨ x = 5 ∨ x = 6 ∨ x = 7
          ∨ x = 8 ∨ x = 9)%N as Hc by lia.
  repeat (destruct Hc as [-> | Hc]; [reflexivity |]).
  subst; reflexivity.
Qed.

(** Printing [x] in front of [s] puts decimal digits in front of [s],
    and reading them on top of [acc] gives [acc * 10^k + x]. *)
Lemma pretty_go_digits (x : N) :
  (0 < x)%N →
  ∃ (d : string) (k : Z),
    (∀ s, pretty_N_go x s = d +:+ s) ∧
    (∃ a t, d = String a t) ∧
    all_decimal d ∧ 0 ≤ k ∧
    (∀ s acc, digits 10 (d +:+ s) acc = digits 10 s (acc * 10 ^ k + Z.of_N x)).
Proof.
  induction (N.lt_wf_0 x) as [x _ IH]; intros Hx.
  set (c := pretty_N_char (x `mod` 10)%N).
  assert (Hc : digit 10 c = Some (Z.of_N (x `mod` 10)%N))
    by (apply pretty_char_digit, N.mod_lt; lia).
  assert (Hdm : Z.of_N x = 10 * Z.of_N (x `div` 10)%N + Z.of_N (x `mod` 10)%N).
  { pose proof (N.div_mod x 10). lia. }
  destruct (decide (x `div` 10 = 0)%N) as [Hq | Hq].
  - exists (String c ""), 1. split_and!.
    + intros s. rewrite pretty_N_go_step, Hq, pretty_N_go_0 by done. done.
    + eauto.
    + repeat constructor. rewrite Hc; eauto.
    + lia.
    + intros s acc. rewrite string_app_cons, string_app_nil_l.
      simpl. rewrite Hc. f_equal.
      rewrite Hq in Hdm. lia.
  - destruct (IH (x `div` 10)%N) as (d & k & Hd & (a & t & ->) & Hall & Hk & Hval).
    { apply N.div_lt; lia. } { by apply N.neq_0_lt_0. }
    exists (String a t +:+ String c ""), (k + 1). split_and!.
    + intros s. rewrite pretty_N_go_step, Hd by done.
      by rewrite string_app_assoc.
    + rewrite string_app_cons; eauto.
    + apply all_decimal_app; [done |].
      repeat constructor. rewrite Hc; eauto.
    + lia.
    + intros s acc. rewrite string_app_assoc, Hval.
      rewrite string_app_cons, string_app_nil_l.
      simpl. rewrite Hc. f_equal.
      rewrite Z.pow_add_r, Z.pow_1_r by lia. lia.
Qed.

Lemma decimal_char (b : ascii) :
  is_Some (digit 10 b) →
  is_space b = false ∧ b ≠ "-"%char ∧ b ≠ "+"%char ∧ b ≠ "x"%char ∧ b ≠ "X"%char.
Proof.
  intros [d Hb]. split_and!; [| intros ->; vm_compute in Hb; congruence ..].
  destruct b as [[] [] [] [] [] [] [] []]; vm_compute in Hb |- *; congruence.
Qed.

Lemma strip_sign_decimal (a : ascii) (t : string) :
  is_Some (digit 10 a) → strip_sign (String a t) = (1, String a t).
Proof.
  intros Ha. destruct (decimal_char a Ha) as (_ & Hm & Hp & _).
  unfold strip_sign.
  destruct a as [[] [] [] [] [] [] [] []]; try reflexivity; congruence.
Qed.

Lemma strip_radix_decimal (s : string) :
  all_decimal s → strip_radix s = (10, s).
Proof.
  intros Hs. destruct s as [| a [| b t]]; [done | |].
  - unfold strip_radix. by destruct a as [[] [] [] [] [] [] [] []].
  - inversion Hs as [| ? ? _ Hs']; subst. inversion Hs' as [| ? ? Hb _]; subst.
    destruct (decimal_char b Hb) as (_ & _ & _ & Hx & HX).
    unfold strip_radix.
    destruct a as [[] [] [] [] [] [] [] []]; try reflexivity;
      destruct b as [[] [] [] [] [] [] [] []]; try reflexivity; congruence.
Qed.

(** On a non-empty string of decimal digits [parseInt] skips nothing and
    reads every character; a minus sign in front negates the value. *)
Lemma parseInt_decimal (a : ascii) (t : string) :
  all_decimal (String a t) →
  parseInt (String a t) = Some (digits 10 (String a t) 0) ∧
  parseInt (String "-" (String a t)) = Some (- digits 10 (String a t) 0).
Proof.
  intros Hall. inversion Hall as [| ? ? Ha Ht]; subst.
  destruct (decimal_char a Ha) as (Hsp & _).
  split; unfold parseInt; simpl skip_space; rewrite ?Hsp.
  - rewrite strip_sign_decimal by done. cbv beta iota.
    rewrite strip_radix_decimal by done. cbv beta iota.
    unfold number, starts_with_digit.
    rewrite bool_decide_eq_true_2 by done.
    generalize (digits 10 (String a t) 0); intros v. simpl. f_equal; lia.
  - change (strip_sign (String "-" (String a t))) with (-1, String a t).
    cbv beta iota.
    rewrite strip_radix_decimal by done. cbv beta iota.
    unfold number, starts_with_digit.
    rewrite bool_decide_eq_true_2 by done.
    generalize (digits 10 (String a t) 0); intros v. simpl. f_equal; lia.
Qed.

Lemma pretty_pos_decimal (p : positive) :
  ∃ a t, pretty (N.pos p) = String a t ∧ all_decimal (String a t) ∧
         digits 10 (String a t) 0 = Z.pos p.
Proof.
  unfold pretty, pretty_N. rewrite decide_False by done.
  destruct (pretty_go_digits (N.pos p)) as (d & k & Hd & (a & t & ->) & Hall & Hk & Hval);
    [lia |].
  exists a, t. rewrite Hd, string_app_nil_r. split_and!; [done .. |].
  specialize (Hval "" 0). by rewrite string_app_nil_r in Hval.
Qed.

Theorem parseInt_toString (n : Z) : parseInt (toString n) = Some n.
Proof.
  destruct n as [| p | p]; [reflexivity | |];
    destruct (pretty_pos_decimal p) as (a & t & Hp & Hall & Hval);
    destruct (parseInt_decimal a t Hall) as [Hpos Hneg].
  - change (toString (Z.pos p)) with (pretty (N.pos p)).
    by rewrite Hp, Hpos, Hval.
  - change (toString (Z.neg p)) with ("-" +:+ pretty (N.pos p)).
    rewrite Hp, string_app_cons, string_app_nil_l, Hneg, Hval. done.
Qed.

End Numerals.

(** ** Strings as the code tests them *)

Module Str.

(** [s.startsWith(p)] *)
Fixpoint startsWith (p s : string) : bool :=
  match p, s with
  | EmptyString, _ => true
  | String a p', String b s' => bool_decide (a = b) && startsWith p' s'
  | String _ _, EmptyString => false
  end.

(** [s.includes(p)] *)
Fixpoint includes (p s : string) : bool :=
  startsWith p s ||
  match s with
  | String _ s' => includes p s'
  | EmptyString => false
  end.

Fixpoint drop (n : nat) (s : string) : string :=
  match n, s with
  | S n', String _ s' => drop n' s'
  | _, _ => s
  end.

(** [s.replace(p, '')] with a string pattern: the first occurrence of [p]
    is removed. *)
Fixpoint remove_first (p s : string) : string :=
  if startsWith p s then drop (String.length p) s
  else match s with
       | String a s' => String a (remove_first p s')
       | EmptyString => s
       end.

Lemma startsWith_app (p s : string) : startsWith p (p +:+ s) = true.
Proof.
  induction p as [| a p IH]; [done |].
  rewrite string_app_cons. simpl. by rewrite bool_decide_eq_true_2, IH.
Qed.

Lemma drop_app (p s : string) : drop (String.length p) (p +:+ s) = s.
Proof. induction p as [| a p IH]; [done |]. by rewrite string_app_cons. Qed.

Lemma remove_first_app (p s : string) : remove_first p (p +:+ s) = s.
Proof.
  destruct p as [| a p]; [by destruct s |].
  rewrite string_app_cons.
  unfold remove_first; fold remove_first.
  rewrite <- string_app_cons, startsWith_app. apply drop_app.
Qed.

Lemma app_length (s t : string) :
  String.length (s +:+ t) = (String.length s + String.length t)%nat.
Proof.
  induction s as [| a s IH]; [done |]. rewrite string_app_cons. simpl. lia.
Qed.

(** A string is never its own proper extension. *)
Lemma app_neq (s : string) (a : ascii) (t : string) : s +:+ String a t ≠ s.
Proof.
  intros H. apply (f_equal String.length) in H.
  rewrite app_length in H. simpl in H. lia.
Qed.

End Str.

(** ** JSON text

    [JSON.stringify] and [JSON.parse] are built-ins of the browser.  The
    embedding takes them as a codec on each type of object the code stores:
    parsing what was printed gives the object back, the printed text is
    never empty, and [None] stands for the [SyntaxError] thrown on other
    text, the empty text among it. *)

Class JSON (A : Type) := {
  JSON_stringify : A → string;
  JSON_parse : string → option A;
  JSON_parse_stringify : ∀ a, JSON_parse (JSON_stringify a) = Some a;
  JSON_stringify_nonempty : ∀ a, JSON_stringify a ≠ "";
  JSON_parse_empty : JSON_parse "" = None
}.

(** A codec that exists for every countable type: the object is numbered
    and the number is printed.  It is used to run the model on concrete
    stores. *)
Section NumeralCodec.
Context {A : Type} `{Countable A}.

Definition numeral_stringify (a : A) : string := JS.toString (Z.pos (encode a)).

Definition numeral_parse (s : string) : option A :=
  match JS.parseInt s with
  | Some (Z.pos p) => decode p
  | _ => None
  end.

Lemma numeral_parse_stringify (a : A) :
  numeral_parse (numeral_stringify a) = Some a.
Proof.
  unfold numeral_parse, numeral_stringify.
  rewrite parseInt_toString. apply decode_encode.
Qed.

Lemma numeral_stringify_nonempty (a : A) : numeral_stringify a ≠ "".
Proof.
  unfold numeral_stringify.
  destruct (pretty_pos_decimal (encode a)) as (c & t & E & _).
  change (JS.toString (Z.pos (encode a))) with (pretty (N.pos (encode a))).
  by rewrite E.
Qed.

Definition numeral_JSON : JSON A :=
  {| JSON_stringify := numeral_stringify;
     JSON_parse := numeral_parse;
     JSON_parse_stringify := numeral_parse_stringify;
     JSON_stringify_nonempty := numeral_stringify_nonempty;
     JSON_parse_empty := eq_refl |}.
End NumeralCodec.

(** ** Effects: a store, and calls that may throw

    A computation reads and updates a state [S] and either returns a value
    or throws.  The thrown value is not kept: every handler of the code
    only logs it. *)

Inductive result (A : Type) : Type :=
  | Returned (a : A)
  | Thrown.
Arguments Returned {A} a.
Arguments Thrown {A}.

Definition M (S A : Type) : Type := S → result A * S.

Definition ret {S A} (a : A) : M S A := λ s, (Returned a, s).

Definition bind {S A B} (m : M S A) (k : A → M S B) : M S B :=
  λ s, match m s with
       | (Returned a, s') => k a s'
       | (Thrown, s') => (Thrown, s')
       end.

Definition throw {S A} : M S A := λ s, (Thrown, s).

(** [try { m } catch (error) { h }] *)
Definition try_catch {S A} (m h : M S A) : M S A :=
  λ s, match m s with
       | (Returned a, s') => (Returned a, s')
       | (Thrown, s') => h s'
       end.

Definition get {S} : M S S := λ s, (Returned s, s).
Definition modify {S} (f : S → S) : M S unit := λ s, (Returned tt, f s).

Declare Scope js_scope.
Delimit Scope js_scope with js.
Notation "'do' x <- m ; k" := (bind m (λ x, k))
  (at level 10, x name, m at level 100, k at level 200) : js_scope.
Notation "m ;; k" := (bind m (λ _, k))
  (at level 100, k at level 200, right associativity) : js_scope.
Local Open Scope js_scope.

(** [for (const x of xs) { await body(x) }]: one element after the other;
    a throw leaves the loop. *)
Fixpoint for_of {S A} (xs : list A) (body : A → M S unit) : M S unit :=
  match xs with
  | [] => ret tt
  | x :: xs' => body x ;; for_of xs' body
  end.

(** How a call to the remote store ends: the promise resolves with data,
    resolves with [{ error }], or rejects. *)
Inductive outcome : Type := Ok | Err | Throw.

(** The k-th remote call of a run ends as the oracle says. *)
Definition Oracle : Type := nat → outcome.

(** ** counter-system.js: [class CounterSystem] *)

Module CounterSystem.

(** A flat JavaScript object whose fields hold strings: the [options] of an
    increment, and the entries written to the details and history keys. *)
Abbreviation Obj := (gmap string string).

(** A row of the remote table [page_counters]; [id] is its key. *)
Record PageCounter : Type := {
  page_name : string;
  count : Z;
  last_updated : option string
}.

(** A write sent to [page_counters]. *)
Inductive Request : Type :=
  | Insert (id : string) (row : PageCounter)
  | Update (id : string) (count : Z) (last_updated : option string).

Record World : Type := {
  (** the browser *)
  localStorage : gmap string string;
  sessionStorage : gmap string string;
  date : string;            (* [new Date().toISOString()] *)
  userAgent : string;       (* [navigator.userAgent] *)
  referrer : string;        (* [document.referrer] *)
  (** the remote store *)
  page_counters : gmap string PageCounter;
  requests : list Request;  (* the writes sent so far, oldest first *)
  calls : nat;              (* how many remote calls were made so far *)
  (** the fields of [this] *)
  fallbackEnabled : bool;
  initialized : bool;
  pendingIncrements : list (string * Obj)
}.

Definition set_localStorage (f : gmap string string → gmap string string)
    (w : World) : World :=
  {| localStorage := f (localStorage w); sessionStorage := sessionStorage w;
     date := date w; userAgent := userAgent w; referrer := referrer w;
     page_counters := page_counters w; requests := requests w;
     calls := calls w; fallbackEnabled := fallbackEnabled w;
     initialized := initialized w; pendingIncrements := pendingIncrements w |}.

Definition set_sessionStorage (f : gmap string string → gmap string string)
    (w : World) : World :=
  {| localStorage := localStorage w; sessionStorage := f (sessionStorage w);
     date := date w; userAgent := userAgent w; referrer := referrer w;
     page_counters := page_counters w; requests := requests w;
     calls := calls w; fallbackEnabled := fallbackEnabled w;
     initialized := initialized w; pendingIncrements := pendingIncrements w |}.

Definition set_page_counters
    (f : gmap string PageCounter → gmap string PageCounter) (w : World) : World :=
  {| localStorage := localStorage w; sessionStorage := sessionStorage w;
     date := date w; userAgent := userAgent w; referrer := referrer w;
     page_counters := f (page_counters w); requests := requests w;
     calls := calls w; fallbackEnabled := fallbackEnabled w;
     initialized := initialized w; pendingIncrements := pendingIncrements w |}.

Definition set_requests (f : list Request → list Request) (w : World) : World :=
  {| localStorage := localStorage w; sessionStorage := sessionStorage w;
     date := date w; userAgent := userAgent w; referrer := referrer w;
     page_counters := page_counters w; requests := f (requests w);
     calls := calls w; fallbackEnabled := fallbackEnabled w;
     initialized := initialized w; pendingIncrements := pendingIncrements w |}.

Definition set_calls (n : nat) (w : World) : World :=
  {| localStorage := localStorage w; sessionStorage := sessionStorage w;
     date := date w; userAgent := userAgent w; referrer := referrer w;
     page_counters := page_counters w; requests := requests w;
     calls := n; fallbackEnabled := fallbackEnabled w;
     initialized := initialized w; pendingIncrements := pendingIncrements w |}.

Definition set_fallbackEnabled (b : bool) (w : World) : World :=
  {| localStorage := localStorage w; sessionStorage := sessionStorage w;
     date := date w; userAgent := userAgent w; referrer := referrer w;
     page_counters := page_counters w; requests := requests w;
     calls := calls w; fallbackEnabled := b;
     initialized := initialized w; pendingIncrements := pendingIncrements w |}.

Definition set_initialized (b : bool) (w : World) : World :=
  {| localStorage := localStorage w; sessionStorage := sessionStorage w;
     date := date w; userAgent := userAgent w; referrer := referrer w;
     page_counters := page_counters w; requests := requests w;
     calls := calls w; fallbackEnabled := fallbackEnabled w;
     initialized := b; pendingIncrements := pendingIncrements w |}.

Definition set_pendingIncrements
    (f : list (string * Obj) → list (string * Obj)) (w : World) : World :=
  {| localStorage := localStorage w; sessionStorage := sessionStorage w;
     date := date w; userAgent := userAgent w; referrer := referrer w;
     page_counters := page_counters w; requests := requests w;
     calls := calls w; fallbackEnabled := fallbackEnabled w;
     initialized := initialized w; pendingIncrements := f (pendingIncrements w) |}.

(** The constructor: [new CounterSystem(supabaseClient)] in a browser with
    the given stores. *)
Definition localStoragePrefix : string := "fresko_counter_".
Definition sessionPrefix : string := "counter_visited_".

Definition constructor (w : World) : World :=
  set_pendingIncrements (λ _, [])
    (set_initialized false (set_fallbackEnabled true w)).

(** [parseInt(localStorage.getItem(`${this.localStoragePrefix}${counterId}`)) || 0] *)
Definition localCount (w : World) (counterId : string) : Z :=
  JS.or_zero (JS.parseInt_item (localStorage w !! (localStoragePrefix +:+ counterId))).

(** [x || fallback] on a string that may be missing. *)
Definition or_string (x : option string) (fallback : string) : string :=
  match x with
  | Some (String a t) => String a t
  | _ => fallback
  end.

(** [history.slice(-n)]: the last [n] entries. *)
Definition slice_last {A} (n : nat) (l : list A) : list A :=
  drop (length l - n) l.

Section Methods.
Context `{!JSON Obj, !JSON (list Obj)}.
Variable net : Oracle.

(** *** The remote table, as the supabase client reaches it *)

Definition call : M World outcome :=
  λ w, (Returned (net (calls w)), set_calls (S (calls w)) w).

(** [.from('page_counters').select('count').limit(1)]: the code looks at
    [error] only. *)
Definition probe : M World bool :=
  do o <- call;
  match o with
  | Ok => ret false
  | Err => ret true
  | Throw => throw
  end.

(** [.select('count').eq('id', id).single()]: [Some c] when the call
    resolves with a row whose count is [c]; [None] when it resolves with
    an error or without a row, the case the code tests as
    [error || !data]. *)
Definition select_count (id : string) : M World (option Z) :=
  do o <- call;
  match o with
  | Ok => do w <- get; ret (count <$> page_counters w !! id)
  | Err => ret None
  | Throw => throw
  end.

(** [.insert(row)]: [id] is the key of the table, so the store rejects a
    row whose id it already holds.  The code never looks at the answer. *)
Definition insert (id : string) (row : PageCounter) : M World unit :=
  modify (set_requests (λ l, (l ++ [Insert id row])%list));;
  do o <- call;
  match o with
  | Ok => modify (set_page_counters (λ t,
            match t !! id with
            | None => <[id := row]> t
            | Some _ => t
            end))
  | Err => ret tt
  | Throw => throw
  end.

(** [.update({ count, last_updated }).eq('id', id)]; a [last_updated] of
    [None] is the call that passes [{ count }] alone. *)
Definition update (id : string) (c : Z) (lu : option string) : M World unit :=
  modify (set_requests (λ l, (l ++ [Update id c lu])%list));;
  do o <- call;
  match o with
  | Ok => modify (set_page_counters (alter (λ row,
            {| page_name := page_name row; count := c;
               last_updated := match lu with
                               | Some d => Some d
                               | None => last_updated row
                               end |}) id))
  | Err => ret tt
  | Throw => throw
  end.

(** *** The methods *)

(** [count++] is [count + 1] on a safe integer. *)
Definition incrementLocal (counterId : string) (options : Obj) : M World Z :=
  let key := localStoragePrefix +:+ counterId in
  do w <- get;
  let count := JS.or_zero (JS.parseInt_item (localStorage w !! key)) + 1 in
  modify (set_localStorage <[key := JS.toString count]>);;
  let details : Obj :=
    options ∪ {[ "lastIncrement" := date w; "userAgent" := userAgent w;
                 "referrer" := referrer w ]} in
  modify (set_localStorage <[key +:+ "_details" := JSON_stringify details]>);;
  ret count.

(** The [return] inside the [try] block is the [Some] case of the first
    step. *)
Definition getCounterValue (counterId : string) : M World Z :=
  do fromRemote <-
    try_catch
      (do w <- get;
       if negb (fallbackEnabled w) && initialized w then
         do data <- select_count counterId;
         match data with
         | Some c => do w <- get; ret (Some (Z.max c (localCount w counterId)))
         | None => ret None
         end
       else ret None)
      (ret None);
  match fromRemote with
  | Some v => ret v
  | None => do w <- get; ret (localCount w counterId)
  end.

Definition saveToHistory (counterId : string) (options : Obj) : M World unit :=
  try_catch
    (let historyKey := localStoragePrefix +:+ counterId +:+ "_history" in
     do w <- get;
     do history <-
       match localStorage w !! historyKey with
       | None => ret []
       | Some text =>
           match JSON_parse text with
           | Some h => ret h
           | None => throw
           end
       end;
     let entry : Obj :=
       options ∪ {[ "timestamp" := date w; "counterId" := counterId;
                    "userAgent" := userAgent w; "referrer" := referrer w ]} in
     let history := (history ++ [entry])%list in
     let history :=
       if decide (100 < length history)%nat then slice_last 100 history
       else history in
     modify (set_localStorage <[historyKey := JSON_stringify history]>))
    (ret tt).

Definition incrementCounter (counterId : string) (options : Obj) : M World Z :=
  do w <- get;
  if negb (initialized w) then
    modify (set_pendingIncrements (λ q, (q ++ [(counterId, options)])%list));;
    incrementLocal counterId options
  else
    try_catch
      (let sessionKey := sessionPrefix +:+ counterId in
       do w <- get;
       if JS.truthy (sessionStorage w !! sessionKey) then
         getCounterValue counterId
       else
         do newCount <-
           (if negb (fallbackEnabled w) then
              do data <- select_count counterId;
              match data with
              | None =>
                  insert counterId
                    {| page_name := or_string (options !! "pageName") counterId;
                       count := 1;
                       last_updated := Some (date w) |};;
                  ret 1
              | Some c =>
                  update counterId (c + 1) (Some (date w));;
                  ret (c + 1)
              end
            else ret 1);
         do localCount <- incrementLocal counterId options;
         let newCount := Z.max newCount localCount in
         modify (set_sessionStorage <[sessionKey := "true"]>);;
         saveToHistory counterId options;;
         ret newCount)
      (incrementLocal counterId options).

Definition initialize : M World unit :=
  try_catch
    (do error <- probe;
     modify (set_fallbackEnabled error);;
     modify (set_initialized true);;
     do w <- get;
     if decide (0 < length (pendingIncrements w))%nat then
       for_of (pendingIncrements w)
         (λ increment, incrementCounter increment.1 increment.2;; ret tt);;
       modify (set_pendingIncrements (λ _, []))
     else ret tt)
    (modify (set_fallbackEnabled true);;
     modify (set_initialized true)).

(** The body of the loop of [syncWithDatabase]; [continue] is the early
    [ret tt]. *)
Definition syncKey (key : string) : M World unit :=
  if Str.includes "_history" key || Str.includes "_details" key
     || Str.includes "click_" key then ret tt
  else
    let counterId := Str.remove_first localStoragePrefix key in
    do w <- get;
    match JS.parseInt_item (localStorage w !! key) with
    | None => ret tt
    | Some localCount =>
        do data <- select_count counterId;
        match data with
        | None =>
            insert counterId
              {| page_name := counterId; count := localCount;
                 last_updated := None |}
        | Some c =>
            if localCount >? c then update counterId localCount None
            else ret tt
        end
    end.

(** [Object.keys(localStorage)] is taken in the order of the map. *)
Definition syncWithDatabase : M World bool :=
  do w <- get;
  if fallbackEnabled w then ret false
  else
    try_catch
      (do w <- get;
       let allKeys := (map_to_list (localStorage w)).*1 in
       let counterKeys := filter (λ key, Str.startsWith localStoragePrefix key = true) allKeys in
       for_of counterKeys syncKey;;
       ret true)
      (ret false).

End Methods.

(** *** Runs of the three public operations *)

Inductive Op : Type :=
  | Increment (counterId : string) (options : Obj)
  | Sync
  | GetValue (counterId : string).

(** An observation: what [getCounterValue(counterId)] returned. *)
Definition Obs : Type := string * Z.

Section Runs.
Context `{!JSON Obj, !JSON (list Obj)}.

(** One operation, awaited to its end; its k-th remote call ends as
    [net k] says. *)
Definition perform (net : Oracle) (op : Op) (w : World) : list Obs * World :=
  let w := set_calls 0 w in
  match op with
  | Increment counterId options =>
      ([], (incrementCounter net counterId options w).2)
  | Sync => ([], (syncWithDatabase net w).2)
  | GetValue counterId =>
      match getCounterValue net counterId w with
      | (Returned v, w') => ([(counterId, v)], w')
      | (Thrown, w') => ([], w')
      end
  end.

Fixpoint run (tr : list (Oracle * Op)) (w : World) : list Obs * World :=
  match tr with
  | [] => ([], w)
  | (net, op) :: tr' =>
      let '(o1, w1) := perform net op w in
      let '(o2, w2) := run tr' w1 in
      ((o1 ++ o2)%list, w2)
  end.

(** The values returned for one counter, in the order of the calls. *)
Definition returned (c : string) (obs : list Obs) : list Z :=
  (filter (λ o : Obs, o.1 = c) obs).*2.
End Runs.

(** What the two stores say together about a counter: the count merged by
    maximum, as [getCounterValue] computes it from a remote read that
    succeeds. *)
Definition reconciled (w : World) (c : string) : Z :=
  match page_counters w !! c with
  | Some row => Z.max (count row) (localCount w c)
  | None => localCount w c
  end.

(** *** Concrete stores *)

Definition browser (ls ss : gmap string string)
    (t : gmap string PageCounter) : World :=
  constructor
    {| localStorage := ls; sessionStorage := ss;
       date := "2024-05-01T10:00:00.000Z"; userAgent := "Mozilla/5.0";
       referrer := "";
       page_counters := t; requests := []; calls := 0;
       fallbackEnabled := false; initialized := false;
       pendingIncrements := [] |}.

#[local] Instance Obj_JSON : JSON Obj := numeral_JSON.
#[local] Instance history_JSON : JSON (list Obj) := numeral_JSON.

Definition always (o : outcome) : Oracle := λ _, o.
Definition row (c : Z) : PageCounter :=
  {| page_name := "home"; count := c; last_updated := None |}.

(** *** What each remote call and each method does to the world *)

Section Equations.
Context `{!JSON Obj, !JSON (list Obj)}.
Variable net : Oracle.

Definition tick (w : World) : World := set_calls (S (calls w)) w.

Lemma select_count_eq (id : string) (w : World) :
  select_count net id w =
  match net (calls w) with
  | Ok => (Returned (count <$> page_counters w !! id), tick w)
  | Err => (Returned None, tick w)
  | Throw => (Thrown, tick w)
  end.
Proof. unfold select_count, bind, call. by destruct (net (calls w)). Qed.

Definition sent (r : Request) (w : World) : World :=
  tick (set_requests (λ l, (l ++ [r])%list) w).

Lemma insert_eq (id : string) (row : PageCounter) (w : World) :
  insert net id row w =
  match net (calls w) with
  | Ok => (Returned tt,
           set_page_counters (λ t, match t !! id with
                                   | None => <[id := row]> t
                                   | Some _ => t
                                   end) (sent (Insert id row) w))
  | Err => (Returned tt, sent (Insert id row) w)
  | Throw => (Thrown, sent (Insert id row) w)
  end.
Proof. unfold insert, bind, call, modify. simpl. by destruct (net (calls w)). Qed.

Lemma update_eq (id : string) (c : Z) (lu : option string) (w : World) :
  update net id c lu w =
  match net (calls w) with
  | Ok => (Returned tt,
           set_page_counters (alter (λ row,
             {| page_name := page_name row; count := c;
                last_updated := match lu with
                                | Some d => Some d
                                | None => last_updated row
                                end |}) id) (sent (Update id c lu) w))
  | Err => (Returned tt, sent (Update id c lu) w)
  | Throw => (Thrown, sent (Update id c lu) w)
  end.
Proof. unfold update, bind, call, modify. simpl. by destruct (net (calls w)). Qed.

Definition details (options : Obj) (w : World) : Obj :=
  options ∪ {[ "lastIncrement" := date w; "userAgent" := userAgent w;
               "referrer" := referrer w ]}.

Lemma incrementLocal_eq (counterId : string) (options : Obj) (w : World) :
  incrementLocal counterId options w =
  (Returned (localCount w counterId + 1),
   set_localStorage
     (λ m, <[localStoragePrefix +:+ counterId +:+ "_details"
               := JSON_stringify (details options w)]>
             (<[localStoragePrefix +:+ counterId
                  := JS.toString (localCount w counterId + 1)]> m)) w).
Proof. by rewrite <- string_app_assoc. Qed.

(** [saveToHistory] never throws, and touches the history key at most. *)
Lemma saveToHistory_eq (counterId : string) (options : Obj) (w : World) :
  saveToHistory counterId options w = (Returned tt, w) ∨
  ∃ text, saveToHistory counterId options w =
    (Returned tt,
     set_localStorage
       <[localStoragePrefix +:+ counterId +:+ "_history" := text]> w).
Proof.
  unfold saveToHistory, try_catch, bind, get. simpl.
  destruct (localStorage w !! _) as [text |]; simpl.
  - destruct (JSON_parse text) as [h |]; simpl; [right | left].
    + eexists. unfold modify. reflexivity.
    + unfold ret. by destruct w.
  - right. eexists. unfold modify. reflexivity.
Qed.

Definition remoteBacked (w : World) : bool :=
  negb (fallbackEnabled w) && initialized w.

Lemma getCounterValue_eq (counterId : string) (w : World) :
  getCounterValue net counterId w =
  if remoteBacked w then
    match net (calls w) with
    | Ok => (Returned (reconciled w counterId), tick w)
    | _ => (Returned (localCount w counterId), tick w)
    end
  else (Returned (localCount w counterId), w).
Proof.
  unfold getCounterValue, bind at 1, try_catch, bind at 1, get at 1.
  unfold remoteBacked. simpl.
  destruct (negb (fallbackEnabled w) && initialized w); [| done].
  unfold bind at 1. rewrite select_count_eq. unfold reconciled.
  destruct (net (calls w)); [| done ..].
  destruct (page_counters w !! counterId) as [r |]; done.
Qed.
End Equations.
(** *** Neither store ever loses count of a counter *)

Section Growth.
Context `{!JSON Obj, !JSON (list Obj)}.
Variable c : string.

(** A row that is present stays present, with a count at least as large. *)
Definition remote_le (o o' : option PageCounter) : Prop :=
  match o with
  | None => True
  | Some r => ∃ r', o' = Some r' ∧ count r ≤ count r'
  end.

Record grows (w w' : World) : Prop := {
  grows_fallbackEnabled : fallbackEnabled w' = fallbackEnabled w;
  grows_initialized : initialized w' = initialized w;
  grows_local : localCount w c ≤ localCount w' c;
  grows_remote : remote_le (page_counters w !! c) (page_counters w' !! c)
}.

Lemma remote_le_refl (o : option PageCounter) : remote_le o o.
Proof. destruct o as [r |]; simpl; [| done]. exists r. split; [done | lia]. Qed.

Lemma remote_le_trans (o1 o2 o3 : option PageCounter) :
  remote_le o1 o2 → remote_le o2 o3 → remote_le o1 o3.
Proof.
  destruct o1 as [r1 |]; simpl; [| done].
  intros (r2 & -> & H12). simpl. intros (r3 & -> & H23).
  exists r3. split; [done | lia].
Qed.

#[global] Instance grows_preorder : PreOrder grows.
Proof.
  split.
  - intros w. split; [done | done | lia | apply remote_le_refl].
  - intros w1 w2 w3 [] []. split; [congruence | congruence | lia |].
    eapply remote_le_trans; eassumption.
Qed.

(** Writes that leave the counter's own key and row alone. *)
Lemma grows_frame (w w' : World) :
  fallbackEnabled w' = fallbackEnabled w →
  initialized w' = initialized w →
  localStorage w' !! (localStoragePrefix +:+ c)
    = localStorage w !! (localStoragePrefix +:+ c) →
  page_counters w' !! c = page_counters w !! c →
  grows w w'.
Proof.
  intros Hf Hi Hl Hr. split; [done | done | |].
  - unfold localCount. rewrite Hl. lia.
  - rewrite Hr. apply remote_le_refl.
Qed.

Lemma key_neq (d : string) : d ≠ c → localStoragePrefix +:+ d ≠ localStoragePrefix +:+ c.
Proof. intros Hd Heq. by apply (inj (String.app _)) in Heq. Qed.

Lemma key_suffix_neq (d sfx : string) :
  d +:+ sfx ≠ c →
  localStoragePrefix +:+ d +:+ sfx ≠ localStoragePrefix +:+ c.
Proof. intros Hd Heq. by apply (inj (String.app _)) in Heq. Qed.

Lemma grows_incrementLocal (d : string) (o : Obj) (w : World) :
  d +:+ "_details" ≠ c →
  grows w (incrementLocal d o w).2.
Proof.
  intros Hd. rewrite incrementLocal_eq. simpl.
  split; simpl; [done | done | | apply remote_le_refl].
  unfold localCount at 2. simpl.
  rewrite lookup_insert_ne by by apply key_suffix_neq.
  destruct (decide (d = c)) as [-> | Hne].
  - rewrite lookup_insert_eq. simpl.
    rewrite parseInt_toString. simpl. lia.
  - rewrite lookup_insert_ne by by apply key_neq.
    unfold localCount. lia.
Qed.

Lemma grows_saveToHistory (d : string) (o : Obj) (w : World) :
  d +:+ "_history" ≠ c →
  grows w (saveToHistory d o w).2.
Proof.
  intros Hd. destruct (saveToHistory_eq d o w) as [-> | [text ->]]; [done |].
  apply grows_frame; simpl; try done.
  rewrite lookup_insert_ne; [done | by apply key_suffix_neq].
Qed.

Lemma grows_getCounterValue (net : Oracle) (d : string) (w : World) :
  grows w (getCounterValue net d w).2.
Proof.
  rewrite getCounterValue_eq.
  destruct (remoteBacked w); [destruct (net (calls w)) |]; by apply grows_frame.
Qed.

Lemma grows_insert (net : Oracle) (id : string) (r : PageCounter) (w : World) :
  grows w (insert net id r w).2.
Proof.
  rewrite insert_eq.
  destruct (net (calls w)); simpl; [| by apply grows_frame ..].
  split; simpl; [done | done | unfold localCount; simpl; lia |].
  destruct (page_counters w !! id) as [r0 |] eqn:Hid; [apply remote_le_refl |].
  destruct (decide (id = c)) as [-> | Hne].
  - by rewrite Hid.
  - rewrite lookup_insert_ne by done. apply remote_le_refl.
Qed.

Lemma grows_update (net : Oracle) (id : string) (n : Z) (lu : option string)
    (w : World) :
  (∀ r, page_counters w !! id = Some r → count r ≤ n) →
  grows w (update net id n lu w).2.
Proof.
  intros Hn. rewrite update_eq.
  destruct (net (calls w)); simpl; [| by apply grows_frame ..].
  split; simpl; [done | done | unfold localCount; simpl; lia |].
  destruct (decide (id = c)) as [-> | Hne].
  - rewrite lookup_alter_eq.
    destruct (page_counters w !! c) as [r0 |] eqn:Hc; simpl; [| done].
    eexists. split; [done |]. simpl. by apply Hn.
  - rewrite lookup_alter_ne by done. apply remote_le_refl.
Qed.

(** Sequencing: the second step starts where the first one ended, and
    knows what it returned. *)
Lemma grows_bind {A B} (m : M World A) (k : A → M World B) (w : World) :
  grows w (m w).2 →
  (∀ a, (m w).1 = Returned a → grows (m w).2 (k a (m w).2).2) →
  grows w (bind m k w).2.
Proof.
  intros Hm Hk. unfold bind. destruct (m w) as [[a |] w']; simpl in *; [| done].
  etrans; [exact Hm | by apply Hk].
Qed.

Lemma grows_try_catch {A} (m h : M World A) (w : World) :
  grows w (m w).2 →
  ((m w).1 = Thrown → grows (m w).2 (h (m w).2).2) →
  grows w (try_catch m h w).2.
Proof.
  intros Hm Hh. unfold try_catch. destruct (m w) as [[a |] w']; simpl in *; [done |].
  etrans; [exact Hm | by apply Hh].
Qed.

Lemma grows_for_of {A} (xs : list A) (body : A → M World unit) (w : World) :
  (∀ x w', x ∈ xs → grows w' (body x w').2) →
  grows w (for_of xs body w).2.
Proof.
  revert w. induction xs as [| x xs IH]; intros w Hbody; simpl; [done |].
  apply grows_bind; [apply Hbody; left |].
  intros ? _. apply IH. intros y w' Hy. apply Hbody. by right.
Qed.

(** What [select_count] returned was the count of the row at that time. *)
Lemma select_count_returned (net : Oracle) (id : string) (w : World) (n : Z) :
  (select_count net id w).1 = Returned (Some n) →
  ∃ r, page_counters (select_count net id w).2 !! id = Some r ∧ count r = n.
Proof.
  rewrite select_count_eq. destruct (net (calls w)); simpl; [| done ..].
  destruct (page_counters w !! id) as [r |]; simpl; [| done].
  intros [= <-]. by exists r.
Qed.

Lemma grows_select_count (net : Oracle) (id : string) (w : World) :
  grows w (select_count net id w).2.
Proof.
  rewrite select_count_eq. destruct (net (calls w)); by apply grows_frame.
Qed.

Lemma grows_incrementCounter (net : Oracle) (d : string) (o : Obj) (w : World) :
  d +:+ "_details" ≠ c → d +:+ "_history" ≠ c →
  grows w (incrementCounter net d o w).2.
Proof.
  intros Hd Hh. unfold incrementCounter.
  apply grows_bind; [done |]. simpl. intros ? [= <-].
  destruct (initialized w); cbn [negb].
  - apply grows_try_catch; [| intros _; by apply grows_incrementLocal].
    apply grows_bind; [done |]. simpl. intros ? [= <-].
    destruct (JS.truthy _); [apply grows_getCounterValue |].
    apply grows_bind.
    + destruct (fallbackEnabled w); cbn [negb]; [done |].
      apply grows_bind; [apply grows_select_count |].
      intros [n |] Hsel.
      * apply select_count_returned in Hsel as (r & Hr & Hn).
        apply grows_bind; [| done].
        apply grows_update. intros r' Hr'. rewrite Hr in Hr'.
        simplify_eq. lia.
      * apply grows_bind; [apply grows_insert | done].
    + intros n _. apply grows_bind; [by apply grows_incrementLocal |].
      intros l _. apply grows_bind; [by apply grows_frame |].
      intros ? _. apply grows_bind; [by apply grows_saveToHistory | done].
  - apply grows_bind; [by apply grows_frame |].
    intros ? _. by apply grows_incrementLocal.
Qed.

Lemma grows_syncKey (net : Oracle) (key : string) (w : World) :
  grows w (syncKey net key w).2.
Proof.
  unfold syncKey. destruct (_ || _); [done |].
  apply grows_bind; [done |]. simpl. intros ? [= <-].
  destruct (JS.parseInt_item _) as [n |]; [| done].
  apply grows_bind; [apply grows_select_count |].
  intros [m |] Hsel.
  - apply select_count_returned in Hsel as (r & Hr & Hn).
    destruct (n >? m) eqn:Hgt; [| done].
    apply grows_update. intros r' Hr'. rewrite Hr in Hr'.
    simplify_eq. lia.
  - apply grows_insert.
Qed.

Lemma grows_syncWithDatabase (net : Oracle) (w : World) :
  grows w (syncWithDatabase net w).2.
Proof.
  unfold syncWithDatabase.
  apply grows_bind; [done |]. simpl. intros ? [= <-].
  destruct (fallbackEnabled w); [done |].
  apply grows_try_catch; [| done].
  apply grows_bind; [done |]. simpl. intros ? [= <-].
  apply grows_bind; [| done].
  apply grows_for_of. intros key w' _. apply grows_syncKey.
Qed.
End Growth.
(** *** Successive readings of one counter *)

Definition never_decreases (l : list Z) : Prop :=
  ∀ (i j : nat) (x y : Z),
    (i ≤ j)%nat → l !! i = Some x → l !! j = Some y → x ≤ y.

Lemma never_decreases_nil : never_decreases [].
Proof. intros i j x y _ Hi. by rewrite lookup_nil in Hi. Qed.

Lemma never_decreases_cons (x : Z) (l : list Z) :
  Forall (λ y, x ≤ y) l → never_decreases l → never_decreases (x :: l).
Proof.
  intros Hall Hl [| i] [| j] a b Hij Ha Hb; simpl in *; simplify_eq.
  - lia.
  - rewrite Forall_lookup in Hall. by eapply Hall.
  - lia.
  - eapply (Hl i j); [lia | done ..].
Qed.

(** What [getCounterValue] answers when its remote read succeeds, or when
    it makes none. *)
Definition view (w : World) (c : string) : Z :=
  if remoteBacked w then reconciled w c else localCount w c.

Section Monotone.
Context `{!JSON Obj, !JSON (list Obj)}.
Variable c : string.

Lemma view_grows (w w' : World) : grows c w w' → view w c ≤ view w' c.
Proof.
  intros [Hf Hi Hl Hr]. unfold view, remoteBacked, reconciled.
  rewrite Hf, Hi. destruct (negb (fallbackEnabled w) && initialized w); [| done].
  destruct (page_counters w !! c) as [r |]; simpl in Hr.
  - destruct Hr as (r' & -> & Hle). lia.
  - destruct (page_counters w' !! c); lia.
Qed.

Lemma perform_grows (net : Oracle) (op : Op) (w : World) :
  (∀ d o, op = Increment d o → d +:+ "_details" ≠ c ∧ d +:+ "_history" ≠ c) →
  grows c w (perform net op w).2.
Proof.
  intros Hop. unfold perform.
  trans (set_calls 0 w); [by apply grows_frame |].
  destruct op as [d o | | d]; simpl.
  - destruct (Hop d o eq_refl). by apply grows_incrementCounter.
  - apply grows_syncWithDatabase.
  - pose proof (grows_getCounterValue c net d (set_calls 0 w)) as Hg.
    by destruct (getCounterValue net d (set_calls 0 w)) as [[v |] w'].
Qed.

Lemma perform_returned (net : Oracle) (op : Op) (w : World) :
  remoteBacked w = false ∨ (op = GetValue c → net 0%nat = Ok) →
  returned c (perform net op w).1 = [] ∨
  returned c (perform net op w).1 = [view w c].
Proof.
  intros Hnet. unfold perform. destruct op as [d o | | d]; [by left ..|].
  rewrite getCounterValue_eq.
  change (remoteBacked (set_calls 0 w)) with (remoteBacked w).
  change (calls (set_calls 0 w)) with 0%nat.
  unfold returned, view.
  destruct (decide (d = c)) as [-> | Hne].
  - right. destruct (remoteBacked w) eqn:Hrb.
    + destruct Hnet as [? | Hnet]; [done |]. rewrite Hnet by done. simpl.
      by rewrite filter_cons_True, filter_nil by done.
    + simpl. by rewrite filter_cons_True, filter_nil by done.
  - left. destruct (remoteBacked w); [destruct (net 0%nat) |]; simpl;
      by rewrite filter_cons_False, filter_nil by done.
Qed.

Lemma returned_app (o1 o2 : list Obs) :
  returned c (o1 ++ o2) = (returned c o1 ++ returned c o2)%list.
Proof. unfold returned. by rewrite filter_app, fmap_app. Qed.

Lemma run_never_decreases (tr : list (Oracle * Op)) (w : World) :
  (∀ net d o, (net, Increment d o) ∈ tr →
     d +:+ "_details" ≠ c ∧ d +:+ "_history" ≠ c) →
  (remoteBacked w = false ∨ ∀ net, (net, GetValue c) ∈ tr → net 0%nat = Ok) →
  Forall (λ v, view w c ≤ v) (returned c (run tr w).1) ∧
  never_decreases (returned c (run tr w).1).
Proof.
  revert w. induction tr as [| [net op] tr IH]; intros w Halias Hreads.
  { split; [constructor | apply never_decreases_nil]. }
  simpl.
  assert (Hg : grows c w (perform net op w).2).
  { apply perform_grows. intros d o ->. apply (Halias net d o). left. }
  assert (Hobs : returned c (perform net op w).1 = [] ∨
                 returned c (perform net op w).1 = [view w c]).
  { apply perform_returned. destruct Hreads as [? | Hreads]; [by left | right].
    intros ->. apply Hreads. left. }
  destruct (perform net op w) as [o1 w1]. simpl in Hg, Hobs.
  destruct (IH w1) as [Hall Hsorted].
  { intros net' d o Hin. apply (Halias net' d o). by right. }
  { destruct Hreads as [Hlocal | Hreads].
    - left. destruct Hg as [Hf Hi _ _]. unfold remoteBacked in *. by rewrite Hf, Hi.
    - right. intros net' Hin. apply Hreads. by right. }
  destruct (run tr w1) as [o2 w2]. simpl in *.
  rewrite returned_app.
  assert (Hall' : Forall (λ v, view w c ≤ v) (returned c o2)).
  { eapply Forall_impl; [exact Hall |]. simpl. intros v Hv.
    pose proof (view_grows _ _ Hg). lia. }
  destruct Hobs as [-> | ->]; simpl; [done |].
  split; [constructor; [lia | done] | by apply never_decreases_cons].
Qed.
End Monotone.
(** *** The per-tab-session flag *)

Definition counted (w : World) (counterId : string) : bool :=
  JS.truthy (sessionStorage w !! (sessionPrefix +:+ counterId)).

Section Flag.
Context `{!JSON Obj, !JSON (list Obj)}.
Variable net : Oracle.

(** With the flag set, an initialized engine only reads. *)
Lemma incrementCounter_counted_eq (counterId : string) (options : Obj) (w : World) :
  initialized w = true → counted w counterId = true →
  incrementCounter net counterId options w = getCounterValue net counterId w.
Proof.
  intros Hinit Hflag. unfold incrementCounter, counted in *.
  unfold bind at 1, get at 1. rewrite Hinit. cbn [negb].
  unfold try_catch. unfold bind at 1, get at 1. rewrite Hflag.
  rewrite getCounterValue_eq.
  destruct (remoteBacked w); [destruct (net (calls w)) |]; done.
Qed.

Lemma incrementCounter_counted (counterId : string) (options : Obj) (w : World) :
  initialized w = true → counted w counterId = true →
  (incrementCounter net counterId options w).2 = w ∨
  (incrementCounter net counterId options w).2 = tick w.
Proof.
  intros Hinit Hflag.
  rewrite incrementCounter_counted_eq, getCounterValue_eq by done.
  destruct (remoteBacked w); [destruct (net (calls w)) |]; simpl; auto.
Qed.

(** A call that meets no thrown remote call leaves the flag set. *)
Lemma incrementCounter_sets_flag (counterId : string) (options : Obj) (w : World) :
  initialized w = true → (∀ k, net k ≠ Throw) →
  ∃ v w', incrementCounter net counterId options w = (Returned v, w') ∧
          initialized w' = true ∧ counted w' counterId = true.
Proof.
  intros Hinit Hnet.
  destruct (counted w counterId) eqn:Hflag.
  { rewrite incrementCounter_counted_eq, getCounterValue_eq by done.
    destruct (remoteBacked w); [destruct (net (calls w)) |]; by eexists _, _. }
  unfold incrementCounter, counted in *.
  unfold bind at 1, get at 1. rewrite Hinit. cbn [negb].
  unfold try_catch. unfold bind at 1, get at 1. rewrite Hflag.
  unfold bind at 1.
  assert (Hremote : ∃ n w1,
    (if negb (fallbackEnabled w)
     then do data <- select_count net counterId;
          match data with
          | Some c0 => update net counterId (c0 + 1) (Some (date w));; ret (c0 + 1)
          | None =>
              insert net counterId
                {| page_name := or_string (options !! "pageName") counterId;
                   count := 1; last_updated := Some (date w) |};; ret 1
          end
     else ret 1) w = (Returned n, w1)
    ∧ initialized w1 = true ∧ sessionStorage w1 = sessionStorage w).
  { destruct (fallbackEnabled w); cbn [negb]; [by eexists _, _ |].
    unfold bind at 1. rewrite select_count_eq.
    pose proof (Hnet (calls w)) as H0. pose proof (Hnet (S (calls w))) as H1.
    destruct (net (calls w)) eqn:E0; [| | done].
    - destruct (page_counters w !! counterId) as [r |]; simpl;
        unfold bind at 1; rewrite ?update_eq, ?insert_eq; simpl;
        destruct (net (S (calls w))); try done; by eexists _, _.
    - unfold bind at 1; rewrite insert_eq; simpl.
      destruct (net (S (calls w))); try done; by eexists _, _. }
  destruct Hremote as (n & w1 & -> & Hinit1 & Hsess1).
  unfold bind at 1. rewrite incrementLocal_eq.
  unfold bind at 1, modify at 1. unfold bind at 1.
  match goal with
  | |- context [saveToHistory counterId options ?w2] =>
      destruct (saveToHistory_eq counterId options w2) as [-> | [text ->]]
  end; eexists _, _; (split; [reflexivity |]); simpl; by rewrite ?lookup_insert_eq.
Qed.

(** [incrementCounter] always returns: its handler cannot throw. *)
Lemma incrementCounter_returns (counterId : string) (options : Obj) (w : World) :
  ∃ v, (incrementCounter net counterId options w).1 = Returned v.
Proof.
  unfold incrementCounter. unfold bind at 1, get at 1.
  destruct (initialized w); cbn [negb].
  - unfold try_catch.
    match goal with |- context [let (_, _) := ?m in _] => destruct m as [[v |] w'] end;
      [by eexists |].
    rewrite incrementLocal_eq. by eexists.
  - unfold bind at 1, modify at 1. rewrite incrementLocal_eq. by eexists.
Qed.

(** It never changes the mode of the engine. *)
Lemma incrementCounter_mode (counterId : string) (options : Obj) (w : World) :
  initialized (incrementCounter net counterId options w).2 = initialized w ∧
  fallbackEnabled (incrementCounter net counterId options w).2 = fallbackEnabled w.
Proof.
  (* read off [grows] at a counter name that no key of this call can be
     mistaken for *)
  destruct (grows_incrementCounter (counterId +:+ "!") net counterId options w)
    as [? ? _ _]; [| | done];
    intros E; apply (inj (String.app _)) in E; discriminate E.
Qed.
End Flag.

(** *** [initialize] *)

Section Initialize.
Context `{!JSON Obj, !JSON (list Obj)}.
Variable net : Oracle.

Lemma for_of_returns {A} (I : World → Prop) (xs : list A)
    (body : A → M World unit) (w : World) :
  I w →
  (∀ x w', I w' → ∃ w'', body x w' = (Returned tt, w'') ∧ I w'') →
  ∃ w', for_of xs body w = (Returned tt, w') ∧ I w'.
Proof.
  intros Hw Hbody. revert w Hw. induction xs as [| x xs IH]; intros w Hw; simpl.
  - by eexists.
  - unfold bind. destruct (Hbody x w Hw) as (w'' & -> & Hw''). by apply IH.
Qed.

(** When the probe resolves, with or without an error, the queue is
    drained and left empty. *)
Lemma initialize_resolved (w : World) :
  net (calls w) ≠ Throw →
  ∃ w', initialize net w = (Returned tt, w') ∧
        initialized w' = true ∧
        pendingIncrements w' = [] ∧
        fallbackEnabled w' = match net (calls w) with Err => true | _ => false end.
Proof.
  intros Hnet. unfold initialize, try_catch. unfold bind at 1.
  unfold probe, bind at 1, call.
  set (w0 := set_calls (S (calls w)) w).
  assert (Hloop : ∀ b, ∃ w',
    (do w1 <- get;
     if decide (0 < length (pendingIncrements w1))%nat
     then for_of (pendingIncrements w1)
            (λ increment, incrementCounter net increment.1 increment.2;; ret tt);;
          modify (set_pendingIncrements (λ _, []))
     else ret tt)
      (set_initialized true (set_fallbackEnabled b w0)) = (Returned tt, w')
    ∧ initialized w' = true
    ∧ pendingIncrements w' = [] ∧ fallbackEnabled w' = b).
  { intros b. unfold bind at 1, get at 1.
    set (w1 := set_initialized true (set_fallbackEnabled b w0)).
    destruct (decide _) as [Hlen | Hlen].
    - unfold bind at 1.
      destruct (for_of_returns
                  (λ w', initialized w' = true ∧ fallbackEnabled w' = b)
                  (pendingIncrements w1)
                  (λ increment, incrementCounter net increment.1 increment.2;; ret tt)
                  w1) as (w2 & -> & Hi2 & Hf2); [done | |].
      + intros [d o] w' [Hi Hf]. simpl. unfold bind.
        destruct (incrementCounter_returns net d o w') as [v Hv].
        destruct (incrementCounter_mode net d o w') as [Hi' Hf'].
        destruct (incrementCounter net d o w') as [r w'']. simpl in *. subst r.
        eexists. split; [reflexivity |]. split; congruence.
      + by eexists.
    - exists w1. split_and!; try done.
      destruct (pendingIncrements w1); [done | simpl in Hlen; lia]. }
  destruct (net (calls w)) eqn:E; [| | done].
  - unfold ret at 1, bind at 1, modify at 1. unfold bind at 1, modify at 1.
    destruct (Hloop false) as (w' & -> & ? & ? & ?). by eexists.
  - unfold ret at 1, bind at 1, modify at 1. unfold bind at 1, modify at 1.
    destruct (Hloop true) as (w' & -> & ? & ? & ?). by eexists.
Qed.

(** When the probe throws, the handler switches to the local mode and
    the queue is left as it was. *)
Lemma initialize_thrown (w : World) :
  net (calls w) = Throw →
  initialize net w =
  (Returned tt, set_initialized true (set_fallbackEnabled true (tick w))).
Proof.
  intros Hnet. unfold initialize, try_catch. unfold bind at 1.
  unfold probe, bind at 1, call. by rewrite Hnet.
Qed.
End Initialize.
(** *** [syncWithDatabase] *)

Section Sync.
Context `{!JSON Obj, !JSON (list Obj)}.

(** Nothing is left to push for this key: the loop skips it, or the
    remote row already counts at least as much. *)
Definition settled (w : World) (key : string) : Prop :=
  Str.includes "_history" key || Str.includes "_details" key
    || Str.includes "click_" key = true ∨
  match JS.parseInt_item (localStorage w !! key) with
  | None => True
  | Some n =>
      ∃ r, page_counters w !! Str.remove_first localStoragePrefix key = Some r
           ∧ n ≤ count r
  end.

Lemma settled_grows (w w' : World) (key : string) :
  settled w key →
  localStorage w' = localStorage w →
  (∀ c, grows c w w') →
  settled w' key.
Proof.
  intros [Hskip | Hs] Hl Hg; [by left | right]. rewrite Hl.
  destruct (JS.parseInt_item _) as [n |]; [| done].
  destruct Hs as (r & Hr & Hn).
  destruct (Hg (Str.remove_first localStoragePrefix key)) as [_ _ _ Hrem].
  rewrite Hr in Hrem. destruct Hrem as (r' & Hr' & Hle).
  exists r'. split; [done | lia].
Qed.

(** With the remote store answering, one pass settles the key. *)
Lemma syncKey_settles (net : Oracle) (key : string) (w : World) :
  (∀ k, net k = Ok) →
  ∃ w', syncKey net key w = (Returned tt, w') ∧
        localStorage w' = localStorage w ∧ settled w' key.
Proof.
  intros Hnet. unfold syncKey, settled.
  destruct (_ || _) eqn:Hskip; [exists w; auto |].
  unfold bind at 1, get at 1.
  destruct (JS.parseInt_item (localStorage w !! key)) as [n |] eqn:Hn.
  2:{ exists w. split_and!; [done ..|]. right. by rewrite Hn. }
  unfold bind at 1. rewrite select_count_eq, Hnet.
  destruct (page_counters w !! _) as [r |] eqn:Hr; simpl.
  - destruct (n >? count r) eqn:Hgt.
    + rewrite update_eq. simpl. rewrite Hnet.
      eexists. split_and!; [done ..|]. right. simpl. rewrite Hn.
      rewrite lookup_alter_eq, Hr. simpl. eexists. split; [done |]. simpl. lia.
    + eexists. split_and!; [done ..|]. right. simpl. rewrite Hn.
      exists r. split; [done | lia].
  - rewrite insert_eq. simpl. rewrite Hnet.
    eexists. split_and!; [done ..|]. right. simpl. rewrite Hn, Hr.
    rewrite lookup_insert_eq. eexists. split; [done |]. simpl. lia.
Qed.

(** On a settled key the pass only reads. *)
Lemma syncKey_quiet (net : Oracle) (key : string) (w : World) :
  (∀ k, net k = Ok) → settled w key →
  ∃ w', syncKey net key w = (Returned tt, w') ∧ (w' = w ∨ w' = tick w).
Proof.
  intros Hnet Hs. unfold syncKey.
  destruct (_ || _) eqn:Hskip; [exists w; auto |].
  destruct Hs as [Hs | Hs]; [unfold settled in Hs; congruence |].
  unfold bind at 1, get at 1.
  destruct (JS.parseInt_item (localStorage w !! key)) as [n |]; [| exists w; auto].
  destruct Hs as (r & Hr & Hle).
  unfold bind at 1. rewrite select_count_eq, Hnet, Hr. simpl.
  assert (Hgt : (n >? count r) = false)
    by (rewrite Z.gtb_ltb; apply Z.ltb_ge; lia).
  rewrite Hgt. exists (tick w). auto.
Qed.

Lemma sync_loop_settles (net : Oracle) (keys : list string) (w : World) :
  (∀ k, net k = Ok) →
  ∃ w', for_of keys (syncKey net) w = (Returned tt, w') ∧
        localStorage w' = localStorage w ∧
        fallbackEnabled w' = fallbackEnabled w ∧
        Forall (settled w') keys.
Proof.
  intros Hnet. revert w. induction keys as [| key keys IH]; intros w; simpl.
  { exists w. by split_and!. }
  unfold bind.
  destruct (syncKey_settles net key w Hnet) as (w1 & E1 & Hl1 & Hs1).
  pose proof (λ c, grows_syncKey c net key w) as Hg1.
  rewrite E1 in Hg1 |- *. simpl in Hg1.
  destruct (IH w1) as (w' & E & Hl & Hf & Hall).
  pose proof (λ c, grows_for_of c keys (syncKey net) w1
                     (λ x w'' _, grows_syncKey c net x w'')) as Hg.
  rewrite E in Hg |- *. simpl in Hg.
  exists w'. split_and!; [done | congruence | | ].
  - rewrite Hf. by destruct (Hg1 "").
  - constructor; [| done]. by apply (settled_grows w1).
Qed.

Lemma sync_loop_quiet (net : Oracle) (keys : list string) (w : World) :
  (∀ k, net k = Ok) → Forall (settled w) keys →
  ∃ w', for_of keys (syncKey net) w = (Returned tt, w') ∧
        localStorage w' = localStorage w ∧
        page_counters w' = page_counters w ∧
        requests w' = requests w.
Proof.
  intros Hnet. revert w. induction keys as [| key keys IH]; intros w Hall; simpl.
  { exists w. by split_and!. }
  inversion Hall as [| ? ? Hkey Hkeys]; subst.
  unfold bind.
  destruct (syncKey_quiet net key w Hnet Hkey) as (w1 & -> & [-> | ->]).
  - by apply IH.
  - destruct (IH (tick w)) as (w' & -> & ? & ? & ?); [done |].
    exists w'. by split_and!.
Qed.

(** Two runs against a remote store that answers every call: the second
    one sends no write. *)
Lemma sync_twice (net1 net2 : Oracle) (w : World) :
  (∀ k, net1 k = Ok) → (∀ k, net2 k = Ok) →
  requests (syncWithDatabase net2 (syncWithDatabase net1 w).2).2
  = requests (syncWithDatabase net1 w).2.
Proof.
  intros H1 H2.
  assert (Hrun1 : ∃ w1, (syncWithDatabase net1 w).2 = w1 ∧
    localStorage w1 = localStorage w ∧
    (fallbackEnabled w1 = true ∨
     Forall (settled w1)
       (filter (λ key, Str.startsWith localStoragePrefix key = true)
          (map_to_list (localStorage w)).*1))).
  { unfold syncWithDatabase. unfold bind at 1, get at 1.
    destruct (fallbackEnabled w) eqn:Hf; [exists w; auto |].
    unfold try_catch, bind at 1, get at 1. unfold bind at 1.
    destruct (sync_loop_settles net1
                (filter (λ key, Str.startsWith localStoragePrefix key = true)
                   (map_to_list (localStorage w)).*1) w H1)
      as (w1 & -> & Hl & _ & Hall).
    exists w1. auto. }
  destruct Hrun1 as (w1 & -> & Hl & Hsettled).
  unfold syncWithDatabase. unfold bind at 1, get at 1.
  destruct (fallbackEnabled w1) eqn:Hf; [done |].
  destruct Hsettled as [? | Hall]; [done |].
  unfold try_catch, bind at 1, get at 1. unfold bind at 1. rewrite Hl.
  by destruct (sync_loop_quiet net2 _ w1 H2 Hall) as (w2 & -> & _ & _ & ?).
Qed.

(** No run lowers a remote count, whatever the remote store answers. *)
Lemma sync_keeps_rows (net : Oracle) (w : World) (id : string) (r : PageCounter) :
  page_counters w !! id = Some r →
  ∃ r', page_counters (syncWithDatabase net w).2 !! id = Some r'
        ∧ count r ≤ count r'.
Proof.
  intros Hr. destruct (grows_syncWithDatabase id net w) as [_ _ _ Hrem].
  by rewrite Hr in Hrem.
Qed.
End Sync.
(** *** The properties of the counters *)

Definition changes_at_most_once (v0 v1 v2 : Z) : Prop := v1 = v0 ∨ v2 = v1.

(** An engine that has initialized against a reachable remote store. *)
Definition connected (ls ss : gmap string string)
    (t : gmap string PageCounter) : World :=
  (initialize (always Ok) (browser ls ss t)).2.

(** The remote store counts 10 visits of "home", this browser 3. *)
Definition drifted : World :=
  connected {[ "fresko_counter_home" := "3" ]} ∅ {[ "home" := row 10 ]}.

(** C1, as stated, fails: a reading whose remote read succeeds returns the
    maximum 10, the next one, whose remote read fails, falls back to the
    local mirror and returns 3. *)
Lemma C1_counterexample :
  ¬ never_decreases
      (returned "home"
         (run [(always Ok, GetValue "home"); (always Err, GetValue "home")]
              drifted).1).
Proof.
  assert (E : returned "home"
                (run [(always Ok, GetValue "home"); (always Err, GetValue "home")]
                     drifted).1 = [10; 3]) by (vm_compute; reflexivity).
  rewrite E. intros H.
  assert (10 ≤ 3) by (apply (H 0%nat 1%nat); [lia | reflexivity ..]).
  lia.
Qed.

(** The counts of a world stay safe integers for [room] more increments:
    every stored text that reads as a number, and every remote count, is a
    safe integer with [room] to spare below [JS.MAX_SAFE_INTEGER].  An
    operation raises no count by more than one. *)
Definition safe_counts (room : Z) (w : World) : Prop :=
  (∀ key text n,
     localStorage w !! key = Some text → JS.parseInt text = Some n →
     - JS.MAX_SAFE_INTEGER ≤ n ≤ JS.MAX_SAFE_INTEGER - room) ∧
  (∀ id r,
     page_counters w !! id = Some r →
     - JS.MAX_SAFE_INTEGER ≤ count r ≤ JS.MAX_SAFE_INTEGER - room).

(** C1, amended: over any sequence of [incrementCounter],
    [syncWithDatabase] and [getCounterValue] that starts with counts that
    stay safe integers to its end, in which every remote read made by
    [getCounterValue] for the counter succeeds (none is made by an engine
    that is not remote-backed), and in which no incremented counter has its
    details or history key on the key of the counter read,
    [getCounterValue] never returns less for that counter than it returned
    before. *)
Theorem C1_getCounterValue_never_decreases `{!JSON Obj, !JSON (list Obj)}
    (c : string) (tr : list (Oracle * Op)) (w : World) :
  safe_counts (Z.of_nat (length tr)) w →
  (∀ net d o, (net, Increment d o) ∈ tr →
     d +:+ "_details" ≠ c ∧ d +:+ "_history" ≠ c) →
  (remoteBacked w = false ∨ ∀ net, (net, GetValue c) ∈ tr → net 0%nat = Ok) →
  never_decreases (returned c (run tr w).1).
Proof. intros _ Halias Hreads. by apply run_never_decreases. Qed.

Definition C1_trace : list (Oracle * Op) :=
  [ (always Ok, GetValue "home");
    (always Throw, Increment "home" ∅);
    (always Err, Sync);
    (always Ok, Increment "home" ∅);
    (always Ok, GetValue "home");
    (always Ok, Sync);
    (always Ok, GetValue "home") ].

Lemma C1_witness :
  never_decreases (returned "home" (run C1_trace drifted).1).
Proof.
  apply (C1_getCounterValue_never_decreases "home" C1_trace drifted).
  - assert (Els : localStorage drifted = {[ "fresko_counter_home" := "3" ]})
      by reflexivity.
    assert (Ept : page_counters drifted = {[ "home" := row 10 ]}) by reflexivity.
    split.
    + intros key text n Hkey Hparse. rewrite Els in Hkey.
      apply lookup_singleton_Some in Hkey as [_ <-].
      injection Hparse as <-. vm_compute. split; discriminate.
    + intros id r Hid. rewrite Ept in Hid.
      apply lookup_singleton_Some in Hid as [_ <-].
      vm_compute. split; discriminate.
  - intros net d o Hin. unfold C1_trace in Hin.
    repeat (apply elem_of_cons in Hin as [Hin | Hin]; [by simplify_eq |]).
    by apply elem_of_nil in Hin.
  - right. intros net Hin. unfold C1_trace in Hin.
    repeat (apply elem_of_cons in Hin as [Hin | Hin]; [by simplify_eq |]).
    by apply elem_of_nil in Hin.
Defined.

(** C2, as stated, fails: before [initialize] has run, each call counts
    locally without looking at the flag, so two calls move the reconciled
    value from 0 to 1 and from 1 to 2. *)
Lemma C2_counterexample :
  let w0 := browser ∅ ∅ ∅ in
  let w1 := (incrementCounter (always Ok) "home" ∅ w0).2 in
  let w2 := (incrementCounter (always Ok) "home" ∅ w1).2 in
  ¬ changes_at_most_once
      (reconciled w0 "home") (reconciled w1 "home") (reconciled w2 "home").
Proof.
  intros w0 w1 w2.
  assert (E0 : reconciled w0 "home" = 0) by (vm_compute; reflexivity).
  assert (E1 : reconciled w1 "home" = 1) by (vm_compute; reflexivity).
  assert (E2 : reconciled w2 "home" = 2) by (vm_compute; reflexivity).
  unfold changes_at_most_once. rewrite E0, E1, E2. lia.
Qed.

(** C2, amended: once [initialize] has completed, two successive calls of
    [incrementCounter] for a counter, the first of which meets no thrown
    remote call, change the reconciled value of the counter at most once:
    the first call leaves the per-tab-session flag set, and the second
    writes to neither store. *)
Theorem C2_increment_once_per_session `{!JSON Obj, !JSON (list Obj)}
    (net1 net2 : Oracle) (counterId : string) (options1 options2 : Obj)
    (w : World) :
  initialized w = true →
  (∀ k, net1 k ≠ Throw) →
  let w1 := (incrementCounter net1 counterId options1 w).2 in
  let w2 := (incrementCounter net2 counterId options2 w1).2 in
  counted w1 counterId = true ∧
  localStorage w2 = localStorage w1 ∧
  page_counters w2 = page_counters w1 ∧
  changes_at_most_once
    (reconciled w counterId) (reconciled w1 counterId) (reconciled w2 counterId).
Proof.
  intros Hinit Hnet w1 w2. subst w1 w2.
  destruct (incrementCounter_sets_flag net1 counterId options1 w Hinit Hnet)
    as (v & w1 & -> & Hinit1 & Hflag1). simpl.
  assert (Hsame : localStorage (incrementCounter net2 counterId options2 w1).2
                    = localStorage w1 ∧
                  page_counters (incrementCounter net2 counterId options2 w1).2
                    = page_counters w1).
  { by destruct (incrementCounter_counted net2 counterId options2 w1 Hinit1 Hflag1)
      as [-> | ->]. }
  destruct Hsame as [Hl Hr]. split_and!; [done ..|].
  right. unfold reconciled, localCount. by rewrite Hl, Hr.
Qed.

Lemma C2_witness :
  let w := connected ∅ ∅ {[ "home" := row 10 ]} in
  let w1 := (incrementCounter (always Ok) "home" ∅ w).2 in
  let w2 := (incrementCounter (always Err) "home" ∅ w1).2 in
  counted w1 "home" = true ∧
  localStorage w2 = localStorage w1 ∧
  page_counters w2 = page_counters w1 ∧
  changes_at_most_once
    (reconciled w "home") (reconciled w1 "home") (reconciled w2 "home").
Proof.
  apply (C2_increment_once_per_session (always Ok) (always Err) "home" ∅ ∅
           (connected ∅ ∅ {[ "home" := row 10 ]})).
  - vm_compute; reflexivity.
  - intros k. discriminate.
Defined.

(** C3: the code does not do what the claim says when the probe throws.
    One visit is queued before [initialize]; the probe throws; the engine
    ends initialized, in the local mode, with the visit still in the queue
    and never processed (its flag is not set). *)
Theorem C3_thrown_probe_leaves_queue :
  let w0 := (incrementCounter (always Ok) "home" ∅ (browser ∅ ∅ ∅)).2 in
  let w1 := (initialize (always Throw) w0).2 in
  pendingIncrements w0 = [("home", ∅)] ∧
  initialized w1 = true ∧ fallbackEnabled w1 = true ∧
  pendingIncrements w1 = [("home", ∅)] ∧
  counted w1 "home" = false ∧
  localStorage w1 = localStorage w0.
Proof. intros w0 w1. repeat split; vm_compute; reflexivity. Qed.

(** C4, as stated, fails: the first run meets a remote store that answers
    every call with an error, so nothing is stored; the second run, against
    a store that answers, sends the insert again. *)
Lemma C4_counterexample :
  let w0 := connected {[ "fresko_counter_home" := "3" ]} ∅ ∅ in
  let w1 := (syncWithDatabase (always Err) w0).2 in
  let w2 := (syncWithDatabase (always Ok) w1).2 in
  requests w2 ≠ requests w1.
Proof.
  intros w0 w1 w2.
  assert (E1 : length (requests w1) = 1%nat) by (vm_compute; reflexivity).
  assert (E2 : length (requests w2) = 2%nat) by (vm_compute; reflexivity).
  intros H. rewrite H in E2. congruence.
Qed.

(** C4, amended: when the remote store answers every call of two
    successive runs of [syncWithDatabase], with no local increment between
    them, the second run sends no insert and no update; and whatever the
    remote store answers, a row that is stored stays stored, through both
    runs, with a count that never gets lower. *)
Theorem C4_sync_idempotent_and_never_lowers `{!JSON Obj, !JSON (list Obj)}
    (net1 net2 : Oracle) (w : World) (id : string) (r : PageCounter) :
  let w1 := (syncWithDatabase net1 w).2 in
  let w2 := (syncWithDatabase net2 w1).2 in
  ((∀ k, net1 k = Ok) → (∀ k, net2 k = Ok) → requests w2 = requests w1) ∧
  (page_counters w !! id = Some r →
   ∃ r1 r2, page_counters w1 !! id = Some r1 ∧ page_counters w2 !! id = Some r2
            ∧ count r ≤ count r1 ∧ count r1 ≤ count r2).
Proof.
  intros w1 w2. split.
  - apply sync_twice.
  - intros Hr.
    destruct (sync_keeps_rows net1 w id r Hr) as (r1 & Hr1 & H1).
    destruct (sync_keeps_rows net2 w1 id r1 Hr1) as (r2 & Hr2 & H2).
    by exists r1, r2.
Qed.

Lemma C4_witness :
  let w := connected {[ "fresko_counter_home" := "12"; "fresko_counter_shop" := "4" ]}
             ∅ {[ "home" := row 10 ]} in
  let w1 := (syncWithDatabase (always Ok) w).2 in
  let w2 := (syncWithDatabase (always Ok) w1).2 in
  requests w2 = requests w1 ∧
  ∃ r1 r2, page_counters w1 !! "home" = Some r1 ∧ page_counters w2 !! "home" = Some r2
           ∧ 10 ≤ count r1 ∧ count r1 ≤ count r2.
Proof.
  pose proof (C4_sync_idempotent_and_never_lowers (always Ok) (always Ok)
    (connected {[ "fresko_counter_home" := "12"; "fresko_counter_shop" := "4" ]}
       ∅ {[ "home" := row 10 ]}) "home" (row 10)) as [Hidem Hrows].
  split.
  - apply Hidem; intros k; reflexivity.
  - apply Hrows. vm_compute; reflexivity.
Defined.

(** C10: a counter that neither store knows reads as 0, and the call
    returns, in either mode and however the remote read ends. *)
Theorem C10_unknown_counter_reads_zero `{!JSON Obj, !JSON (list Obj)}
    (net : Oracle) (counterId : string) (w : World) :
  localStorage w !! (localStoragePrefix +:+ counterId) = None →
  page_counters w !! counterId = None →
  (getCounterValue net counterId w).1 = Returned 0.
Proof.
  intros Hl Hr. rewrite getCounterValue_eq.
  unfold reconciled, localCount. rewrite Hl, Hr.
  destruct (remoteBacked w); [destruct (net (calls w)) |]; reflexivity.
Qed.

Lemma C10_witness :
  (getCounterValue (always Throw) "shop" drifted).1 = Returned 0.
Proof.
  apply (C10_unknown_counter_reads_zero (always Throw) "shop" drifted);
    vm_compute; reflexivity.
Defined.

End CounterSystem.

(** ** security.js: [class SecuritySystem] *)

Module SecuritySystem.

Record Browser : Type := {
  localStorage : gmap string string;
  sessionStorage : gmap string string
}.

Definition set_localStorage (f : gmap string string → gmap string string)
    (b : Browser) : Browser :=
  {| localStorage := f (localStorage b); sessionStorage := sessionStorage b |}.

Definition set_sessionStorage (f : gmap string string → gmap string string)
    (b : Browser) : Browser :=
  {| localStorage := localStorage b; sessionStorage := f (sessionStorage b) |}.

(** The object kept under [rate_limit_<action>]; a field that is missing
    reads as [undefined]. *)
Record RateData : Type := {
  count : option Z;
  resetTime : option Z
}.

(** What [checkRateLimit] returns; [retryAfter] is present on a refusal
    only. *)
Record RateLimit : Type := {
  allowed : bool;
  remaining : Z;
  resetIn : Z;
  retryAfter : option Z
}.

(** The object kept under [user_session]. *)
Record Session (U : Type) : Type := {
  id : string;
  user : U;
  created : Z;
  expires : Z;
  ip : string;
  userAgent : string;
  lastActivity : option Z
}.
Arguments id {U} _.
Arguments user {U} _.
Arguments created {U} _.
Arguments expires {U} _.
Arguments ip {U} _.
Arguments userAgent {U} _.
Arguments lastActivity {U} _.

Definition set_lastActivity {U} (t : Z) (s : Session U) : Session U :=
  {| id := id s; user := user s; created := created s; expires := expires s;
     ip := ip s; userAgent := userAgent s; lastActivity := Some t |}.

Definition set_expires {U} (t : Z) (s : Session U) : Session U :=
  {| id := id s; user := user s; created := created s; expires := t;
     ip := ip s; userAgent := userAgent s; lastActivity := lastActivity s |}.

(** [this.sessionDuration], set by the constructor and never changed. *)
Definition sessionDuration : Z := 24 * 60 * 60 * 1000.

(** [this.sessionDuration * 0.8]: for this duration the product of the
    doubles is the integer 69120000 exactly. *)
Definition renewalWindow : Z := sessionDuration * 8 / 10.

(** [!x] on a number that may be missing: [undefined] and [0]. *)
Definition falsy (x : option Z) : bool :=
  match x with
  | None | Some 0 => true
  | Some _ => false
  end.

(** [storage.getItem(key)] when the code tests it for truth before use. *)
Definition item (m : gmap string string) (key : string) : option string :=
  match m !! key with
  | Some (String a t) => Some (String a t)
  | _ => None
  end.

Section Methods.
Context {UserData : Type}.
Context `{!JSON RateData, !JSON (Session UserData)}.

(** Each method below runs synchronously.  [checkRateLimit] and
    [generateCSRFToken] read [Date.now()] once, and [now] is that reading.
    [updateSessionActivity] reads it up to three times and
    [validateSession] once more before it; the readings are the arguments
    of [updateSessionActivity_at] and [validateSession_at], in the order
    they are taken. *)

Definition checkRateLimit (now : Z) (action : string) (limit interval : Z)
    : M Browser RateLimit :=
  let key := "rate_limit_" +:+ action in
  do b <- get;
  (* JSON.parse(sessionStorage.getItem(key) || '{}') *)
  do data <-
    match item (sessionStorage b) key with
    | Some text =>
        match JSON_parse text with
        | Some d => ret d
        | None => throw
        end
    | None => ret {| count := None; resetTime := None |}
    end;
  let data :=
    if falsy (count data) || falsy (resetTime data)
    then {| count := Some 0; resetTime := Some (now + interval) |}
    else data in
  let count0 := default 0 (count data) in
  let resetTime0 := default 0 (resetTime data) in
  let '(count1, resetTime1) :=
    if now >? resetTime0 then (0, now + interval) else (count0, resetTime0) in
  if count1 >=? limit then
    ret {| allowed := false; remaining := 0;
           resetIn := resetTime1 - now;
           retryAfter := Some (JS.ceil_div (resetTime1 - now) 1000) |}
  else
    let count2 := count1 + 1 in
    modify (set_sessionStorage
              <[key := JSON_stringify
                         {| count := Some count2; resetTime := Some resetTime1 |}]>);;
    ret {| allowed := true; remaining := limit - count2;
           resetIn := resetTime1 - now; retryAfter := None |}.

(** [token] is the string drawn by [generateRandomString(32)]. *)
Definition generateCSRFToken (now : Z) (token : string)
    : M Browser (option string) :=
  try_catch
    (let expires := now + 3600000 in
     modify (set_localStorage <["csrf_token" := token]>);;
     modify (set_localStorage <["csrf_token_expires" := JS.toString expires]>);;
     modify (set_sessionStorage <["csrf_token" := token]>);;
     ret (Some token))
    (ret None).

(** [activity] is the reading stored as [lastActivity], [test] the one
    compared with 80% of the duration, [renewal] the one that the new
    [expires] is counted from. *)
Definition updateSessionActivity_at (activity test renewal : Z) : M Browser unit :=
  try_catch
    (do b <- get;
     match item (localStorage b) "user_session" with
     | None => ret tt
     | Some sessionData =>
         match JSON_parse sessionData with
         | None => throw
         | Some session =>
             let session := set_lastActivity activity session in
             let session :=
               if test - created session <? renewalWindow
               then set_expires (renewal + sessionDuration) session
               else session in
             modify (set_localStorage
                       <["user_session" := JSON_stringify session]>)
         end
     end)
    (ret tt).

(** The call during which the clock stands at [now]. *)
Definition updateSessionActivity (now : Z) : M Browser unit :=
  updateSessionActivity_at now now now.

Definition destroySession : M Browser unit :=
  try_catch
    (modify (set_localStorage (delete "user_session"));;
     modify (set_localStorage (delete "csrf_token"));;
     modify (set_localStorage (delete "csrf_token_expires"));;
     modify (set_sessionStorage (delete "session_id"));;
     modify (set_sessionStorage (delete "csrf_token"));;
     modify (set_sessionStorage
               (filter (λ kv : string * string,
                  Str.startsWith "rate_limit_" kv.1 = false ∧
                  Str.startsWith "captcha_" kv.1 = false))))
    (ret tt).

(** [createSession] (lines 887 to 912 of the source) is declared without
    [async] and awaits [this.getClientIP()] in its body: as it is written
    it has no run, and it is not among the methods here. *)

(** [None] is the [false] the method returns; [Some u] is
    [session.user]. *)
(** [check] is the reading compared with [expires]; the other three are
    those of the call of [updateSessionActivity]. *)
Definition validateSession_at (check activity test renewal : Z)
    : M Browser (option UserData) :=
  try_catch
    (do b <- get;
     match item (localStorage b) "user_session" with
     | None => ret None
     | Some sessionData =>
         match JSON_parse sessionData with
         | None => throw
         | Some session =>
             if check >? expires session then
               destroySession;; ret None
             else
               do b <- get;
               if decide (sessionStorage b !! "session_id" = Some (id session))
               then updateSessionActivity_at activity test renewal;;
                    ret (Some (user session))
               else destroySession;; ret None
         end
     end)
    (ret None).

(** The call during which the clock stands at [now]. *)
Definition validateSession (now : Z) : M Browser (option UserData) :=
  validateSession_at now now now now.

End Methods.

(** *** What the methods do, case by case *)

Lemma ceil_div_pos (x d : Z) : 0 < x → 0 < d → 0 < JS.ceil_div x d.
Proof.
  intros Hx Hd. unfold JS.ceil_div.
  assert (- x / d < 0) by (apply Z.div_lt_upper_bound; lia). lia.
Qed.

Lemma renewalWindow_eq : 10 * renewalWindow = 8 * sessionDuration.
Proof. reflexivity. Qed.

Section Equations.
Context {UserData : Type}.
Context `{!JSON RateData, !JSON (Session UserData)}.

Lemma item_insert {A} `{!JSON A} (m : gmap string string) (k : string) (a : A) :
  item (<[k := JSON_stringify a]> m) k = Some (JSON_stringify a).
Proof.
  unfold item. rewrite lookup_insert_eq.
  pose proof (JSON_stringify_nonempty a). by destruct (JSON_stringify a).
Qed.

Lemma item_None (m : gmap string string) (k : string) :
  m !! k = None → item m k = None.
Proof. unfold item. by intros ->. Qed.

(** The first call for an action opens a window. *)
Lemma checkRateLimit_fresh (now : Z) (action : string) (limit interval : Z)
    (b : Browser) :
  item (sessionStorage b) ("rate_limit_" +:+ action) = None →
  0 < limit → 0 ≤ interval →
  checkRateLimit now action limit interval b =
  (Returned {| allowed := true; remaining := limit - 1;
               resetIn := interval; retryAfter := None |},
   set_sessionStorage
     <["rate_limit_" +:+ action :=
         JSON_stringify {| count := Some 1; resetTime := Some (now + interval) |}]> b).
Proof.
  intros Hitem Hlimit Hinterval. unfold checkRateLimit.
  unfold bind at 1, get at 1. rewrite Hitem. unfold bind at 1, ret at 1. simpl.
  assert (E1 : (now >? now + interval) = false)
    by (rewrite Z.gtb_ltb; apply Z.ltb_ge; lia).
  assert (E2 : (0 >=? limit) = false)
    by (rewrite Z.geb_leb; apply Z.leb_gt; lia).
  rewrite E1, E2. unfold bind, modify, ret. do 3 f_equal. lia.
Qed.

(** A later call inside the window counts against the bucket. *)
Lemma checkRateLimit_bucket (now : Z) (action : string) (limit interval : Z)
    (b : Browser) (c r : Z) :
  sessionStorage b !! ("rate_limit_" +:+ action)
    = Some (JSON_stringify {| count := Some c; resetTime := Some r |}) →
  0 < c → 0 < r → now ≤ r →
  checkRateLimit now action limit interval b =
  if c >=? limit then
    (Returned {| allowed := false; remaining := 0; resetIn := r - now;
                 retryAfter := Some (JS.ceil_div (r - now) 1000) |}, b)
  else
    (Returned {| allowed := true; remaining := limit - (c + 1);
                 resetIn := r - now; retryAfter := None |},
     set_sessionStorage
       <["rate_limit_" +:+ action :=
           JSON_stringify {| count := Some (c + 1); resetTime := Some r |}]> b).
Proof.
  intros Hb Hc Hr Hnow. unfold checkRateLimit.
  unfold bind at 1, get at 1.
  assert (Hitem : item (sessionStorage b) ("rate_limit_" +:+ action)
                  = Some (JSON_stringify {| count := Some c; resetTime := Some r |})).
  { unfold item. rewrite Hb.
    pose proof (JSON_stringify_nonempty {| count := Some c; resetTime := Some r |}).
    by destruct (JSON_stringify _). }
  rewrite Hitem, JSON_parse_stringify. unfold bind at 1, ret at 1.
  cbn [count resetTime].
  assert (Ec : falsy (Some c) = false) by (destruct c; [lia | done ..]).
  assert (Er : falsy (Some r) = false) by (destruct r; [lia | done ..]).
  rewrite Ec, Er. cbn [orb count resetTime default from_option Datatypes.id].
  assert (E1 : (now >? r) = false) by (rewrite Z.gtb_ltb; apply Z.ltb_ge; lia).
  rewrite E1. by destruct (c >=? limit).
Qed.

(** The renewal applied by [updateSessionActivity]. *)
Definition renew (now : Z) (s : Session UserData) : Session UserData :=
  let s := set_lastActivity now s in
  if now - created s <? renewalWindow
  then set_expires (now + sessionDuration) s
  else s.

Lemma updateSessionActivity_eq (now : Z) (b : Browser) (text : string)
    (s : Session UserData) :
  item (localStorage b) "user_session" = Some text →
  JSON_parse text = Some s →
  updateSessionActivity now b =
  (Returned tt,
   set_localStorage <["user_session" := JSON_stringify (renew now s)]> b).
Proof.
  intros Hitem Hparse.
  unfold updateSessionActivity, updateSessionActivity_at, try_catch.
  unfold bind at 1, get at 1. by rewrite Hitem, Hparse.
Qed.

Lemma destroySession_removes (b : Browser) :
  ∃ b', destroySession b = (Returned tt, b') ∧
        localStorage b' !! "user_session" = None.
Proof. eexists. split; [reflexivity |]. simpl. by simplify_map_eq. Qed.

(** The ways through [validateSession]. *)
Lemma validateSession_eq (now : Z) (b : Browser) :
  validateSession now b =
  match item (localStorage b) "user_session" with
  | None => (Returned None, b)
  | Some text =>
      match JSON_parse text with
      | None => (Returned None, b)
      | Some s =>
          if now >? expires s then (Returned None, (destroySession b).2)
          else if decide (sessionStorage b !! "session_id" = Some (id s))
          then (Returned (Some (user s)), (updateSessionActivity now b).2)
          else (Returned None, (destroySession b).2)
      end
  end.
Proof.
  unfold validateSession, validateSession_at, try_catch, bind, get.
  destruct (item (localStorage b) "user_session") as [text |] eqn:Hitem;
    [| reflexivity].
  destruct (JSON_parse text) as [s |] eqn:Hparse; [| reflexivity].
  destruct (now >? expires s).
  { by destruct (destroySession_removes b) as (b' & -> & _). }
  destruct (decide _).
  - change (updateSessionActivity_at now now now) with (updateSessionActivity now).
    by rewrite (updateSessionActivity_eq now b text s Hitem Hparse).
  - by destruct (destroySession_removes b) as (b' & -> & _).
Qed.

Lemma validateSession_cases (now : Z) (b : Browser) :
  match item (localStorage b) "user_session" with
  | None => validateSession now b = (Returned None, b)
  | Some text =>
      match JSON_parse text with
      | None => validateSession now b = (Returned None, b)
      | Some s =>
          if (now >? expires s)
             || negb (bool_decide (sessionStorage b !! "session_id" = Some (id s)))
          then ∃ b', validateSession now b = (Returned None, b') ∧
                     localStorage b' !! "user_session" = None
          else validateSession now b =
               (Returned (Some (user s)),
                set_localStorage
                  <["user_session" := JSON_stringify (renew now s)]> b)
      end
  end.
Proof.
  rewrite validateSession_eq.
  destruct (item (localStorage b) "user_session") as [text |] eqn:Hitem; [| done].
  destruct (JSON_parse text) as [s |] eqn:Hparse; [| done].
  destruct (now >? expires s) eqn:Hexp; cbn [orb].
  { destruct (destroySession_removes b) as (b' & -> & Hb'). by exists b'. }
  destruct (decide _) as [Hid | Hid].
  - rewrite bool_decide_eq_true_2 by done. cbn [negb].
    by rewrite (updateSessionActivity_eq now b text s Hitem Hparse).
  - rewrite bool_decide_eq_false_2 by done. cbn [negb].
    destruct (destroySession_removes b) as (b' & -> & Hb'). by exists b'.
Qed.

(** When [validateSession] succeeds: what it found and what it wrote. *)
Lemma validateSession_success (now : Z) (b : Browser) (u : UserData) :
  (validateSession now b).1 = Returned (Some u) →
  ∃ text s,
    item (localStorage b) "user_session" = Some text ∧
    JSON_parse text = Some s ∧
    now ≤ expires s ∧
    sessionStorage b !! "session_id" = Some (id s) ∧
    u = user s ∧
    (validateSession now b).2 =
      set_localStorage <["user_session" := JSON_stringify (renew now s)]> b.
Proof.
  pose proof (validateSession_cases now b) as Hcases.
  destruct (item (localStorage b) "user_session") as [text |] eqn:Hitem;
    [| by rewrite Hcases].
  destruct (JSON_parse text) as [s |] eqn:Hparse; [| by rewrite Hcases].
  destruct (now >? expires s) eqn:Hexp; cbn [orb] in Hcases.
  { destruct Hcases as (b' & -> & _). done. }
  destruct (bool_decide _) eqn:Hid; cbn [negb] in Hcases.
  2:{ destruct Hcases as (b' & -> & _). done. }
  rewrite Hcases. simpl. intros [= <-]. exists text, s.
  apply bool_decide_eq_true_1 in Hid.
  rewrite Z.gtb_ltb in Hexp. apply Z.ltb_ge in Hexp. by split_and!.
Qed.

Lemma validateSession_expired (now : Z) (b : Browser) (text : string)
    (s : Session UserData) :
  item (localStorage b) "user_session" = Some text →
  JSON_parse text = Some s →
  expires s < now →
  ∃ b', validateSession now b = (Returned None, b') ∧
        localStorage b' !! "user_session" = None.
Proof.
  intros Hitem Hparse Hexp.
  pose proof (validateSession_cases now b) as Hcases.
  rewrite Hitem, Hparse in Hcases.
  assert (E : (now >? expires s) = true) by (rewrite Z.gtb_ltb; apply Z.ltb_lt; lia).
  by rewrite E in Hcases.
Qed.

Lemma validateSession_valid (now : Z) (b : Browser) (text : string)
    (s : Session UserData) :
  item (localStorage b) "user_session" = Some text →
  JSON_parse text = Some s →
  now ≤ expires s →
  sessionStorage b !! "session_id" = Some (id s) →
  validateSession now b =
  (Returned (Some (user s)),
   set_localStorage <["user_session" := JSON_stringify (renew now s)]> b).
Proof.
  intros Hitem Hparse Hexp Hid.
  pose proof (validateSession_cases now b) as Hcases.
  rewrite Hitem, Hparse in Hcases.
  assert (E : (now >? expires s) = false) by (rewrite Z.gtb_ltb; apply Z.ltb_ge; lia).
  by rewrite E, bool_decide_eq_true_2 in Hcases.
Qed.

End Equations.

(** *** Concrete stores *)

#[local] Instance RateData_eq_dec : EqDecision RateData.
Proof. solve_decision. Defined.

#[local] Instance RateData_countable : Countable RateData :=
  inj_countable' (λ d, (count d, resetTime d))
                 (λ p, {| count := p.1; resetTime := p.2 |})
                 (λ d, match d with Build_RateData _ _ => eq_refl end).

#[local] Instance Session_eq_dec : EqDecision (Session string).
Proof. solve_decision. Defined.

#[local] Instance Session_countable : Countable (Session string) :=
  inj_countable'
    (λ s, (id s, user s, created s, expires s, ip s, userAgent s, lastActivity s))
    (λ p, let '(i, u, c, e, a, g, l) := p in
          {| id := i; user := u; created := c; expires := e; ip := a;
             userAgent := g; lastActivity := l |})
    (λ s, match s with Build_Session _ _ _ _ _ _ _ _ => eq_refl end).

#[local] Instance RateData_JSON : JSON RateData := numeral_JSON.
#[local] Instance Session_JSON : JSON (Session string) := numeral_JSON.

Definition empty_browser : Browser :=
  {| localStorage := ∅; sessionStorage := ∅ |}.

(** *** The properties of the rate limiter, the token and the session *)

(** C5: from a state with no bucket for "x", four calls of
    [checkRateLimit("x", 3, 1000)] made less than 1000 ms apart are answered
    allowed with 2, 1 and 0 remaining, then refused with a positive
    [retryAfter]. *)
Theorem C5_rate_limit_four_calls `{!JSON RateData}
    (b : Browser) (t1 t2 t3 t4 : Z) :
  sessionStorage b !! "rate_limit_x" = None →
  0 ≤ t1 → t1 ≤ t2 → t2 ≤ t3 → t3 ≤ t4 → t4 < t1 + 1000 →
  ∃ r1 r2 r3 r4 b1 b2 b3 b4,
    checkRateLimit t1 "x" 3 1000 b = (Returned r1, b1) ∧
    checkRateLimit t2 "x" 3 1000 b1 = (Returned r2, b2) ∧
    checkRateLimit t3 "x" 3 1000 b2 = (Returned r3, b3) ∧
    checkRateLimit t4 "x" 3 1000 b3 = (Returned r4, b4) ∧
    (allowed r1 = true ∧ remaining r1 = 2) ∧
    (allowed r2 = true ∧ remaining r2 = 1) ∧
    (allowed r3 = true ∧ remaining r3 = 0) ∧
    (allowed r4 = false ∧ ∃ s, retryAfter r4 = Some s ∧ 0 < s).
Proof.
  intros Hb H0 H12 H23 H34 H41.
  pose (bucket k := JSON_stringify {| count := Some k; resetTime := Some (t1 + 1000) |}).
  pose (b1 := set_sessionStorage <["rate_limit_x" := bucket 1]> b).
  pose (b2 := set_sessionStorage <["rate_limit_x" := bucket 2]> b1).
  pose (b3 := set_sessionStorage <["rate_limit_x" := bucket 3]> b2).
  pose proof (checkRateLimit_fresh t1 "x" 3 1000 b) as E1.
  pose proof (checkRateLimit_bucket t2 "x" 3 1000 b1 1 (t1 + 1000)) as E2.
  pose proof (checkRateLimit_bucket t3 "x" 3 1000 b2 2 (t1 + 1000)) as E3.
  pose proof (checkRateLimit_bucket t4 "x" 3 1000 b3 3 (t1 + 1000)) as E4.
  change (1 >=? 3) with false in E2. change (2 >=? 3) with false in E3.
  change (3 >=? 3) with true in E4. cbv iota in E2, E3, E4.
  eexists _, _, _, _, _, _, _, _. split_and!.
  - apply E1; [by apply item_None | lia ..].
  - apply E2; [apply lookup_insert_eq | lia ..].
  - apply E3; [apply lookup_insert_eq | lia ..].
  - apply E4; [apply lookup_insert_eq | lia ..].
  - reflexivity.
  - reflexivity.
  - reflexivity.
  - reflexivity.
  - reflexivity.
  - reflexivity.
  - reflexivity.
  - eexists. split; [reflexivity |]. apply ceil_div_pos; lia.
Qed.

Lemma C5_witness :
  ∃ r1 r2 r3 r4 b1 b2 b3 b4,
    checkRateLimit 1700000000000 "x" 3 1000 empty_browser
      = (Returned r1, b1) ∧
    checkRateLimit 1700000000200 "x" 3 1000 b1 = (Returned r2, b2) ∧
    checkRateLimit 1700000000400 "x" 3 1000 b2 = (Returned r3, b3) ∧
    checkRateLimit 1700000000999 "x" 3 1000 b3 = (Returned r4, b4) ∧
    (allowed r1 = true ∧ remaining r1 = 2) ∧
    (allowed r2 = true ∧ remaining r2 = 1) ∧
    (allowed r3 = true ∧ remaining r3 = 0) ∧
    (allowed r4 = false ∧ ∃ s, retryAfter r4 = Some s ∧ 0 < s).
Proof.
  apply (C5_rate_limit_four_calls empty_browser
           1700000000000 1700000000200 1700000000400 1700000000999);
    [reflexivity | lia ..].
Defined.

(** C6: when [validateSession] succeeds, the stored record gets
    [lastActivity] set to the current time; its [expires] becomes the
    current time plus the session duration exactly when less than 80% of
    the duration has passed since [created], and is left as it was
    otherwise. *)
Theorem C6_validateSession_renewal {UserData : Type} `{!JSON (Session UserData)}
    (now : Z) (b : Browser) (u : UserData) :
  (validateSession now b).1 = Returned (Some u) →
  ∃ old new : Session UserData,
    item (localStorage b) "user_session" ≫= JSON_parse = Some old ∧
    localStorage (validateSession now b).2 !! "user_session" ≫= JSON_parse
      = Some new ∧
    lastActivity new = Some now ∧
    (10 * (now - created old) < 8 * sessionDuration →
       expires new = now + sessionDuration) ∧
    (8 * sessionDuration ≤ 10 * (now - created old) →
       expires new = expires old) ∧
    id new = id old ∧ user new = user old ∧ created new = created old.
Proof.
  intros Hret.
  destruct (validateSession_success now b u Hret)
    as (text & s & Hitem & Hparse & _ & _ & _ & ->).
  exists s, (renew now s). rewrite Hitem. simpl.
  rewrite lookup_insert_eq. simpl. rewrite JSON_parse_stringify.
  unfold renew. simpl.
  pose proof renewalWindow_eq as Hw.
  destruct (now - created s <? renewalWindow) eqn:Hlt;
    [apply Z.ltb_lt in Hlt | apply Z.ltb_ge in Hlt];
    split_and!; try done; simpl; intros; lia.
Qed.

(** A session of "alice", created at the first clock reading and last
    active 50 ms later, with the session id of its tab; it is validated 70
    minutes after that. *)
Definition alice_session : Browser :=
  {| localStorage :=
       {[ "user_session" :=
            JSON_stringify
              {| id := "k3Yq"; user := "alice"; created := 1700000000000;
                 expires := 1700000000050 + sessionDuration;
                 ip := "203.0.113.7"; userAgent := "Mozilla/5.0";
                 lastActivity := Some 1700000000050 |} ]};
     sessionStorage := {[ "session_id" := "k3Yq" ]} |}.

Lemma C6_witness :
  ∃ old new : Session string,
    item (localStorage alice_session) "user_session" ≫= JSON_parse = Some old ∧
    localStorage (validateSession 1700004200000 alice_session).2 !! "user_session"
      ≫= JSON_parse = Some new ∧
    lastActivity new = Some 1700004200000 ∧
    (10 * (1700004200000 - created old) < 8 * sessionDuration →
       expires new = 1700004200000 + sessionDuration) ∧
    (8 * sessionDuration ≤ 10 * (1700004200000 - created old) →
       expires new = expires old) ∧
    id new = id old ∧ user new = user old ∧ created new = created old.
Proof.
  apply (C6_validateSession_renewal 1700004200000 alice_session "alice").
  vm_compute. reflexivity.
Defined.

(** C9: a call of [generateCSRFToken] that returns a token leaves that
    token under [csrf_token] in both stores, and the call time plus one
    hour under [csrf_token_expires] in the durable store. *)
Theorem C9_csrf_token_stored (now : Z) (drawn t : string) (b : Browser) :
  (generateCSRFToken now drawn b).1 = Returned (Some t) →
  let b' := (generateCSRFToken now drawn b).2 in
  t = drawn ∧
  localStorage b' !! "csrf_token" = Some t ∧
  sessionStorage b' !! "csrf_token" = Some t ∧
  localStorage b' !! "csrf_token" = sessionStorage b' !! "csrf_token" ∧
  localStorage b' !! "csrf_token_expires" = Some (JS.toString (now + 3600000)) ∧
  JS.parseInt_item (localStorage b' !! "csrf_token_expires")
    = Some (now + 60 * 60 * 1000).
Proof.
  intros [= <-] b'. subst b'.
  unfold generateCSRFToken, try_catch, bind, modify, ret. cbn [fst snd].
  unfold set_localStorage, set_sessionStorage. cbn [localStorage sessionStorage].
  rewrite lookup_insert_ne by done. rewrite !lookup_insert_eq.
  split_and!; try done. simpl. apply parseInt_toString.
Qed.

Lemma C9_witness :
  let b' := (generateCSRFToken 1700000000000 "Zx81Qa"
               empty_browser).2 in
  "Zx81Qa" = "Zx81Qa" ∧
  localStorage b' !! "csrf_token" = Some "Zx81Qa" ∧
  sessionStorage b' !! "csrf_token" = Some "Zx81Qa" ∧
  localStorage b' !! "csrf_token" = sessionStorage b' !! "csrf_token" ∧
  localStorage b' !! "csrf_token_expires" = Some (JS.toString (1700000000000 + 3600000)) ∧
  JS.parseInt_item (localStorage b' !! "csrf_token_expires")
    = Some (1700000000000 + 60 * 60 * 1000).
Proof.
  apply (C9_csrf_token_stored 1700000000000 "Zx81Qa" "Zx81Qa"
           empty_browser).
  reflexivity.
Defined.

End SecuritySystem.

(** ** admin-functions.js: [AdminFunctions.selectWinners] *)

Module AdminFunctions.

(** The joined [users(username, telegram_tag)] of a participant row. *)
Record User : Type := {
  username : option string;
  telegram_tag : option string
}.

(** A row of [giveaway_participants] as the query selects it. *)
Record Participant : Type := {
  user_id : string;
  users : option User
}.

Record Winner : Type := {
  winner_user_id : string;
  winner_username : option string;
  winner_telegram_tag : option string
}.

(** A row of [giveaway_winners]. *)
Record WinnerRow : Type := {
  giveaway_id : string;
  won_user_id : string;
  won_at : string
}.

Record Remote : Type := {
  giveaways : gmap string Z;                          (* id ↦ winners_count *)
  giveaway_participants : list (string * Participant); (* giveaway_id, row *)
  giveaway_winners : list WinnerRow;
  calls : nat
}.

Definition tick (w : Remote) : Remote :=
  {| giveaways := giveaways w;
     giveaway_participants := giveaway_participants w;
     giveaway_winners := giveaway_winners w;
     calls := S (calls w) |}.

Definition add_winner (r : WinnerRow) (w : Remote) : Remote :=
  {| giveaways := giveaways w;
     giveaway_participants := giveaway_participants w;
     giveaway_winners := (giveaway_winners w ++ [r])%list;
     calls := calls w |}.

(** What [selectWinners] resolves to: [{ success: true, winners }] or
    [{ success: false, error }]. *)
Inductive Selection : Type :=
  | Success (winners : list Winner)
  | Failure.

(** [participants.find(p => p.user_id === winnerId)] *)
Definition find_participant (winnerId : string) (participants : list Participant)
    : option Participant :=
  List.find (λ p, bool_decide (user_id p = winnerId)) participants.

Section SelectWinners.
Variable net : Oracle.
(** The values that [window.crypto.getRandomValues] writes, draw after
    draw; a [Uint32Array] keeps each modulo 2^32. *)
Variable random : nat → Z.
(** [new Date().toISOString()] *)
Variable date : string.

Definition call : M Remote outcome :=
  λ w, (Returned (net (calls w)), tick w).

(** [Math.floor(cryptoRandom() * length)] with
    [cryptoRandom() = array[0] / (0xFFFFFFFF + 1)]; for fewer than 2^21
    candidates the doubles compute this quotient exactly. *)
Definition randomIndex (draw : nat) (length : nat) : nat :=
  Z.to_nat ((random draw `mod` 2 ^ 32) * Z.of_nat length / 2 ^ 32).

(** The loop [for (let i = 0; i < winnersCount; i++)], with [todo] turns
    left; reading [.users] of a participant that [find] did not find
    throws. *)
Fixpoint drawLoop (todo : nat) (i : nat) (participants : list Participant)
    (participantIds : list string) (winners : list Winner)
    : M Remote (list Winner) :=
  match todo with
  | O => ret winners
  | S todo' =>
      let index := randomIndex i (length participantIds) in
      match participantIds !! index with
      | None => throw
      | Some winnerId =>
          match find_participant winnerId participants with
          | None => throw
          | Some winnerParticipant =>
              let winner :=
                {| winner_user_id := winnerId;
                   winner_username := users winnerParticipant ≫= username;
                   winner_telegram_tag :=
                     users winnerParticipant ≫= telegram_tag |} in
              drawLoop todo' (S i) participants
                (delete index participantIds) (winners ++ [winner])%list
          end
      end
  end.

(** One [insert] into [giveaway_winners]; an error in the answer is
    logged and the loop goes on. *)
Definition saveWinner (giveawayId : string) (winner : Winner) : M Remote unit :=
  do o <- call;
  match o with
  | Ok => modify (add_winner {| giveaway_id := giveawayId;
                                won_user_id := winner_user_id winner;
                                won_at := date |})
  | Err => ret tt
  | Throw => throw
  end.

Definition selectWinners (giveawayId : string) : M Remote Selection :=
  try_catch
    (do w <- get;
     (* .from('giveaways').select('winners_count').eq('id', id).single() *)
     do o <- call;
     do winners_count <-
       match o, giveaways w !! giveawayId with
       | Ok, Some n => ret n
       | _, _ => throw
       end;
     (* .from('giveaway_participants').select(...).eq('giveaway_id', id) *)
     do o <- call;
     do participants <-
       match o with
       | Ok => ret (filter (λ row, row.1 = giveawayId) (giveaway_participants w)).*2
       | _ => throw
       end;
     if decide (length participants = 0%nat) then ret (Success [])
     else
       let participantIds := user_id <$> participants in
       let winnersCount :=
         Z.min winners_count (Z.of_nat (length participantIds)) in
       do winners <-
         drawLoop (Z.to_nat winnersCount) 0 participants participantIds [];
       for_of winners (saveWinner giveawayId);;
       ret (Success winners))
    (ret Failure).
End SelectWinners.

(** *** Drawing without replacement *)

Section Draws.
Variable net : Oracle.
Variable random : nat → Z.
Variable date : string.

Lemma randomIndex_lt (i n : nat) : (0 < n)%nat → (randomIndex random i n < n)%nat.
Proof.
  intros Hn. unfold randomIndex.
  pose proof (Z.mod_pos_bound (random i) (2 ^ 32) eq_refl) as [Hlo Hhi].
  set (u := random i `mod` 2 ^ 32) in *.
  assert (0 ≤ u * Z.of_nat n / 2 ^ 32) by (apply Z.div_pos; lia).
  assert (u * Z.of_nat n / 2 ^ 32 < Z.of_nat n).
  { apply Z.div_lt_upper_bound; [lia |]. apply Z.mul_lt_mono_pos_r; lia. }
  lia.
Qed.

Lemma find_participant_elem (x : string) (participants : list Participant) :
  x ∈ user_id <$> participants →
  ∃ p, find_participant x participants = Some p.
Proof.
  unfold find_participant.
  induction participants as [| q ps IH]; simpl; intros Hin.
  - by apply elem_of_nil in Hin.
  - destruct (bool_decide (user_id q = x)) eqn:Hq; [by eexists |].
    apply elem_of_cons in Hin as [-> | Hin]; [| by apply IH].
    by rewrite bool_decide_eq_true_2 in Hq.
Qed.

Lemma delete_Permutation {A} (l : list A) (i : nat) (x : A) :
  l !! i = Some x → Permutation l (x :: delete i l).
Proof.
  revert i. induction l as [| y l IH]; intros [| i] Hi; simplify_eq/=; [done |].
  rewrite (IH i Hi) at 1. apply perm_swap.
Qed.

(** [todo] turns take [todo] distinct positions of the candidate list, in
    the order drawn, and leave the others. *)
Lemma drawLoop_draws (participants : list Participant) (todo : nat) :
  ∀ (i : nat) (ids : list string) (winners : list Winner) (w : Remote),
    (todo ≤ length ids)%nat →
    (∀ x, x ∈ ids → x ∈ user_id <$> participants) →
    ∃ drawn rest,
      drawLoop random todo i participants ids winners w
        = (Returned (winners ++ drawn)%list, w) ∧
      length drawn = todo ∧
      Permutation ids ((winner_user_id <$> drawn) ++ rest).
Proof.
  induction todo as [| todo IH]; intros i ids winners w Hlen Hids; simpl.
  - exists [], ids. by rewrite app_nil_r.
  - assert (Hlt : (randomIndex random i (length ids) < length ids)%nat)
      by (apply randomIndex_lt; lia).
    destruct (lookup_lt_is_Some_2 ids _ Hlt) as [x Hx]. rewrite Hx.
    destruct (find_participant_elem x participants) as [p Hp].
    { apply Hids. by eapply list_elem_of_lookup_2. }
    rewrite Hp.
    pose proof (delete_Permutation ids _ x Hx) as Hperm.
    destruct (IH (S i) (delete (randomIndex random i (length ids)) ids)
                (winners ++ [{| winner_user_id := x;
                                winner_username := users p ≫= username;
                                winner_telegram_tag := users p ≫= telegram_tag |}])%list
                w)
      as (drawn & rest & -> & Hdrawn & Hrest).
    { rewrite length_delete by eauto. lia. }
    { intros y Hy. apply Hids. rewrite Hperm. by right. }
    eexists (_ :: drawn), rest. split_and!.
    + by rewrite <- app_assoc.
    + simpl. lia.
    + simpl. by rewrite Hperm, Hrest.
Qed.


End Draws.


Definition participant (uid name : string) : Participant :=
  {| user_id := uid;
     users := Some {| username := Some name; telegram_tag := None |} |}.

Definition spring_giveaway (k : Z) : Remote :=
  {| giveaways := {[ "spring" := k; "autumn" := 1 ]};
     giveaway_participants :=
       [ ("spring", participant "u-17" "ann");
         ("autumn", participant "u-02" "bob");
         ("spring", participant "u-23" "cid");
         ("spring", participant "u-40" "dee") ];
     giveaway_winners := [];
     calls := 0 |}.

(** Draws 3000000000, 5 and 4000000000 pick positions 2, 0 and 0. *)
Definition some_draws (i : nat) : Z :=
  match i with
  | 0%nat => 3000000000
  | 1%nat => 5
  | _ => 4000000000
  end.


End AdminFunctions.


(** * More of the code

    The rest of this file covers functions that the theorems above did not
    reach, with the same stores and the same effects. *)

(** ** Rules for a relation that every step of a method keeps *)

Section Steps.
Context {S : Type} (R : relation S) `{!PreOrder R}.

Lemma step_bind {A B} (m : M S A) (k : A → M S B) (s : S) :
  R s (m s).2 →
  (∀ a, (m s).1 = Returned a → R (m s).2 (k a (m s).2).2) →
  R s (bind m k s).2.
Proof.
  intros Hm Hk. unfold bind. destruct (m s) as [[a |] s']; simpl in *; [| done].
  etrans; [exact Hm | by apply Hk].
Qed.

Lemma step_try_catch {A} (m h : M S A) (s : S) :
  R s (m s).2 →
  ((m s).1 = Thrown → R (m s).2 (h (m s).2).2) →
  R s (try_catch m h s).2.
Proof.
  intros Hm Hh. unfold try_catch. destruct (m s) as [[a |] s']; simpl in *; [done |].
  etrans; [exact Hm | by apply Hh].
Qed.

Lemma step_for_of {A} (xs : list A) (body : A → M S unit) (s : S) :
  (∀ x s', x ∈ xs → R s' (body x s').2) →
  R s (for_of xs body s).2.
Proof.
  revert s. induction xs as [| x xs IH]; intros s Hbody; simpl; [done |].
  apply step_bind; [apply Hbody; left |].
  intros ? _. apply IH. intros y s' Hy. apply Hbody. by right.
Qed.
End Steps.

(** ** counter-system.js, continued *)

Module CounterFacts.
Import CounterSystem.

#[local] Existing Instance CounterSystem.Obj_JSON.
#[local] Existing Instance CounterSystem.history_JSON.

(** The key of the local mirror is not the details key or the history key
    of the same counter. *)
Lemma own_keys_differ (counterId : string) :
  localStoragePrefix +:+ counterId +:+ "_details" ≠ localStoragePrefix +:+ counterId ∧
  localStoragePrefix +:+ counterId +:+ "_history" ≠ localStoragePrefix +:+ counterId.
Proof.
  split; intros E; apply (inj (String.app _)) in E; by apply Str.app_neq in E.
Qed.

(** X1: while the local mirror of the counter reads as a safe integer,
    [incrementLocal] raises it by exactly one, returns the new value, and
    the value reads back from the store; a mirror that is missing or holds
    no number counts as 0.  The remote table and the session storage are
    not touched. *)
Theorem incrementLocal_counts_one `{!JSON Obj, !JSON (list Obj)}
    (counterId : string) (options : Obj) (w : World) :
  JS.isSafeInteger (localCount w counterId) →
  ∃ w', incrementLocal counterId options w
          = (Returned (localCount w counterId + 1), w') ∧
        localCount w' counterId = localCount w counterId + 1 ∧
        localStorage w' !! (localStoragePrefix +:+ counterId)
          = Some (JS.toString (localCount w counterId + 1)) ∧
        (JS.parseInt_item (localStorage w !! (localStoragePrefix +:+ counterId)) = None →
         localCount w' counterId = 1) ∧
        page_counters w' = page_counters w ∧
        sessionStorage w' = sessionStorage w.
Proof.
  intros _. rewrite incrementLocal_eq. eexists. split; [reflexivity |].
  destruct (own_keys_differ counterId) as [Hd _].
  assert (Hkey : localStorage
            (set_localStorage
               (λ m, <[localStoragePrefix +:+ counterId +:+ "_details"
                         := JSON_stringify (details options w)]>
                       (<[localStoragePrefix +:+ counterId
                            := JS.toString (localCount w counterId + 1)]> m)) w)
            !! (localStoragePrefix +:+ counterId)
          = Some (JS.toString (localCount w counterId + 1))).
  { simpl. rewrite lookup_insert_ne by done. apply lookup_insert_eq. }
  assert (Hcount : localCount
            (set_localStorage
               (λ m, <[localStoragePrefix +:+ counterId +:+ "_details"
                         := JSON_stringify (details options w)]>
                       (<[localStoragePrefix +:+ counterId
                            := JS.toString (localCount w counterId + 1)]> m)) w)
            counterId = localCount w counterId + 1).
  { unfold localCount at 1. rewrite Hkey. simpl. by rewrite parseInt_toString. }
  split_and!; [done | done | | done | done].
  intros Hnone. rewrite Hcount. unfold localCount. by rewrite Hnone.
Qed.

(** A browser that has counted three visits of "home". *)
Definition returning : World := browser {[ "fresko_counter_home" := "3" ]} ∅ ∅.

Lemma incrementLocal_counts_one_witness :
  ∃ w', incrementLocal "home" ∅ returning
          = (Returned (localCount returning "home" + 1), w') ∧
        localCount w' "home" = localCount returning "home" + 1 ∧
        localStorage w' !! (localStoragePrefix +:+ "home")
          = Some (JS.toString (localCount returning "home" + 1)) ∧
        (JS.parseInt_item (localStorage returning !! (localStoragePrefix +:+ "home"))
           = None →
         localCount w' "home" = 1) ∧
        page_counters w' = page_counters returning ∧
        sessionStorage w' = sessionStorage returning.
Proof.
  refine (incrementLocal_counts_one "home" ∅ returning _).
  vm_compute. split; discriminate.
Defined.

(** The entry that [saveToHistory] appends. *)
Definition history_entry (counterId : string) (options : Obj) (w : World) : Obj :=
  options ∪ {[ "timestamp" := date w; "counterId" := counterId;
               "userAgent" := userAgent w; "referrer" := referrer w ]}.

Lemma slice_last_spec {A} (n : nat) (l : list A) :
  length (slice_last n l) = Nat.min n (length l) ∧ slice_last n l `suffix_of` l.
Proof.
  unfold slice_last. split.
  - rewrite length_drop. lia.
  - exists (take (length l - n) l). by rewrite take_drop.
Qed.

(** X2: [saveToHistory] appends its entry to the stored history and keeps
    the last 100 entries, the new one last; a history that is missing starts
    empty, and a stored text that does not parse leaves the store as it
    was, the error swallowed. *)
Theorem saveToHistory_keeps_last_100 `{!JSON Obj, !JSON (list Obj)}
    (counterId : string) (options : Obj) (w : World) :
  let historyKey := localStoragePrefix +:+ counterId +:+ "_history" in
  (∀ history,
     (localStorage w !! historyKey = None ∧ history = []) ∨
     (∃ text, localStorage w !! historyKey = Some text ∧
              JSON_parse text = Some history) →
     ∃ kept,
       saveToHistory counterId options w
         = (Returned tt, set_localStorage <[historyKey := JSON_stringify kept]> w) ∧
       length kept = Nat.min 100 (length history + 1) ∧
       kept `suffix_of` (history ++ [history_entry counterId options w])%list ∧
       last kept = Some (history_entry counterId options w)) ∧
  (∀ text, localStorage w !! historyKey = Some text →
           JSON_parse (A := list Obj) text = None →
           saveToHistory counterId options w = (Returned tt, w)).
Proof.
  intros historyKey. subst historyKey. split.
  - intros history Hstored.
    assert (Hrun : saveToHistory counterId options w =
      (Returned tt,
       set_localStorage
         <[localStoragePrefix +:+ counterId +:+ "_history" :=
             JSON_stringify
               (if decide (100 < length (history ++ [history_entry counterId options w])%list)%nat
                then slice_last 100 (history ++ [history_entry counterId options w])%list
                else (history ++ [history_entry counterId options w])%list)]> w)).
    { unfold saveToHistory, try_catch, bind, get.
      destruct Hstored as [[-> ->] | (text & -> & ->)]; reflexivity. }
    rewrite Hrun. eexists. split; [reflexivity |].
    set (l := (history ++ [history_entry counterId options w])%list).
    assert (Hlen : length l = S (length history))
      by (unfold l; rewrite length_app; simpl; lia).
    assert (Hlast : last l = Some (history_entry counterId options w))
      by (unfold l; apply last_snoc).
    destruct (decide (100 < length l)%nat) as [Hlong | Hshort].
    + destruct (slice_last_spec 100 l) as [Hl Hsuf].
      split_and!; [lia | done |].
      destruct Hsuf as [k Hk]. rewrite Hk in Hlast.
      destruct (slice_last 100 l) as [| x kept] eqn:E;
        [change (length (@nil Obj)) with 0%nat in Hl; lia |].
      by rewrite last_app_cons in Hlast.
    + split_and!; [lia | done | done].
  - intros text Hstored Hparse.
    unfold saveToHistory, try_catch, bind, get. rewrite Hstored, Hparse.
    reflexivity.
Qed.

(** A history of 100 entries already stored for "home". *)
Definition full_history : list Obj := replicate 100 ({[ "counterId" := "home" ]} : Obj).

Definition crowded : World :=
  browser {[ "fresko_counter_home_history" := JSON_stringify full_history ]} ∅ ∅.

Lemma saveToHistory_keeps_last_100_witness :
  ∃ kept,
    saveToHistory "home" ∅ crowded
      = (Returned tt,
         set_localStorage
           <[localStoragePrefix +:+ "home" +:+ "_history" := JSON_stringify kept]>
           crowded) ∧
    length kept = Nat.min 100 (length full_history + 1) ∧
    kept `suffix_of` (full_history ++ [history_entry "home" ∅ crowded])%list ∧
    last kept = Some (history_entry "home" ∅ crowded).
Proof.
  refine (proj1 (saveToHistory_keeps_last_100 "home" ∅ crowded) full_history _).
  right. exists (JSON_stringify full_history). split.
  - reflexivity.
  - apply JSON_parse_stringify.
Defined.

(** *** The session flags are only ever set *)

Definition flags_kept (w w' : World) : Prop :=
  ∀ d, counted w d = true → counted w' d = true.

#[local] Instance flags_kept_preorder : PreOrder flags_kept.
Proof.
  split; [by intros w d | intros w1 w2 w3 H12 H23 d Hd; by apply H23, H12].
Qed.

Lemma flags_kept_frame (w w' : World) :
  sessionStorage w' = sessionStorage w → flags_kept w w'.
Proof. intros E d. unfold counted. by rewrite E. Qed.

Lemma flags_kept_set (key : string) (w : World) :
  flags_kept w (set_sessionStorage <[key := "true"]> w).
Proof.
  intros d. unfold counted. simpl.
  destruct (decide (key = sessionPrefix +:+ d)) as [-> | Hne].
  - by rewrite lookup_insert_eq.
  - by rewrite lookup_insert_ne.
Qed.

Section Flags.
Context `{!JSON Obj, !JSON (list Obj)}.
Variable net : Oracle.

Lemma flags_kept_select_count (id : string) (w : World) :
  flags_kept w (select_count net id w).2.
Proof.
  rewrite select_count_eq. destruct (net (calls w)); by apply flags_kept_frame.
Qed.

Lemma flags_kept_insert (id : string) (r : PageCounter) (w : World) :
  flags_kept w (insert net id r w).2.
Proof.
  rewrite insert_eq. destruct (net (calls w)); by apply flags_kept_frame.
Qed.

Lemma flags_kept_update (id : string) (n : Z) (lu : option string) (w : World) :
  flags_kept w (update net id n lu w).2.
Proof.
  rewrite update_eq. destruct (net (calls w)); by apply flags_kept_frame.
Qed.

Lemma flags_kept_incrementLocal (d : string) (o : Obj) (w : World) :
  flags_kept w (incrementLocal d o w).2.
Proof. rewrite incrementLocal_eq. by apply flags_kept_frame. Qed.

Lemma flags_kept_saveToHistory (d : string) (o : Obj) (w : World) :
  flags_kept w (saveToHistory d o w).2.
Proof.
  destruct (saveToHistory_eq d o w) as [-> | [text ->]]; by apply flags_kept_frame.
Qed.

Lemma flags_kept_getCounterValue (d : string) (w : World) :
  flags_kept w (getCounterValue net d w).2.
Proof.
  rewrite getCounterValue_eq.
  destruct (remoteBacked w); [destruct (net (calls w)) |]; by apply flags_kept_frame.
Qed.

Lemma flags_kept_incrementCounter (d : string) (o : Obj) (w : World) :
  flags_kept w (incrementCounter net d o w).2.
Proof.
  unfold incrementCounter.
  apply (step_bind flags_kept); [done |]. simpl. intros ? [= <-].
  destruct (initialized w); cbn [negb].
  - apply (step_try_catch flags_kept); [| intros _; apply flags_kept_incrementLocal].
    apply (step_bind flags_kept); [done |]. simpl. intros ? [= <-].
    destruct (JS.truthy _); [apply flags_kept_getCounterValue |].
    apply (step_bind flags_kept).
    + destruct (fallbackEnabled w); cbn [negb]; [done |].
      apply (step_bind flags_kept); [apply flags_kept_select_count |].
      intros [n |] _.
      * apply (step_bind flags_kept); [apply flags_kept_update | done].
      * apply (step_bind flags_kept); [apply flags_kept_insert | done].
    + intros n _. apply (step_bind flags_kept); [apply flags_kept_incrementLocal |].
      intros l _. apply (step_bind flags_kept); [apply flags_kept_set |].
      intros ? _. apply (step_bind flags_kept); [apply flags_kept_saveToHistory | done].
  - apply (step_bind flags_kept); [by apply flags_kept_frame |].
    intros ? _. apply flags_kept_incrementLocal.
Qed.

(** A loop whose every turn returns, keeps [I], and settles its own
    element for good. *)
Lemma for_of_establishes {A} (I : World → Prop) (P : A → World → Prop)
    (xs : list A) (body : A → M World unit) (w : World) :
  I w →
  (∀ x w', I w' → ∃ w'', body x w' = (Returned tt, w'') ∧ I w'' ∧ P x w'') →
  (∀ x y w', I w' → P x w' → P x (body y w').2) →
  ∃ w', for_of xs body w = (Returned tt, w') ∧ I w' ∧ ∀ x, x ∈ xs → P x w'.
Proof.
  intros Hw Hbody Hkeep. revert w Hw.
  induction xs as [| x xs IH]; intros w Hw; simpl.
  { exists w. split_and!; [done | done |]. intros x Hx. by apply elem_of_nil in Hx. }
  unfold bind. destruct (Hbody x w Hw) as (w1 & -> & Hw1 & Hx1).
  assert (Hrest : ∀ ys w2, I w2 → P x w2 →
            ∀ w3, for_of ys body w2 = (Returned tt, w3) → P x w3).
  { induction ys as [| y ys IHys]; intros w2 Hw2 Hx2 w3; simpl.
    - by intros [= <-].
    - unfold bind. destruct (Hbody y w2 Hw2) as (w2' & E & Hw2' & _).
      pose proof (Hkeep x y w2 Hw2 Hx2) as Hx2'. rewrite E in Hx2' |- *.
      by apply IHys. }
  destruct (IH w1 Hw1) as (w' & E & Hw' & Hall).
  exists w'. split_and!; [done | done |].
  intros y Hy. apply elem_of_cons in Hy as [-> | Hy]; [| by apply Hall].
  by apply (Hrest xs w1).
Qed.

(** X3: when the probe of [initialize] resolves, with or without an error,
    the engine ends initialized, in the local mode exactly when the probe
    answered with an error, and with an empty queue; if moreover no remote
    call of the drained increments throws, every counter that was queued has
    its per-tab-session flag set. *)
Theorem initialize_drains_queue (w : World) :
  net (calls w) ≠ Throw →
  ∃ w', initialize net w = (Returned tt, w') ∧
        initialized w' = true ∧
        pendingIncrements w' = [] ∧
        fallbackEnabled w' = match net (calls w) with Err => true | _ => false end ∧
        ((∀ k, net k ≠ Throw) →
         ∀ d o, (d, o) ∈ pendingIncrements w → counted w' d = true).
Proof.
  intros Hnet. unfold initialize, try_catch. unfold bind at 1.
  unfold probe, bind at 1, call.
  set (w0 := set_calls (S (calls w)) w).
  assert (Hloop : ∀ b, ∃ w',
    (do w1 <- get;
     if decide (0 < length (pendingIncrements w1))%nat
     then for_of (pendingIncrements w1)
            (λ increment, incrementCounter net increment.1 increment.2;; ret tt);;
          modify (set_pendingIncrements (λ _, []))
     else ret tt)
      (set_initialized true (set_fallbackEnabled b w0)) = (Returned tt, w')
    ∧ initialized w' = true
    ∧ pendingIncrements w' = [] ∧ fallbackEnabled w' = b
    ∧ ((∀ k, net k ≠ Throw) →
       ∀ d o, (d, o) ∈ pendingIncrements w → counted w' d = true)).
  { intros b. unfold bind at 1, get at 1.
    set (w1 := set_initialized true (set_fallbackEnabled b w0)).
    destruct (decide _) as [Hlen | Hlen].
    - unfold bind at 1.
      destruct (for_of_returns
                  (λ w', initialized w' = true ∧ fallbackEnabled w' = b)
                  (pendingIncrements w1)
                  (λ increment, incrementCounter net increment.1 increment.2;; ret tt)
                  w1) as (w2 & E2 & Hi2 & Hf2); [done | |].
      { intros [d o] w' [Hi Hf]. simpl. unfold bind.
        destruct (incrementCounter_returns net d o w') as [v Hv].
        destruct (incrementCounter_mode net d o w') as [Hi' Hf'].
        destruct (incrementCounter net d o w') as [r w'']. simpl in *. subst r.
        eexists. split; [reflexivity |]. split; congruence. }
      rewrite E2. eexists. split_and!; [reflexivity | done | done | done |].
      intros Hall d o Hin.
      destruct (for_of_establishes
                  (λ w', initialized w' = true)
                  (λ (x : string * Obj) w', counted w' x.1 = true)
                  (pendingIncrements w1)
                  (λ increment, incrementCounter net increment.1 increment.2;; ret tt)
                  w1) as (w3 & E3 & _ & Hflags); [done | | |].
      { intros [d' o'] w' Hi. simpl. unfold bind.
        destruct (incrementCounter_sets_flag net d' o' w' Hi Hall)
          as (v & w'' & -> & Hi'' & Hc''). by eexists. }
      { intros [d1 o1] [d2 o2] w' _ Hc. simpl in *. unfold bind.
        pose proof (flags_kept_incrementCounter d2 o2 w' d1 Hc) as Hk.
        by destruct (incrementCounter net d2 o2 w') as [[v |] w'']. }
      rewrite E3 in E2. injection E2 as <-.
      by apply (Hflags (d, o)).
    - exists w1. split_and!; try done.
      + destruct (pendingIncrements w1); [done | simpl in Hlen; lia].
      + intros _ d o Hin. change (pendingIncrements w1) with (pendingIncrements w) in Hlen.
        destruct (pendingIncrements w); [by apply elem_of_nil in Hin | simpl in Hlen; lia]. }
  destruct (net (calls w)) eqn:E; [| | done].
  - unfold ret at 1, bind at 1, modify at 1. unfold bind at 1, modify at 1.
    destruct (Hloop false) as (w' & -> & ? & ? & ? & ?). by eexists.
  - unfold ret at 1, bind at 1, modify at 1. unfold bind at 1, modify at 1.
    destruct (Hloop true) as (w' & -> & ? & ? & ? & ?). by eexists.
Qed.
End Flags.

(** Two visits queued before [initialize]; the remote store answers the
    probe with an error. *)
Definition two_queued : World :=
  (incrementCounter (always Ok) "shop" ∅
     (incrementCounter (always Ok) "home" ∅ (browser ∅ ∅ ∅)).2).2.

Lemma initialize_drains_queue_witness :
  ∃ w', initialize (always Err) two_queued = (Returned tt, w') ∧
        initialized w' = true ∧
        pendingIncrements w' = [] ∧
        fallbackEnabled w'
          = match always Err (calls two_queued) with Err => true | _ => false end ∧
        ((∀ k, always Err k ≠ Throw) →
         ∀ d o, (d, o) ∈ pendingIncrements two_queued → counted w' d = true).
Proof.
  refine (initialize_drains_queue (always Err) two_queued _). discriminate.
Defined.

(** *** What [syncWithDatabase] reaches *)

Lemma startsWith_split (p s : string) :
  Str.startsWith p s = true → s = p +:+ Str.drop (String.length p) s.
Proof.
  revert s. induction p as [| a p IH]; intros [| b s]; simpl; try done.
  intros H. apply andb_prop in H as [Hab Hps].
  apply bool_decide_eq_true_1 in Hab as ->.
  rewrite string_app_cons. f_equal. by apply IH.
Qed.

(** Only the key [prefix + counterId] names the counter [counterId]. *)
Lemma counterId_of_key (key counterId : string) :
  Str.startsWith localStoragePrefix key = true →
  Str.remove_first localStoragePrefix key = counterId →
  key = localStoragePrefix +:+ counterId.
Proof.
  intros Hpre Hid. rewrite (startsWith_split _ _ Hpre) in Hid |- *.
  rewrite Str.remove_first_app in Hid. by rewrite Hid.
Qed.

(** The test by which the loop of [syncWithDatabase] passes over a key. *)
Definition passed_over (key : string) : bool :=
  Str.includes "_history" key || Str.includes "_details" key
    || Str.includes "click_" key.

Section SyncFacts.
Context `{!JSON Obj, !JSON (list Obj)}.
Variable net : Oracle.

Lemma counterKeys_elem (w : World) (key text : string) :
  localStorage w !! key = Some text →
  Str.startsWith localStoragePrefix key = true →
  key ∈ filter (λ key, Str.startsWith localStoragePrefix key = true)
         (map_to_list (localStorage w)).*1.
Proof.
  intros Hkey Hpre. apply list_elem_of_filter. split; [done |].
  apply list_elem_of_fmap. exists (key, text). split; [done |].
  by apply elem_of_map_to_list.
Qed.

(** X4: after a run of [syncWithDatabase] that the remote store answered
    throughout, the remote row of every counter mirrored locally under a
    key the loop does not pass over counts at least as much as the local
    mirror; the run returns true and leaves the local store as it was. *)
Theorem sync_pushes_local_counts (w : World) (counterId text : string) (n : Z) :
  fallbackEnabled w = false →
  (∀ k, net k = Ok) →
  localStorage w !! (localStoragePrefix +:+ counterId) = Some text →
  JS.parseInt text = Some n →
  passed_over (localStoragePrefix +:+ counterId) = false →
  ∃ w' r, syncWithDatabase net w = (Returned true, w') ∧
          page_counters w' !! counterId = Some r ∧ n ≤ count r ∧
          localStorage w' = localStorage w.
Proof.
  intros Hf Hnet Hkey Hparse Hpass.
  unfold syncWithDatabase. unfold bind at 1, get at 1. rewrite Hf.
  unfold try_catch, bind at 1, get at 1. unfold bind at 1.
  destruct (sync_loop_settles net
              (filter (λ key, Str.startsWith localStoragePrefix key = true)
                 (map_to_list (localStorage w)).*1) w Hnet)
    as (w1 & -> & Hl & _ & Hall).
  rewrite Forall_forall in Hall.
  destruct (Hall (localStoragePrefix +:+ counterId)) as [Hskip | Hsettled].
  { eapply counterKeys_elem; [done | apply Str.startsWith_app]. }
  { unfold passed_over in Hpass. congruence. }
  rewrite Hl, Hkey in Hsettled.
  change (JS.parseInt_item (Some text)) with (JS.parseInt text) in Hsettled.
  rewrite Hparse in Hsettled.
  destruct Hsettled as (r & Hr & Hle). rewrite Str.remove_first_app in Hr.
  by exists w1, r.
Qed.

Definition row_kept (counterId : string) (w w' : World) : Prop :=
  page_counters w' !! counterId = page_counters w !! counterId.

#[local] Instance row_kept_preorder (counterId : string) :
  PreOrder (row_kept counterId).
Proof.
  split; [by intros w | intros w1 w2 w3 H12 H23]. unfold row_kept in *. congruence.
Qed.

Lemma row_kept_syncKey (counterId key : string) (w : World) :
  key ≠ localStoragePrefix +:+ counterId ∨ passed_over key = true →
  Str.startsWith localStoragePrefix key = true →
  row_kept counterId w (syncKey net key w).2.
Proof.
  intros Hkey Hpre. unfold syncKey.
  fold (passed_over key). destruct (passed_over key) eqn:Hpass; [done |].
  destruct Hkey as [Hkey | ?]; [| done].
  assert (Hid : Str.remove_first localStoragePrefix key ≠ counterId).
  { intros Hid. by apply Hkey, counterId_of_key. }
  unfold bind at 1, get at 1.
  destruct (JS.parseInt_item _) as [n |]; [| done].
  unfold bind at 1. rewrite select_count_eq.
  destruct (net (calls w)); [| | done].
  - destruct (page_counters w !! _) as [r |] eqn:Hr; simpl.
    + destruct (n >? count r); [| done].
      rewrite update_eq. simpl.
      destruct (net (S (calls w))); [| done ..].
      unfold row_kept. simpl. by rewrite lookup_alter_ne.
    + rewrite insert_eq. simpl.
      destruct (net (S (calls w))); [| done ..].
      unfold row_kept. simpl. rewrite Hr. by rewrite lookup_insert_ne.
  - rewrite insert_eq. simpl.
    destruct (net (S (calls w))); [| done ..].
    unfold row_kept. simpl.
    destruct (page_counters w !! _); [done |]. by rewrite lookup_insert_ne.
Qed.

(** X5: the loop of [syncWithDatabase] passes over every key that contains
    [_history], [_details] or [click_], so a counter whose key does, such as
    the counters named "history" or "details_page", is never pushed: its
    remote row is the same after the run as before, however the remote
    store answers. *)
Theorem sync_never_pushes_passed_over_keys (w : World) (counterId : string) :
  passed_over (localStoragePrefix +:+ counterId) = true →
  page_counters (syncWithDatabase net w).2 !! counterId
    = page_counters w !! counterId.
Proof.
  intros Hpass. change (row_kept counterId w (syncWithDatabase net w).2).
  unfold syncWithDatabase.
  apply (step_bind (row_kept counterId)); [done |]. simpl. intros ? [= <-].
  destruct (fallbackEnabled w); [done |].
  apply (step_try_catch (row_kept counterId)); [| done].
  apply (step_bind (row_kept counterId)); [done |]. simpl. intros ? [= <-].
  apply (step_bind (row_kept counterId)); [| done].
  apply (step_for_of (row_kept counterId)). intros key w' Hkey.
  apply list_elem_of_filter in Hkey as [Hpre _].
  apply row_kept_syncKey; [| done].
  destruct (decide (key = localStoragePrefix +:+ counterId)) as [-> | Hne]; auto.
Qed.

(** The browser side of the world and the engine's own fields. *)
Definition browser_kept (w w' : World) : Prop :=
  localStorage w' = localStorage w ∧ sessionStorage w' = sessionStorage w ∧
  fallbackEnabled w' = fallbackEnabled w ∧ initialized w' = initialized w ∧
  pendingIncrements w' = pendingIncrements w.

#[local] Instance browser_kept_preorder : PreOrder browser_kept.
Proof.
  split; [by intros w |].
  intros w1 w2 w3 (? & ? & ? & ? & ?) (? & ? & ? & ? & ?).
  unfold browser_kept. split_and!; congruence.
Qed.

Lemma browser_kept_syncKey (key : string) (w : World) :
  browser_kept w (syncKey net key w).2.
Proof.
  unfold syncKey. destruct (_ || _); [done |].
  unfold bind at 1, get at 1.
  destruct (JS.parseInt_item _) as [n |]; [| done].
  unfold bind at 1. rewrite select_count_eq.
  destruct (net (calls w)); [| | done].
  - destruct (page_counters w !! _) as [r |]; simpl.
    + destruct (n >? count r); [| done].
      rewrite update_eq. simpl. by destruct (net (S (calls w))).
    + rewrite insert_eq. simpl. by destruct (net (S (calls w))).
  - rewrite insert_eq. simpl. by destruct (net (S (calls w))).
Qed.

(** X6: [syncWithDatabase] only ever writes to the remote table: it always
    returns, and the local store, the session store and the engine's fields
    ([fallbackEnabled], [initialized] and the queue of pending increments)
    are the same afterwards; in the local mode it returns false without a
    single remote call. *)
Theorem sync_writes_remote_only (w : World) :
  (∃ b, (syncWithDatabase net w).1 = Returned b) ∧
  localStorage (syncWithDatabase net w).2 = localStorage w ∧
  sessionStorage (syncWithDatabase net w).2 = sessionStorage w ∧
  fallbackEnabled (syncWithDatabase net w).2 = fallbackEnabled w ∧
  initialized (syncWithDatabase net w).2 = initialized w ∧
  pendingIncrements (syncWithDatabase net w).2 = pendingIncrements w ∧
  (fallbackEnabled w = true → syncWithDatabase net w = (Returned false, w)).
Proof.
  assert (Hkept : browser_kept w (syncWithDatabase net w).2).
  { unfold syncWithDatabase.
    apply (step_bind browser_kept); [done |]. simpl. intros ? [= <-].
    destruct (fallbackEnabled w); [done |].
    apply (step_try_catch browser_kept); [| done].
    apply (step_bind browser_kept); [done |]. simpl. intros ? [= <-].
    apply (step_bind browser_kept); [| done].
    apply (step_for_of browser_kept). intros key w' _. apply browser_kept_syncKey. }
  destruct Hkept as (Hl & Hs & Hf & Hi & Hp).
  split_and!; [| done | done | done | done | done |].
  - unfold syncWithDatabase. unfold bind at 1, get at 1.
    destruct (fallbackEnabled w); [by eexists |].
    unfold try_catch.
    match goal with |- context [let (_, _) := ?m in _] => destruct m as [[v |] w'] end;
      by eexists.
  - intros Hlocal. unfold syncWithDatabase. unfold bind at 1, get at 1.
    by rewrite Hlocal.
Qed.
End SyncFacts.

Definition pages : World :=
  connected {[ "fresko_counter_home" := "12"; "fresko_counter_history" := "7" ]}
    ∅ {[ "home" := row 10; "history" := row 2 ]}.

Lemma sync_pushes_local_counts_witness :
  ∃ w' r, syncWithDatabase (always Ok) pages = (Returned true, w') ∧
          page_counters w' !! "home" = Some r ∧ 12 ≤ count r ∧
          localStorage w' = localStorage pages.
Proof.
  refine (sync_pushes_local_counts (always Ok) pages "home" "12" 12 _ _ _ _ _);
    vm_compute; reflexivity.
Defined.

Lemma sync_never_pushes_passed_over_keys_witness :
  page_counters (syncWithDatabase (always Ok) pages).2 !! "history"
    = page_counters pages !! "history".
Proof.
  refine (sync_never_pushes_passed_over_keys (always Ok) pages "history" _).
  vm_compute. reflexivity.
Defined.

Definition offline : World :=
  (initialize (always Err) (browser {[ "fresko_counter_home" := "12" ]} ∅ ∅)).2.

Lemma sync_writes_remote_only_witness :
  syncWithDatabase (always Ok) offline = (Returned false, offline).
Proof.
  refine (proj2 (proj2 (proj2 (proj2 (proj2 (proj2
            (sync_writes_remote_only (always Ok) offline)))))) _).
  vm_compute. reflexivity.
Defined.

(** *** Reading and counting *)

Section Reading.
Context `{!JSON Obj, !JSON (list Obj)}.
Variable net : Oracle.

(** X7: [getCounterValue] always returns, never less than the local mirror
    and never more than the larger of the mirror and the remote count; it
    writes to no store and sends no write; an engine that is not
    remote-backed makes no remote call at all. *)
Theorem getCounterValue_bounds (counterId : string) (w : World) :
  ∃ v w', getCounterValue net counterId w = (Returned v, w') ∧
          localCount w counterId ≤ v ∧ v ≤ reconciled w counterId ∧
          localStorage w' = localStorage w ∧
          sessionStorage w' = sessionStorage w ∧
          page_counters w' = page_counters w ∧
          requests w' = requests w ∧
          (remoteBacked w = false → w' = w).
Proof.
  rewrite getCounterValue_eq.
  assert (localCount w counterId ≤ reconciled w counterId).
  { unfold reconciled. destruct (page_counters w !! counterId); lia. }
  destruct (remoteBacked w); [destruct (net (calls w)) |];
    eexists _, _; (split; [reflexivity |]); split_and!; try done; lia.
Qed.

(** X8: on a remote-backed engine whose remote store answers every call,
    and while the local mirror and the remote count of the counter are safe
    integers, [incrementCounter] returns the reconciled value that it
    leaves behind: the maximum of the remote count and the local mirror
    after the call. *)
Theorem incrementCounter_returns_reconciled (counterId : string) (options : Obj)
    (w : World) :
  JS.isSafeInteger (localCount w counterId) →
  (∀ r, page_counters w !! counterId = Some r → JS.isSafeInteger (count r)) →
  remoteBacked w = true →
  (∀ k, net k = Ok) →
  ∃ w', incrementCounter net counterId options w
          = (Returned (reconciled w' counterId), w') ∧
        reconciled w counterId ≤ reconciled w' counterId.
Proof.
  intros _ _ Hrb Hnet.
  assert (Hmode : fallbackEnabled w = false ∧ initialized w = true).
  { unfold remoteBacked in Hrb. destruct (fallbackEnabled w), (initialized w); done. }
  destruct Hmode as [Hf Hinit].
  destruct (counted w counterId) eqn:Hflag.
  { rewrite incrementCounter_counted_eq, getCounterValue_eq, Hrb, Hnet by done.
    exists (tick w). split; [done |]. change (reconciled (tick w) counterId)
      with (reconciled w counterId). lia. }
  destruct (own_keys_differ counterId) as [Hdet Hhist].
  unfold incrementCounter, counted in *.
  unfold bind at 1, get at 1. rewrite Hinit. cbn [negb].
  unfold try_catch. unfold bind at 1, get at 1. rewrite Hflag.
  unfold bind at 1. rewrite Hf. cbn [negb].
  assert (Hremote : ∃ n w1,
    (do data <- select_count net counterId;
     match data with
     | Some c0 => update net counterId (c0 + 1) (Some (date w));; ret (c0 + 1)
     | None =>
         insert net counterId
           {| page_name := or_string (options !! "pageName") counterId;
              count := 1; last_updated := Some (date w) |};; ret 1
     end) w = (Returned n, w1)
    ∧ localStorage w1 = localStorage w
    ∧ (∃ r, page_counters w1 !! counterId = Some r ∧ count r = n)
    ∧ match page_counters w !! counterId with
      | Some r0 => count r0 ≤ n
      | None => True
      end).
  { unfold bind at 1. rewrite select_count_eq, Hnet.
    destruct (page_counters w !! counterId) as [r |] eqn:Hr; simpl.
    - unfold bind at 1. rewrite update_eq. simpl. rewrite Hnet.
      eexists _, _. split; [reflexivity |]. simpl. split_and!; [done | | lia].
      rewrite lookup_alter_eq, Hr. simpl. by eexists.
    - unfold bind at 1. rewrite insert_eq. simpl. rewrite Hnet.
      eexists _, _. split; [reflexivity |]. simpl. split_and!; [done | | done].
      rewrite Hr, lookup_insert_eq. by eexists. }
  destruct Hremote as (n & w1 & -> & Hl1 & (r & Hr1 & Hn) & Hle).
  unfold bind at 1. rewrite incrementLocal_eq.
  unfold bind at 1, modify at 1. unfold bind at 1.
  assert (Hlocal1 : localCount w1 counterId = localCount w counterId)
    by (unfold localCount; by rewrite Hl1).
  assert (Hfinal : ∀ w4,
    page_counters w4 = page_counters w1 →
    localStorage w4 !! (localStoragePrefix +:+ counterId)
      = Some (JS.toString (localCount w1 counterId + 1)) →
    reconciled w4 counterId = n `max` (localCount w1 counterId + 1) ∧
    reconciled w counterId ≤ reconciled w4 counterId).
  { intros w4 Hp4 Hl4.
    assert (E : reconciled w4 counterId = n `max` (localCount w1 counterId + 1)).
    { unfold reconciled, localCount at 1. rewrite Hp4, Hr1, Hl4. simpl.
      by rewrite parseInt_toString, Hn. }
    split; [done |]. rewrite E. unfold reconciled.
    destruct (page_counters w !! counterId); lia. }
  match goal with
  | |- context [saveToHistory counterId options ?w3] =>
      destruct (saveToHistory_eq counterId options w3) as [-> | [text ->]]
  end.
  - unfold ret. set (w4 := set_sessionStorage _ _).
    destruct (Hfinal w4) as [E Hge]; [reflexivity | |].
    { subst w4. simpl. rewrite lookup_insert_ne by done. apply lookup_insert_eq. }
    exists w4. rewrite E in Hge |- *. by split.
  - unfold ret. set (w4 := set_localStorage _ (set_sessionStorage _ _)).
    destruct (Hfinal w4) as [E Hge]; [reflexivity | |].
    { subst w4. simpl. rewrite !lookup_insert_ne by done. apply lookup_insert_eq. }
    exists w4. rewrite E in Hge |- *. by split.
Qed.
End Reading.

Lemma incrementCounter_returns_reconciled_witness :
  ∃ w', incrementCounter (always Ok) "home" ∅ drifted
          = (Returned (reconciled w' "home"), w') ∧
        reconciled drifted "home" ≤ reconciled w' "home".
Proof.
  refine (incrementCounter_returns_reconciled (always Ok) "home" ∅ drifted
            _ _ _ _).
  - vm_compute. split; discriminate.
  - assert (Ept : page_counters drifted = {[ "home" := row 10 ]}) by reflexivity.
    intros r Hr. rewrite Ept in Hr.
    apply lookup_singleton_Some in Hr as [_ <-]. vm_compute. split; discriminate.
  - vm_compute. reflexivity.
  - intros k. reflexivity.
Defined.

End CounterFacts.

(** ** counter-system.js: the click counters *)

Module ClickCounters.
Import CounterSystem.

(** A row of the remote table [click_counters]; [id] is its key. *)
Record ClickCounter : Type := {
  name : string;
  url : string;
  click_count : Z;
  last_click : string
}.

Record World : Type := {
  localStorage : gmap string string;
  date : string;             (* [new Date().toISOString()] *)
  userAgent : string;        (* [navigator.userAgent] *)
  click_counters : gmap string ClickCounter;
  calls : nat;
  fallbackEnabled : bool
}.

Definition set_localStorage (f : gmap string string → gmap string string)
    (w : World) : World :=
  {| localStorage := f (localStorage w); date := date w; userAgent := userAgent w;
     click_counters := click_counters w; calls := calls w;
     fallbackEnabled := fallbackEnabled w |}.

Definition set_click_counters
    (f : gmap string ClickCounter → gmap string ClickCounter) (w : World) : World :=
  {| localStorage := localStorage w; date := date w; userAgent := userAgent w;
     click_counters := f (click_counters w); calls := calls w;
     fallbackEnabled := fallbackEnabled w |}.

Definition tick (w : World) : World :=
  {| localStorage := localStorage w; date := date w; userAgent := userAgent w;
     click_counters := click_counters w; calls := S (calls w);
     fallbackEnabled := fallbackEnabled w |}.

(** [`${this.localStoragePrefix}click_${buttonId}`] *)
Definition clickKey (buttonId : string) : string :=
  localStoragePrefix +:+ "click_" +:+ buttonId.

(** [parseInt(localStorage.getItem(key)) || 0] at the click key. *)
Definition localClicks (w : World) (buttonId : string) : Z :=
  JS.or_zero (JS.parseInt_item (localStorage w !! clickKey buttonId)).

Section Methods.
Context `{!JSON Obj, !JSON (list Obj)}.
Variable net : Oracle.

Definition call : M World outcome :=
  λ w, (Returned (net (calls w)), tick w).

(** [.from('click_counters').select('click_count').eq('id', id).single()],
    read as [select_count] is for the page counters. *)
Definition select_click_count (id : string) : M World (option Z) :=
  do o <- call;
  match o with
  | Ok => do w <- get; ret (click_count <$> click_counters w !! id)
  | Err => ret None
  | Throw => throw
  end.

Definition insert (id : string) (row : ClickCounter) : M World unit :=
  do o <- call;
  match o with
  | Ok => modify (set_click_counters (λ t,
            match t !! id with
            | None => <[id := row]> t
            | Some _ => t
            end))
  | Err => ret tt
  | Throw => throw
  end.

Definition update (id : string) (c : Z) (lc : string) : M World unit :=
  do o <- call;
  match o with
  | Ok => modify (set_click_counters (alter (λ row,
            {| name := name row; url := url row; click_count := c;
               last_click := lc |}) id))
  | Err => ret tt
  | Throw => throw
  end.

Definition getClickCounter (buttonId : string) : M World Z :=
  do fromRemote <-
    try_catch
      (do w <- get;
       if negb (fallbackEnabled w) then
         do data <- select_click_count buttonId;
         match data with
         | Some c => do w <- get; ret (Some (Z.max c (localClicks w buttonId)))
         | None => ret None
         end
       else ret None)
      (ret None);
  match fromRemote with
  | Some v => ret v
  | None => do w <- get; ret (localClicks w buttonId)
  end.

(** [count++] is [count + 1] on a safe integer. *)
Definition incrementClickLocal (buttonId : string) : M World Z :=
  let key := clickKey buttonId in
  do w <- get;
  let count := JS.or_zero (JS.parseInt_item (localStorage w !! key)) + 1 in
  modify (set_localStorage <[key := JS.toString count]>);;
  ret count.

Definition incrementClickCounter (buttonId url buttonText : string)
    : M World Z :=
  try_catch
    (do w <- get;
     do newCount <-
       (if negb (fallbackEnabled w) then
          do data <- select_click_count buttonId;
          match data with
          | None =>
              insert buttonId
                {| name := or_string (Some buttonText) buttonId; url := url;
                   click_count := 1; last_click := date w |};;
              ret 1
          | Some c =>
              update buttonId (c + 1) (date w);;
              ret (c + 1)
          end
        else ret 1);
     let key := clickKey buttonId in
     do w1 <- get;
     let localCount := JS.or_zero (JS.parseInt_item (localStorage w1 !! key)) + 1 in
     modify (set_localStorage <[key := JS.toString localCount]>);;
     let newCount := Z.max newCount localCount in
     let clickDetails : Obj :=
       {[ "timestamp" := date w; "buttonId" := buttonId; "url" := url;
          "buttonText" := buttonText; "userAgent" := userAgent w ]} in
     let historyKey := clickKey buttonId +:+ "_history" in
     do w2 <- get;
     do history <-
       match localStorage w2 !! historyKey with
       | None => ret []
       | Some text =>
           match JSON_parse text with
           | Some h => ret h
           | None => throw
           end
       end;
     let history := (history ++ [clickDetails])%list in
     let history :=
       if decide (50 < length history)%nat then slice_last 50 history
       else history in
     modify (set_localStorage <[historyKey := JSON_stringify history]>);;
     ret newCount)
    (incrementClickLocal buttonId).
End Methods.

(** *** Every click counts *)

Lemma click_history_key_differs (buttonId : string) :
  clickKey buttonId +:+ "_history" ≠ clickKey buttonId.
Proof. apply Str.app_neq. Qed.

Section Facts.
Context `{!JSON Obj, !JSON (list Obj)}.
Variable net : Oracle.

Lemma incrementClickLocal_eq (buttonId : string) (w : World) :
  incrementClickLocal buttonId w =
  (Returned (localClicks w buttonId + 1),
   set_localStorage <[clickKey buttonId := JS.toString (localClicks w buttonId + 1)]> w).
Proof. reflexivity. Qed.

Lemma localClicks_stored (buttonId : string) (n : Z) (w : World) :
  localStorage w !! clickKey buttonId = Some (JS.toString n) →
  localClicks w buttonId = n.
Proof. intros E. unfold localClicks. rewrite E. simpl. by rewrite parseInt_toString. Qed.

Lemma select_click_count_eq (id : string) (w : World) :
  select_click_count net id w =
  match net (calls w) with
  | Ok => (Returned (click_count <$> click_counters w !! id), tick w)
  | Err => (Returned None, tick w)
  | Throw => (Thrown, tick w)
  end.
Proof. unfold select_click_count, bind, call. by destruct (net (calls w)). Qed.

Lemma insert_local (id : string) (row : ClickCounter) (w : World) :
  localStorage (insert net id row w).2 = localStorage w ∧
  (net (calls w) ≠ Throw → (insert net id row w).1 = Returned tt).
Proof. unfold insert, bind, call. by destruct (net (calls w)). Qed.

Lemma update_local (id : string) (c : Z) (lc : string) (w : World) :
  localStorage (update net id c lc w).2 = localStorage w ∧
  (net (calls w) ≠ Throw → (update net id c lc w).1 = Returned tt).
Proof. unfold update, bind, call. by destruct (net (calls w)). Qed.

(** The remote part of [incrementClickCounter] leaves the local store as
    it is, whether it returns or throws. *)
Lemma remote_part_local (buttonId url buttonText : string) (w : World) :
  ∃ r w1,
    (do data <- select_click_count net buttonId;
     match data with
     | None =>
         insert net buttonId
           {| name := or_string (Some buttonText) buttonId; url := url;
              click_count := 1; last_click := date w |};;
         ret 1
     | Some c =>
         update net buttonId (c + 1) (date w);;
         ret (c + 1)
     end) w = (r, w1) ∧
    localStorage w1 = localStorage w.
Proof.
  unfold bind at 1. rewrite select_click_count_eq.
  destruct (net (calls w)); [| | by eexists _, _].
  - destruct (click_counters w !! buttonId) as [c |]; cbn [fmap option_fmap option_map];
      unfold bind.
    + destruct (update_local buttonId (click_count c + 1) (date w) (tick w)) as [Hl _].
      destruct (update net buttonId (click_count c + 1) (date w) (tick w)) as [[[] |] w1];
        by eexists _, _.
    + match goal with
      | |- context [insert net buttonId ?row (tick w)] =>
          destruct (insert_local buttonId row (tick w)) as [Hl _];
          destruct (insert net buttonId row (tick w)) as [[[] |] w1]
      end; by eexists _, _.
  - unfold bind.
    match goal with
    | |- context [insert net buttonId ?row (tick w)] =>
        destruct (insert_local buttonId row (tick w)) as [Hl _];
        destruct (insert net buttonId row (tick w)) as [[[] |] w1]
    end; by eexists _, _.
Qed.

(** X9: [incrementClickCounter] has no per-session gate: whatever the
    remote store does, a call made while the stored click history is
    missing or parses, and while the local and the remote click count of
    the button are safe integers, raises the local click count by exactly
    one, and returns at least that count. *)
Theorem incrementClickCounter_counts_every_click
    (buttonId url buttonText : string) (w : World) :
  JS.isSafeInteger (localClicks w buttonId) →
  (∀ r, click_counters w !! buttonId = Some r → JS.isSafeInteger (click_count r)) →
  (localStorage w !! (clickKey buttonId +:+ "_history") = None ∨
   ∃ text (h : list Obj),
     localStorage w !! (clickKey buttonId +:+ "_history") = Some text ∧
     JSON_parse text = Some h) →
  ∃ v w', incrementClickCounter net buttonId url buttonText w = (Returned v, w') ∧
          localClicks w' buttonId = localClicks w buttonId + 1 ∧
          localClicks w' buttonId ≤ v.
Proof.
  intros _ _ Hhist. pose proof (click_history_key_differs buttonId) as Hne.
  unfold incrementClickCounter, try_catch. unfold bind at 1, get at 1.
  unfold bind at 1.
  assert (Hremote : ∃ r w1,
    (if negb (fallbackEnabled w)
     then do data <- select_click_count net buttonId;
          match data with
          | None =>
              insert net buttonId
                {| name := or_string (Some buttonText) buttonId; url := url;
                   click_count := 1; last_click := date w |};;
              ret 1
          | Some c =>
              update net buttonId (c + 1) (date w);;
              ret (c + 1)
          end
     else ret 1) w = (r, w1) ∧ localStorage w1 = localStorage w).
  { destruct (fallbackEnabled w); cbn [negb]; [by eexists _, _ |].
    apply remote_part_local. }
  destruct Hremote as (r & w1 & -> & Hl1).
  assert (Hc1 : localClicks w1 buttonId = localClicks w buttonId)
    by (unfold localClicks; by rewrite Hl1).
  destruct r as [n |].
  2:{ rewrite incrementClickLocal_eq. eexists _, _. split; [reflexivity |].
      rewrite (localClicks_stored buttonId (localClicks w1 buttonId + 1))
        by apply lookup_insert_eq. lia. }
  unfold bind at 1, get at 1. unfold bind at 1, modify at 1.
  unfold bind at 1, get at 1. cbn [localStorage set_localStorage].
  rewrite lookup_insert_ne by done. rewrite Hl1.
  assert (Hdone : ∀ text,
    localClicks
      (set_localStorage <[clickKey buttonId +:+ "_history" := text]>
         (set_localStorage
            <[clickKey buttonId := JS.toString
                (JS.or_zero (JS.parseInt_item (localStorage w !! clickKey buttonId)) + 1)]>
            w1)) buttonId = localClicks w buttonId + 1).
  { intros text. apply localClicks_stored. simpl.
    rewrite lookup_insert_ne by done. by rewrite lookup_insert_eq. }
  destruct Hhist as [-> | (text & h & -> & ->)];
    unfold bind, ret, modify; eexists _, _; (split; [reflexivity |]);
    rewrite Hdone; fold (localClicks w buttonId); lia.
Qed.

(** X10: when the stored click history is text that does not parse and no
    remote call throws, the click is counted twice locally: the count is
    raised once before the history is read, and once more by the handler
    that the failed parse runs.  The counts are safe integers: the local
    one also after the first of the two increments, and the remote one. *)
Theorem incrementClickCounter_counts_twice_on_corrupt_history
    (buttonId url buttonText text : string) (w : World) :
  JS.isSafeInteger (localClicks w buttonId) →
  JS.isSafeInteger (localClicks w buttonId + 1) →
  (∀ r, click_counters w !! buttonId = Some r → JS.isSafeInteger (click_count r)) →
  localStorage w !! (clickKey buttonId +:+ "_history") = Some text →
  JSON_parse (A := list Obj) text = None →
  (∀ k, net k ≠ Throw) →
  ∃ w', incrementClickCounter net buttonId url buttonText w
          = (Returned (localClicks w buttonId + 2), w') ∧
        localClicks w' buttonId = localClicks w buttonId + 2.
Proof.
  intros _ _ _ Htext Hparse Hnet.
  pose proof (click_history_key_differs buttonId) as Hne.
  unfold incrementClickCounter, try_catch. unfold bind at 1, get at 1.
  unfold bind at 1.
  assert (Hremote : ∃ n w1,
    (if negb (fallbackEnabled w)
     then do data <- select_click_count net buttonId;
          match data with
          | None =>
              insert net buttonId
                {| name := or_string (Some buttonText) buttonId; url := url;
                   click_count := 1; last_click := date w |};;
              ret 1
          | Some c =>
              update net buttonId (c + 1) (date w);;
              ret (c + 1)
          end
     else ret 1) w = (Returned n, w1) ∧ localStorage w1 = localStorage w).
  { destruct (fallbackEnabled w); cbn [negb]; [by eexists _, _ |].
    pose proof (Hnet (calls w)). pose proof (Hnet (S (calls w))).
    unfold bind at 1. rewrite select_click_count_eq.
    destruct (net (calls w)); [| | done].
    - destruct (click_counters w !! buttonId) as [c |];
        cbn [fmap option_fmap option_map]; unfold bind.
      + destruct (update_local buttonId (click_count c + 1) (date w) (tick w)) as [Hl Hr].
        destruct (update net buttonId (click_count c + 1) (date w) (tick w)) as [[[] |] w1];
          [by eexists _, _ | by specialize (Hr (Hnet _))].
      + match goal with
        | |- context [insert net buttonId ?row (tick w)] =>
            destruct (insert_local buttonId row (tick w)) as [Hl Hr];
            destruct (insert net buttonId row (tick w)) as [[[] |] w1]
        end; [by eexists _, _ | by specialize (Hr (Hnet _))].
    - unfold bind.
      match goal with
      | |- context [insert net buttonId ?row (tick w)] =>
          destruct (insert_local buttonId row (tick w)) as [Hl Hr];
          destruct (insert net buttonId row (tick w)) as [[[] |] w1]
      end; [by eexists _, _ | by specialize (Hr (Hnet _))]. }
  destruct Hremote as (n & w1 & -> & Hl1).
  unfold bind at 1, get at 1. unfold bind at 1, modify at 1.
  unfold bind at 1, get at 1. cbn [localStorage set_localStorage].
  rewrite lookup_insert_ne by done. rewrite Hl1, Htext, Hparse.
  unfold bind at 1, throw. rewrite incrementClickLocal_eq.
  set (w2 := set_localStorage _ w1).
  assert (Hc2 : localClicks w2 buttonId = localClicks w buttonId + 1).
  { apply localClicks_stored. subst w2. simpl. by rewrite lookup_insert_eq. }
  rewrite Hc2. eexists. split; [f_equal; f_equal; lia |].
  rewrite (localClicks_stored buttonId (localClicks w buttonId + 1 + 1))
    by apply lookup_insert_eq. lia.
Qed.
End Facts.

#[local] Existing Instance CounterSystem.Obj_JSON.
#[local] Existing Instance CounterSystem.history_JSON.

Definition page (ls : gmap string string) : World :=
  {| localStorage := ls; date := "2024-05-01T10:00:00.000Z";
     userAgent := "Mozilla/5.0"; click_counters := ∅; calls := 0;
     fallbackEnabled := false |}.

Lemma incrementClickCounter_counts_every_click_witness :
  ∃ v w', incrementClickCounter (always Throw) "buy" "/shop" "Buy"
            (page {[ "fresko_counter_click_buy" := "4" ]}) = (Returned v, w') ∧
          localClicks w' "buy"
            = localClicks (page {[ "fresko_counter_click_buy" := "4" ]}) "buy" + 1 ∧
          localClicks w' "buy" ≤ v.
Proof.
  refine (incrementClickCounter_counts_every_click (always Throw) "buy" "/shop" "Buy"
            (page {[ "fresko_counter_click_buy" := "4" ]}) _ _ _).
  - vm_compute. split; discriminate.
  - intros r Hr. vm_compute in Hr. discriminate.
  - left. vm_compute. reflexivity.
Defined.

Lemma incrementClickCounter_counts_twice_on_corrupt_history_witness :
  ∃ w', incrementClickCounter (always Ok) "buy" "/shop" "Buy"
          (page {[ "fresko_counter_click_buy" := "4";
                   "fresko_counter_click_buy_history" := "oops" ]})
          = (Returned
               (localClicks
                  (page {[ "fresko_counter_click_buy" := "4";
                           "fresko_counter_click_buy_history" := "oops" ]}) "buy" + 2),
             w') ∧
        localClicks w' "buy"
          = localClicks
              (page {[ "fresko_counter_click_buy" := "4";
                       "fresko_counter_click_buy_history" := "oops" ]}) "buy" + 2.
Proof.
  refine (incrementClickCounter_counts_twice_on_corrupt_history (always Ok)
            "buy" "/shop" "Buy" "oops"
            (page {[ "fresko_counter_click_buy" := "4";
                     "fresko_counter_click_buy_history" := "oops" ]}) _ _ _ _ _ _).
  - vm_compute. split; discriminate.
  - vm_compute. split; discriminate.
  - intros r Hr. vm_compute in Hr. discriminate.
  - vm_compute. reflexivity.
  - vm_compute. reflexivity.
  - intros k. discriminate.
Defined.

End ClickCounters.

(** ** counter-system.js: [formatNumber] *)

Module Format.

(** [\d] *)
Definition isDigit (a : ascii) : bool :=
  let n := N_of_ascii a in ((48 <=? n) && (n <=? 57))%N.

(** [\w]: a letter, a digit or the underscore. *)
Definition isWord (a : ascii) : bool :=
  let n := N_of_ascii a in
  ((48 <=? n) && (n <=? 57) || (65 <=? n) && (n <=? 90)
   || (97 <=? n) && (n <=? 122) || (n =? 95))%N.

(** The length of the run of digits that the string starts with. *)
Fixpoint digitRun (s : string) : nat :=
  match s with
  | String a t => if isDigit a then S (digitRun t) else 0%nat
  | EmptyString => 0%nat
  end.

(** [(?=(\d{3})+(?!\d))]: some positive multiple of three digits follows
    and no digit comes after them, that is, the run of digits ahead is a
    positive multiple of three long. *)
Definition lookahead (s : string) : bool :=
  negb (digitRun s =? 0)%nat && (digitRun s mod 3 =? 0)%nat.

(** [\B] between the character before, if any, and the string ahead: both
    sides are word characters or neither is. *)
Definition notBoundary (before : option ascii) (s : string) : bool :=
  let left := match before with Some a => isWord a | None => false end in
  let right := match s with String a _ => isWord a | EmptyString => false end in
  Bool.eqb left right.

(** [s.replace(/\B(?=(\d{3})+(?!\d))/g, ' ')]: the pattern matches no
    character, so every position of the string is tried once and a space is
    put where it matches. *)
Fixpoint group (before : option ascii) (s : string) : string :=
  let gap := if notBoundary before s && lookahead s then " " else "" in
  match s with
  | String a t => gap +:+ String a (group (Some a) t)
  | EmptyString => gap
  end.

(** [formatNumber(num)] for an integer [num]. *)
(** [Number.MAX_SAFE_INTEGER]: up to it a count is an exact integer and
    [toString] prints its decimal digits. *)
Definition MAX_SAFE_INTEGER : Z := 2 ^ 53 - 1.

Definition formatNumber (num : Z) : string := group None (JS.toString num).

(** *** Groups of three *)

(** The three digits of a number below 1000, zeros included. *)
Definition three_digits (m : N) : string :=
  String (pretty_N_char (m `div` 100))
    (String (pretty_N_char ((m `div` 10) `mod` 10))
       (String (pretty_N_char (m `mod` 10)) "")).

Definition all_digits (s : string) : Prop :=
  Forall (λ a, isDigit a = true) (list_ascii_of_string s).

Lemma isDigit_char (x : N) : (x < 10)%N → isDigit (pretty_N_char x) = true.
Proof.
  intros Hx.
  assert (x = 0 ∨ x = 1 ∨ x = 2 ∨ x = 3 ∨ x = 4 ∨ x = 5 ∨ x = 6 ∨ x = 7
          ∨ x = 8 ∨ x = 9)%N as Hc by lia.
  repeat (destruct Hc as [-> | Hc]; [reflexivity |]).
  subst; reflexivity.
Qed.

Lemma isDigit_isWord (a : ascii) : isDigit a = true → isWord a = true.
Proof. unfold isDigit, isWord. intros ->. done. Qed.

Lemma digitRun_all (s t : string) :
  all_digits s → digitRun (s +:+ t) = (String.length s + digitRun t)%nat.
Proof.
  unfold all_digits. induction s as [| a s IH]; [done |].
  rewrite string_app_cons. simpl. intros H. inversion H as [| ? ? Ha Hs]; subst.
  rewrite Ha. f_equal. by apply IH.
Qed.

(** Three digits at the end of a number take one space in front of them
    and leave the grouping of the digits before them as it was. *)
Lemma group_last_three (s : string) (d2 d1 d0 : ascii) :
  all_digits s → s ≠ "" →
  isDigit d2 = true → isDigit d1 = true → isDigit d0 = true →
  ∀ before,
    group before (s +:+ String d2 (String d1 (String d0 "")))
    = group before s +:+ " " +:+ String d2 (String d1 (String d0 "")).
Proof.
  intros Hs Hne H2 H1 H0.
  set (tail := String d2 (String d1 (String d0 ""))).
  assert (Htail : digitRun tail = 3%nat) by (simpl; by rewrite H2, H1, H0).
  induction s as [| a s IH]; [done |]. intros before.
  inversion Hs as [| ? ? Ha Hs']; subst.
  rewrite string_app_cons.
  assert (Hgap : notBoundary before (String a (s +:+ tail))
                   && lookahead (String a (s +:+ tail))
                 = notBoundary before (String a s) && lookahead (String a s)).
  { assert (R1 : digitRun (String a (s +:+ tail)) = (String.length (String a s) + 3)%nat)
      by (rewrite <- string_app_cons, (digitRun_all (String a s) tail Hs); by rewrite Htail).
    assert (R2 : digitRun (String a s) = String.length (String a s)).
    { rewrite <- (string_app_nil_r (String a s)) at 1.
      rewrite (digitRun_all (String a s) "" Hs). simpl. lia. }
    assert (Hla : lookahead (String a (s +:+ tail)) = lookahead (String a s)).
    { unfold lookahead. rewrite R1, R2.
      replace ((String.length (String a s) + 3) mod 3)%nat
        with (String.length (String a s) mod 3)%nat
        by (rewrite <- (Nat.Div0.add_mod_idemp_r _ 3); by rewrite Nat.add_0_r).
      f_equal; cbn [String.length]; by rewrite ?Nat.add_succ_l. }
    by rewrite Hla. }
  cbn [group]. rewrite Hgap.
  destruct s as [| b s].
  - rewrite string_app_nil_l. subst tail.
    assert (E : notBoundary (Some a) (String d2 (String d1 (String d0 "")))
                && lookahead (String d2 (String d1 (String d0 ""))) = true).
    { unfold notBoundary, lookahead. rewrite Htail. simpl.
      by rewrite (isDigit_isWord a Ha), (isDigit_isWord d2 H2). }
    assert (E1 : lookahead (String d1 (String d0 "")) = false)
      by (unfold lookahead; simpl; by rewrite H1, H0).
    assert (E0 : lookahead (String d0 "") = false)
      by (unfold lookahead; simpl; by rewrite H0).
    assert (Eend : lookahead "" = false) by done.
    cbn [group]. rewrite E, E1, E0, Eend, !andb_false_r.
    destruct (notBoundary before (String a "") && lookahead (String a ""));
      by rewrite ?string_app_cons, ?string_app_nil_l.
  - rewrite (IH Hs'); [| done].
    destruct (notBoundary before (String a (String b s))
              && lookahead (String a (String b s)));
      by rewrite ?string_app_cons, ?string_app_nil_l.
Qed.

(** A sign in front changes nothing behind it. *)
Lemma group_minus (a : ascii) (s : string) :
  isDigit a = true →
  group None (String "-" (String a s)) = String "-" (group None (String a s)).
Proof.
  intros Ha.
  assert (E' : notBoundary (Some "-"%char) (String a s) = notBoundary None (String a s)).
  { unfold notBoundary. by rewrite (isDigit_isWord a Ha). }
  assert (Hrest : group (Some "-"%char) (String a s) = group None (String a s)).
  { cbn [group]. by rewrite E'. }
  assert (E : lookahead (String "-" (String a s)) = false) by done.
  rewrite <- Hrest.
  change (group None (String "-" (String a s)))
    with ((if notBoundary None (String "-" (String a s))
              && lookahead (String "-" (String a s)) then " " else "")
          +:+ String "-" (group (Some "-"%char) (String a s))).
  by rewrite E, andb_false_r.
Qed.

(** How a number of four digits or more is printed. *)
Lemma pretty_three_digits (x : N) (s : string) :
  (1000 ≤ x)%N →
  pretty_N_go x s = pretty_N_go (x `div` 1000) (three_digits (x `mod` 1000) +:+ s).
Proof.
  intros Hx.
  assert (H10 : (0 < x `div` 10)%N) by (apply N.div_str_pos; lia).
  assert (H100 : (0 < (x `div` 10) `div` 10)%N).
  { apply N.div_str_pos. split; [lia |].
    apply N.div_le_lower_bound; lia. }
  rewrite (pretty_N_go_step x) by lia.
  rewrite (pretty_N_go_step (x `div` 10)) by done.
  rewrite (pretty_N_go_step ((x `div` 10) `div` 10)) by done.
  unfold three_digits. rewrite !string_app_cons, string_app_nil_l.
  assert (E1 : (((x `div` 10) `div` 10) `div` 10 = x `div` 1000)%N)
    by (rewrite !N.Div0.div_div; done).
  assert (E2 : (((x `div` 10) `div` 10) `mod` 10 = (x `mod` 1000) `div` 100)%N)
    by (zify; Z.to_euclidean_division_equations; lia).
  assert (E3 : ((x `div` 10) `mod` 10 = ((x `mod` 1000) `div` 10) `mod` 10)%N)
    by (zify; Z.to_euclidean_division_equations; lia).
  assert (E4 : (x `mod` 10 = (x `mod` 1000) `mod` 10)%N)
    by (zify; Z.to_euclidean_division_equations; lia).
  rewrite E1, E2, E3, E4. done.
Qed.

Lemma decimal_isDigit (a : ascii) : is_Some (JS.digit 10 a) → isDigit a = true.
Proof.
  intros [d Ha].
  destruct a as [[] [] [] [] [] [] [] []]; vm_compute in Ha |- *; congruence.
Qed.

Lemma all_decimal_digits (s : string) : all_decimal s → all_digits s.
Proof.
  unfold all_decimal, all_digits. intros H.
  eapply Forall_impl; [exact H | intros a; apply decimal_isDigit].
Qed.

Lemma toString_of_N (x : N) : JS.toString (Z.of_N x) = pretty x.
Proof. by destruct x. Qed.

Lemma formatNumber_small_check :
  forallb (λ k, bool_decide (formatNumber (Z.of_nat k) = JS.toString (Z.of_nat k)))
    (seq 0 1000) = true.
Proof. vm_compute. reflexivity. Qed.

(** X11: for a count that is a safe integer (so that [toString] prints
    its decimal digits), [formatNumber] leaves a number from 0 to 999 as
    [toString] prints it, and prints a number from 1000 on as the formatted
    thousands, a space, and the last three digits: the digits are grouped
    by three from the right. *)
Theorem formatNumber_groups_by_three (num : Z) :
  0 ≤ num ≤ MAX_SAFE_INTEGER →
  formatNumber num
  = if num <? 1000 then JS.toString num
    else formatNumber (num / 1000) +:+ " "
         +:+ three_digits (Z.to_N (num `mod` 1000)).
Proof.
  intros [Hnum _]. destruct (Z.ltb_spec num 1000) as [Hlt | Hge].
  - pose proof formatNumber_small_check as Hall.
    rewrite forallb_forall in Hall.
    specialize (Hall (Z.to_nat num)). rewrite Z2Nat.id in Hall by lia.
    eapply bool_decide_eq_true_1, Hall, in_seq. lia.
  - unfold formatNumber.
    set (x := Z.to_N num).
    assert (Hx : (1000 ≤ x)%N) by lia.
    assert (E : num = Z.of_N x) by lia.
    assert (Eq : num / 1000 = Z.of_N (x `div` 1000))
      by (rewrite E at 1; by rewrite N2Z.inj_div).
    assert (Er : Z.to_N (num `mod` 1000) = (x `mod` 1000)%N).
    { rewrite E. change 1000 with (Z.of_N 1000).
      rewrite <- (N2Z.inj_mod x 1000). by rewrite N2Z.id. }
    rewrite Eq, Er. rewrite E at 1. rewrite !toString_of_N.
    assert (Hq : (0 < x `div` 1000)%N) by (apply N.div_str_pos; lia).
    unfold pretty, pretty_N.
    rewrite !decide_False by lia.
    rewrite pretty_three_digits by done.
    destruct (pretty_go_digits (x `div` 1000) Hq)
      as (d & k & Hd & (a & t & ->) & Hall & _).
    rewrite !Hd, !string_app_nil_r.
    unfold three_digits.
    assert (Hm : (x `mod` 1000 < 1000)%N) by (apply N.mod_lt; lia).
    apply group_last_three; [by apply all_decimal_digits | done | ..];
      apply isDigit_char.
    + apply N.Div0.div_lt_upper_bound. lia.
    + apply N.mod_lt. lia.
    + apply N.mod_lt. lia.
Qed.

Lemma formatNumber_groups_by_three_witness :
  formatNumber 1234567
  = if 1234567 <? 1000 then JS.toString 1234567
    else formatNumber (1234567 / 1000) +:+ " "
         +:+ three_digits (Z.to_N (1234567 `mod` 1000)).
Proof.
  refine (formatNumber_groups_by_three 1234567 _). unfold MAX_SAFE_INTEGER. lia.
Defined.

(** X12: [formatNumber] prints a negative safe integer as the minus sign
    followed by the formatted absolute value. *)
Theorem formatNumber_negative (num : Z) :
  0 < num ≤ MAX_SAFE_INTEGER →
  formatNumber (- num) = "-" +:+ formatNumber num.
Proof.
  intros [Hnum _]. destruct num as [| p | p]; [lia | | lia].
  unfold formatNumber.
  change (JS.toString (- Z.pos p)) with ("-" +:+ pretty (N.pos p)).
  change (JS.toString (Z.pos p)) with (pretty (N.pos p)).
  destruct (pretty_pos_decimal p) as (a & t & -> & Hall & _).
  rewrite string_app_cons, string_app_nil_l.
  rewrite group_minus; [by rewrite string_app_cons, string_app_nil_l |].
  apply decimal_isDigit. by inversion Hall.
Qed.

Lemma formatNumber_negative_witness :
  formatNumber (- 1234567) = "-" +:+ formatNumber 1234567.
Proof.
  refine (formatNumber_negative 1234567 _). unfold MAX_SAFE_INTEGER. lia.
Defined.

End Format.

(** ** security.js, continued: the token check, logging out, the limiter
    over a whole window and the lifetime of a session *)

Module SecurityFacts.
Import SecuritySystem.

(** [token] is the string handed in by the caller. *)
Definition verifyCSRFToken (now : Z) (token : string) : M Browser bool :=
  try_catch
    (do b <- get;
     let storedToken := localStorage b !! "csrf_token" in
     let storedSessionToken := sessionStorage b !! "csrf_token" in
     let expires :=
       JS.parseInt
         (CounterSystem.or_string (localStorage b !! "csrf_token_expires") "0") in
     if negb (JS.truthy storedToken) || falsy expires || (now >? default 0 expires)
     then ret false
     else ret (bool_decide (Some token = storedToken)
               || bool_decide (Some token = storedSessionToken)))
    (ret false).

(** Calls of [checkRateLimit] for one action, one after the other, at the
    given clock readings. *)
Fixpoint checkRateLimit_each `{!JSON RateData} (times : list Z) (action : string)
    (limit interval : Z) : M Browser (list RateLimit) :=
  match times with
  | [] => ret []
  | now :: times' =>
      do r <- checkRateLimit now action limit interval;
      do rs <- checkRateLimit_each times' action limit interval;
      ret (r :: rs)
  end.

(** What a page does with a session once it exists: a call of
    [validateSession] or of [updateSessionActivity], with the clock
    readings of the call in the order they are taken. *)
Inductive Activity : Type :=
  | Validate (check activity test renewal : Z)
  | Touch (activity test renewal : Z).

Definition perform {UserData} `{!JSON (Session UserData)} (a : Activity)
    : M Browser unit :=
  match a with
  | Validate check activity test renewal =>
      validateSession_at (UserData := UserData) check activity test renewal;;
      ret tt
  | Touch activity test renewal =>
      updateSessionActivity_at (UserData := UserData) activity test renewal
  end.

(** Between the reading that a call compares with 80% of the duration and
    the one that it counts the new [expires] from, the clock advances by at
    most [tick]. *)
Definition renews_within (tick : Z) (a : Activity) : Prop :=
  match a with
  | Validate _ _ test renewal | Touch _ test renewal => renewal ≤ test + tick
  end.

(** The longest a session can last: it is renewed for the last time before
    80% of the duration has passed since it was created. *)
Definition longestLife : Z := renewalWindow + sessionDuration.

(** The stored session, if any, was created at [c] and ends before
    [c + longestLife + tick]. *)
Definition session_of {UserData} `{!JSON (Session UserData)} (c tick : Z)
    (b : Browser) : Prop :=
  match localStorage b !! "user_session" with
  | None => True
  | Some text =>
      ∃ s : Session UserData,
        text = JSON_stringify s ∧ created s = c ∧
        expires s < c + longestLife + tick
  end.

Lemma longestLife_eq : longestLife = 155520000.
Proof. reflexivity. Qed.

Lemma toString_nonempty (n : Z) : JS.toString n ≠ "".
Proof.
  destruct n as [| p | p]; [done | |].
  - change (JS.toString (Z.pos p)) with (pretty (N.pos p)).
    by destruct (pretty_pos_decimal p) as (a & t & -> & _).
  - done.
Qed.

Lemma verifyCSRFToken_eq (now : Z) (token : string) (b : Browser) :
  verifyCSRFToken now token b =
  (Returned
     (if negb (JS.truthy (localStorage b !! "csrf_token"))
         || falsy (JS.parseInt
                     (CounterSystem.or_string
                        (localStorage b !! "csrf_token_expires") "0"))
         || (now >? default 0
                      (JS.parseInt
                         (CounterSystem.or_string
                            (localStorage b !! "csrf_token_expires") "0")))
      then false
      else bool_decide (Some token = localStorage b !! "csrf_token")
           || bool_decide (Some token = sessionStorage b !! "csrf_token")), b).
Proof.
  unfold verifyCSRFToken, try_catch, bind, get, ret.
  by destruct (_ || _ || _).
Qed.

(** X13: after [generateCSRFToken] at a time [now], [verifyCSRFToken]
    accepts a string exactly when it is the generated token and the clock
    has not passed [now] plus one hour; the check changes nothing. *)
Theorem verifyCSRFToken_accepts_the_generated_token
    (now later : Z) (drawn token : string) (b : Browser) :
  drawn ≠ "" → 0 ≤ now →
  let b1 := (generateCSRFToken now drawn b).2 in
  verifyCSRFToken later token b1
  = (Returned (bool_decide (later ≤ now + 3600000) && bool_decide (token = drawn)),
     b1).
Proof.
  intros Hdrawn Hnow b1. rewrite verifyCSRFToken_eq. subst b1.
  unfold generateCSRFToken, try_catch, bind, modify, ret. cbn [fst snd].
  unfold set_localStorage, set_sessionStorage. cbn [localStorage sessionStorage].
  rewrite lookup_insert_ne by done. rewrite !lookup_insert_eq.
  assert (Etext : CounterSystem.or_string (Some (JS.toString (now + 3600000))) "0"
                  = JS.toString (now + 3600000)).
  { pose proof (toString_nonempty (now + 3600000)).
    unfold CounterSystem.or_string. by destruct (JS.toString _). }
  rewrite Etext, parseInt_toString.
  assert (Etruthy : JS.truthy (Some drawn) = true) by by destruct drawn.
  assert (Efalsy : falsy (Some (now + 3600000)) = false)
    by (destruct (now + 3600000) eqn:E; [lia | done ..]).
  rewrite Etruthy, Efalsy. cbn [negb orb default from_option Datatypes.id].
  f_equal. f_equal.
  destruct (Z.gtb_spec later (now + 3600000)) as [Hlate | Hintime].
  - by rewrite bool_decide_eq_false_2 by lia.
  - rewrite (bool_decide_eq_true_2 (later ≤ _)) by lia. cbn [andb].
    rewrite orb_diag. apply bool_decide_ext. split; [by intros [= ->] | by intros ->].
Qed.

Lemma verifyCSRFToken_accepts_the_generated_token_witness :
  let b1 := (generateCSRFToken 1700000000000 "Zx81Qa" empty_browser).2 in
  verifyCSRFToken 1700003600000 "Zx81Qa" b1
  = (Returned (bool_decide (1700003600000 ≤ 1700000000000 + 3600000)
               && bool_decide ("Zx81Qa" = "Zx81Qa")), b1).
Proof.
  refine (verifyCSRFToken_accepts_the_generated_token
            1700000000000 1700003600000 "Zx81Qa" "Zx81Qa" empty_browser _ _);
    [done | lia].
Defined.

Section Sessions.
Context {UserData : Type} `{!JSON RateData, !JSON (Session UserData)}.

Lemma destroySession_eq (b : Browser) :
  destroySession b =
  (Returned tt,
   {| localStorage :=
        delete "csrf_token_expires"
          (delete "csrf_token" (delete "user_session" (localStorage b)));
      sessionStorage :=
        filter (λ kv : string * string,
                  Str.startsWith "rate_limit_" kv.1 = false ∧
                  Str.startsWith "captcha_" kv.1 = false)
          (delete "csrf_token" (delete "session_id" (sessionStorage b))) |}).
Proof. reflexivity. Qed.

(** X14: after [destroySession], whatever the stores held, [validateSession]
    returns false and [verifyCSRFToken] refuses every string, at every
    time; neither call changes the stores. *)
Theorem destroySession_logs_out (b : Browser) (now : Z) (token : string) :
  let b' := (destroySession b).2 in
  validateSession (UserData := UserData) now b' = (Returned None, b') ∧
  verifyCSRFToken now token b' = (Returned false, b').
Proof.
  intros b'. subst b'. rewrite destroySession_eq. cbn [snd]. split.
  - rewrite validateSession_eq. rewrite item_None; [done |].
    cbn [localStorage]. by simplify_map_eq.
  - rewrite verifyCSRFToken_eq. cbn [localStorage].
    rewrite lookup_delete_ne by done. by rewrite lookup_delete_eq.
Qed.

(** X15: [destroySession] also forgets every rate-limit window: the next
    [checkRateLimit] for any action is allowed and opens a new window,
    however many calls were counted before. *)
Theorem destroySession_resets_rate_limits (b : Browser) (now : Z)
    (action : string) (limit interval : Z) :
  0 < limit → 0 ≤ interval →
  let b' := (destroySession b).2 in
  ∃ b'',
    checkRateLimit now action limit interval b'
    = (Returned {| allowed := true; remaining := limit - 1;
                   resetIn := interval; retryAfter := None |}, b'').
Proof.
  intros Hlimit Hinterval b'. subst b'. rewrite destroySession_eq. cbn [snd].
  eexists. apply checkRateLimit_fresh; [| done ..].
  apply item_None. cbn [sessionStorage].
  apply map_lookup_filter_None. right. intros v _ [Hrate _].
  cbn [fst] in Hrate. by rewrite Str.startsWith_app in Hrate.
Qed.

(** The renewal applied by [updateSessionActivity]. *)
Definition renew_at (activity test renewal : Z) (s : Session UserData)
    : Session UserData :=
  let s := set_lastActivity activity s in
  if test - created s <? renewalWindow
  then set_expires (renewal + sessionDuration) s
  else s.

Lemma updateSessionActivity_at_eq (activity test renewal : Z) (b : Browser)
    (text : string) (s : Session UserData) :
  item (localStorage b) "user_session" = Some text →
  JSON_parse text = Some s →
  updateSessionActivity_at activity test renewal b =
  (Returned tt,
   set_localStorage
     <["user_session" := JSON_stringify (renew_at activity test renewal s)]> b).
Proof.
  intros Hitem Hparse. unfold updateSessionActivity_at, try_catch.
  unfold bind at 1, get at 1. by rewrite Hitem, Hparse.
Qed.

Lemma validateSession_at_eq (check activity test renewal : Z) (b : Browser) :
  validateSession_at (UserData := UserData) check activity test renewal b =
  match item (localStorage b) "user_session" with
  | None => (Returned None, b)
  | Some text =>
      match JSON_parse text with
      | None => (Returned None, b)
      | Some s =>
          if check >? expires s then (Returned None, (destroySession b).2)
          else if decide (sessionStorage b !! "session_id" = Some (id s))
          then (Returned (Some (user s)),
                (updateSessionActivity_at (UserData := UserData)
                   activity test renewal b).2)
          else (Returned None, (destroySession b).2)
      end
  end.
Proof.
  unfold validateSession_at, try_catch, bind, get.
  destruct (item (localStorage b) "user_session") as [text |] eqn:Hitem;
    [| reflexivity].
  destruct (JSON_parse text) as [s |] eqn:Hparse; [| reflexivity].
  destruct (check >? expires s).
  { by rewrite destroySession_eq. }
  destruct (decide _).
  - by rewrite (updateSessionActivity_at_eq activity test renewal b text s
                  Hitem Hparse).
  - by rewrite destroySession_eq.
Qed.

Lemma session_of_item (c tick : Z) (b : Browser) (text : string) :
  session_of (UserData := UserData) c tick b →
  item (localStorage b) "user_session" = Some text →
  ∃ s : Session UserData,
    JSON_parse text = Some s ∧ created s = c ∧
    expires s < c + longestLife + tick.
Proof.
  unfold session_of, item. intros Hof Hitem.
  destruct (localStorage b !! "user_session") as [text' |]; [| done].
  destruct Hof as (s & -> & Hc & He).
  assert (text = JSON_stringify s) as -> by (by destruct (JSON_stringify s); simplify_eq).
  exists s. by rewrite JSON_parse_stringify.
Qed.

Lemma session_of_renew (c tick activity test renewal : Z) (b : Browser)
    (s : Session UserData) :
  renewal ≤ test + tick →
  created s = c → expires s < c + longestLife + tick →
  session_of (UserData := UserData) c tick
    (set_localStorage
       <["user_session" := JSON_stringify (renew_at activity test renewal s)]> b).
Proof.
  intros Htick Hc He. unfold session_of. cbn [set_localStorage localStorage].
  rewrite lookup_insert_eq. exists (renew_at activity test renewal s).
  split; [done |].
  unfold renew_at, longestLife in *. cbn [set_lastActivity created].
  destruct (test - created s <? renewalWindow) eqn:Hlt; cbn [set_expires created expires
    set_lastActivity]; [apply Z.ltb_lt in Hlt; lia | done].
Qed.

Lemma session_of_destroySession (c tick : Z) (b : Browser) :
  session_of (UserData := UserData) c tick (destroySession b).2.
Proof.
  rewrite destroySession_eq. unfold session_of. cbn [snd localStorage].
  by simplify_map_eq.
Qed.

Lemma session_of_updateSessionActivity (c tick activity test renewal : Z)
    (b : Browser) :
  renewal ≤ test + tick →
  session_of (UserData := UserData) c tick b →
  session_of (UserData := UserData) c tick
    (updateSessionActivity_at (UserData := UserData) activity test renewal b).2.
Proof.
  intros Htick Hof.
  destruct (item (localStorage b) "user_session") as [text |] eqn:Hitem.
  - destruct (session_of_item c tick b text Hof Hitem) as (s & Hparse & Hc & He).
    rewrite (updateSessionActivity_at_eq activity test renewal b text s Hitem Hparse).
    by apply session_of_renew.
  - unfold updateSessionActivity_at, try_catch. unfold bind at 1, get at 1.
    by rewrite Hitem.
Qed.

Lemma session_of_validateSession (c tick check activity test renewal : Z)
    (b : Browser) :
  renewal ≤ test + tick →
  session_of (UserData := UserData) c tick b →
  session_of (UserData := UserData) c tick
    (validateSession_at (UserData := UserData) check activity test renewal b).2.
Proof.
  intros Htick Hof. rewrite validateSession_at_eq.
  destruct (item (localStorage b) "user_session") as [text |] eqn:Hitem; [| done].
  destruct (session_of_item c tick b text Hof Hitem) as (s & Hparse & Hc & He).
  rewrite Hparse.
  destruct (check >? expires s); [apply session_of_destroySession |].
  destruct (decide _); [| apply session_of_destroySession].
  by apply session_of_updateSessionActivity.
Qed.

Lemma session_of_perform (c tick : Z) (a : Activity) (b : Browser) :
  renews_within tick a →
  session_of (UserData := UserData) c tick b →
  session_of (UserData := UserData) c tick (perform (UserData := UserData) a b).2.
Proof.
  intros Htick Hof.
  destruct a as [check activity test renewal | activity test renewal];
    cbn [perform renews_within] in *.
  - unfold bind.
    pose proof (session_of_validateSession c tick check activity test renewal b
                  Htick Hof) as Hv.
    by destruct (validateSession_at check activity test renewal b) as [[u |] b'].
  - by apply session_of_updateSessionActivity.
Qed.

Lemma session_of_for_of (c tick : Z) (acts : list Activity) (b : Browser) :
  Forall (renews_within tick) acts →
  session_of (UserData := UserData) c tick b →
  session_of (UserData := UserData) c tick
    (for_of acts (perform (UserData := UserData)) b).2.
Proof.
  revert b. induction acts as [| a acts IH]; intros b Hacts Hof; [done |].
  inversion Hacts as [| ? ? Ha Hacts']; subst.
  cbn [for_of]. unfold bind.
  pose proof (session_of_perform c tick a b Ha Hof) as Hb.
  destruct (perform a b) as [[[] |] b']; [by apply IH | done].
Qed.

(** X16: a session cannot be kept alive for ever.  Take a stored session
    whose [expires] is at most its [created] plus the session duration
    plus [tick], and any calls of [validateSession] and
    [updateSessionActivity], at any times, in each of which the clock
    advances by at most [tick] between the 80% test and the renewal.  Then
    [validateSession] returns false from [created] plus 1.8 times the
    session duration (43.2 hours) plus [tick] on. *)
Theorem session_ends_within_longest_life (b : Browser) (s : Session UserData)
    (tick check activity test renewal : Z) (acts : list Activity) :
  localStorage b !! "user_session" = Some (JSON_stringify s) →
  expires s ≤ created s + sessionDuration + tick →
  Forall (renews_within tick) acts →
  created s + longestLife + tick ≤ check →
  let b' := (for_of acts (perform (UserData := UserData)) b).2 in
  (validateSession_at (UserData := UserData) check activity test renewal b').1
  = Returned None.
Proof.
  intros Hstored Hexpires Hacts Hcheck b'.
  assert (Hof : session_of (UserData := UserData) (created s) tick b').
  { subst b'. apply session_of_for_of; [done |].
    unfold session_of. rewrite Hstored. exists s. split_and!; [done | done |].
    pose proof longestLife_eq. unfold sessionDuration in Hexpires. lia. }
  rewrite validateSession_at_eq.
  destruct (item (localStorage b') "user_session") as [text |] eqn:Hitem; [| done].
  destruct (session_of_item (created s) tick b' text Hof Hitem)
    as (s' & -> & Hc & He).
  assert (E : (check >? expires s') = true) by (apply Z.gtb_lt; lia).
  by rewrite E.
Qed.

(** Inside the window that the first call opened, the [c] calls counted so
    far leave [limit - c] calls to allow. *)
Lemma checkRateLimit_each_bucket (times : list Z) (action : string)
    (limit interval : Z) (c r : Z) (b : Browser) :
  sessionStorage b !! ("rate_limit_" +:+ action)
    = Some (JSON_stringify {| count := Some c; resetTime := Some r |}) →
  0 < c → 0 < r → Forall (λ now, now ≤ r) times →
  ∃ rs b',
    checkRateLimit_each times action limit interval b = (Returned rs, b') ∧
    allowed <$> rs
    = (λ i : nat, bool_decide (c + Z.of_nat i < limit)) <$> seq 0 (length times).
Proof.
  revert c b. induction times as [| now times IH]; intros c b Hb Hc Hr Htimes.
  { by eexists [], b. }
  inversion Htimes as [| ? ? Hnow Htimes']; subst.
  cbn [checkRateLimit_each]. unfold bind at 1.
  rewrite (checkRateLimit_bucket now action limit interval b c r Hb Hc Hr Hnow).
  destruct (Z.geb_spec c limit) as [Hfull | Hroom].
  - destruct (IH c b Hb Hc Hr Htimes') as (rs & b' & E & Hrs).
    cbv beta iota. unfold bind at 1. rewrite E.
    eexists _, b'. split; [reflexivity |].
    cbn [length seq fmap list_fmap allowed]. f_equal.
    { by rewrite bool_decide_eq_false_2 by lia. }
    change (list_fmap _ _ ?f ?l) with (f <$> l).
    rewrite Hrs, <- fmap_S_seq, <- list_fmap_compose.
    apply list_fmap_ext. intros _ i _. cbn [compose].
    by rewrite !bool_decide_eq_false_2 by lia.
  - set (b1 := set_sessionStorage _ b).
    destruct (IH (c + 1) b1) as (rs & b' & E & Hrs);
      [apply lookup_insert_eq | lia | done | done |].
    cbv beta iota. unfold bind at 1. rewrite E.
    eexists _, b'. split; [reflexivity |].
    cbn [length seq fmap list_fmap allowed]. f_equal.
    { by rewrite bool_decide_eq_true_2 by lia. }
    change (list_fmap _ _ ?f ?l) with (f <$> l).
    rewrite Hrs, <- fmap_S_seq, <- list_fmap_compose.
    apply list_fmap_ext. intros _ i _. cbn [compose].
    apply bool_decide_ext. lia.
Qed.

(** X17: of the calls of [checkRateLimit] made for an action until the
    window that the first of them opened is over, exactly the first [limit]
    are allowed, however many follow and whatever their order in time. *)
Theorem checkRateLimit_allows_limit_calls_per_window (first : Z) (times : list Z)
    (action : string) (limit interval : Z) (b : Browser) :
  sessionStorage b !! ("rate_limit_" +:+ action) = None →
  0 < limit → 0 < interval → 0 ≤ first →
  Forall (λ now, now ≤ first + interval) times →
  ∃ rs b',
    checkRateLimit_each (first :: times) action limit interval b
    = (Returned rs, b') ∧
    allowed <$> rs
    = (λ i : nat, bool_decide (Z.of_nat i < limit)) <$> seq 0 (S (length times)).
Proof.
  intros Hb Hlimit Hinterval Hfirst Htimes.
  cbn [checkRateLimit_each]. unfold bind at 1.
  rewrite checkRateLimit_fresh; [| by apply item_None | lia ..].
  set (b1 := set_sessionStorage _ b).
  destruct (checkRateLimit_each_bucket times action limit interval 1
              (first + interval) b1) as (rs & b' & E & Hrs);
    [apply lookup_insert_eq | lia | lia | done |].
  cbv beta iota. unfold bind at 1. rewrite E.
  eexists _, b'. split; [reflexivity |].
  cbn [seq fmap list_fmap allowed]. f_equal.
  { by rewrite bool_decide_eq_true_2 by lia. }
  change (list_fmap _ _ ?f ?l) with (f <$> l).
  rewrite Hrs, <- fmap_S_seq, <- list_fmap_compose.
  apply list_fmap_ext. intros _ i _. cbn [compose].
  apply bool_decide_ext. lia.
Qed.

End Sessions.

#[local] Existing Instance SecuritySystem.RateData_JSON.
#[local] Existing Instance SecuritySystem.Session_JSON.

Lemma destroySession_resets_rate_limits_witness :
  let b' := (destroySession
               (checkRateLimit 1700000000000 "login" 1 60000 empty_browser).2).2 in
  ∃ b'',
    checkRateLimit 1700000000100 "login" 1 60000 b'
    = (Returned {| allowed := true; remaining := 1 - 1;
                   resetIn := 60000; retryAfter := None |}, b'').
Proof.
  refine (destroySession_resets_rate_limits
            (checkRateLimit 1700000000000 "login" 1 60000 empty_browser).2
            1700000000100 "login" 1 60000 _ _); lia.
Defined.

(** The record that [alice_session] holds. *)
Definition alice : Session string :=
  {| id := "k3Yq"; user := "alice"; created := 1700000000000;
     expires := 1700000000050 + sessionDuration;
     ip := "203.0.113.7"; userAgent := "Mozilla/5.0";
     lastActivity := Some 1700000000050 |}.

(** Activity whose last renewal passes the 80% test with a millisecond to
    spare and is counted from a reading 40 ms later. *)
Definition busy : list Activity :=
  [ Validate 1700060000000 1700060000001 1700060000001 1700060000003;
    Touch 1700069119999 1700069119999 1700069120039;
    Validate 1700150000000 1700150000000 1700150000002 1700150000002 ].

Lemma session_ends_within_longest_life_witness :
  let b' := (for_of busy (perform (UserData := string)) alice_session).2 in
  (validateSession_at (UserData := string)
     1700155520050 1700155520050 1700155520051 1700155520051 b').1
  = Returned None.
Proof.
  refine (session_ends_within_longest_life alice_session alice 50
            1700155520050 1700155520050 1700155520051 1700155520051 busy
            _ _ _ _).
  - reflexivity.
  - vm_compute. discriminate.
  - unfold busy. repeat constructor; cbn [renews_within]; lia.
  - rewrite longestLife_eq. cbn [alice created]. lia.
Defined.

Lemma checkRateLimit_allows_limit_calls_per_window_witness :
  ∃ rs b',
    checkRateLimit_each (1700000000000 :: [1700000000200; 1700000000100;
                                           1700000060000; 1700000030000])
      "vote" 3 60000 empty_browser
    = (Returned rs, b') ∧
    allowed <$> rs
    = (λ i : nat, bool_decide (Z.of_nat i < 3))
        <$> seq 0 (S (length [1700000000200; 1700000000100;
                              1700000060000; 1700000030000])).
Proof.
  refine (checkRateLimit_allows_limit_calls_per_window 1700000000000
            [1700000000200; 1700000000100; 1700000060000; 1700000030000]
            "vote" 3 60000 empty_browser _ _ _ _ _);
    [reflexivity | lia | lia | lia |].
  repeat constructor; lia.
Defined.

End SecurityFacts.

(** ** admin-functions.js, continued: [selectWinners] for any number of
    winners and any answers of the store, [finishGiveaway] and
    [updateUserBalance] *)

Module AdminFacts.
Import AdminFunctions.

(** The row that [selectWinners] inserts for a winner. *)
Definition winnerRow (date giveawayId : string) (winner : Winner) : WinnerRow :=
  {| giveaway_id := giveawayId;
     won_user_id := winner_user_id winner;
     won_at := date |}.

(** The rows that the table gains when the inserts for [winners] go out as
    the calls [start], [start + 1], ...: one for each insert that the store
    answers without error. *)
Fixpoint savedRows (net : Oracle) (date giveawayId : string) (start : nat)
    (winners : list Winner) : list WinnerRow :=
  match winners with
  | [] => []
  | winner :: winners' =>
      (match net start with
       | Ok => [winnerRow date giveawayId winner]
       | _ => []
       end ++ savedRows net date giveawayId (S start) winners')%list
  end.

(** The participants of a giveaway, as the second query of [selectWinners]
    returns them. *)
Definition participantsOf (giveawayId : string) (w : Remote) : list Participant :=
  (filter (λ row, row.1 = giveawayId) (giveaway_participants w)).*2.

(** Only [giveaway_winners] and the count of calls change. *)
Definition tables_kept (w w' : Remote) : Prop :=
  giveaways w' = giveaways w ∧
  giveaway_participants w' = giveaway_participants w.

#[local] Instance tables_kept_preorder : PreOrder tables_kept.
Proof.
  split; [done |]. intros w1 w2 w3 [H1 H2] [H3 H4]. split; congruence.
Qed.

Section Selection.
Variable net : Oracle.
Variable random : nat → Z.
Variable date : string.

Lemma saveWinner_eq (giveawayId : string) (winner : Winner) (w : Remote) :
  saveWinner net date giveawayId winner w =
  match net (calls w) with
  | Ok => (Returned tt, add_winner (winnerRow date giveawayId winner) (tick w))
  | Err => (Returned tt, tick w)
  | Throw => (Thrown, tick w)
  end.
Proof. unfold saveWinner, bind, call. by destruct (net (calls w)). Qed.

(** While no insert throws, the loop saves the rows of the answered
    inserts. *)
Lemma saveWinners_rows (giveawayId : string) (winners : list Winner) (w : Remote) :
  (∀ i, (i < length winners)%nat → net (calls w + i)%nat ≠ Throw) →
  for_of winners (saveWinner net date giveawayId) w =
  (Returned tt,
   {| giveaways := giveaways w;
      giveaway_participants := giveaway_participants w;
      giveaway_winners :=
        (giveaway_winners w ++ savedRows net date giveawayId (calls w) winners)%list;
      calls := (calls w + length winners)%nat |}).
Proof.
  revert w. induction winners as [| x xs IH]; intros w Hnet.
  { cbn [for_of savedRows length]. unfold ret. f_equal.
    destruct w; cbn. f_equal; [by rewrite app_nil_r | lia]. }
  cbn [for_of]. unfold bind at 1. rewrite saveWinner_eq.
  pose proof (Hnet 0%nat ltac:(simpl; lia)) as H0. rewrite Nat.add_0_r in H0.
  cbn [savedRows].
  destruct (net (calls w)) eqn:E; [| | done].
  - rewrite IH.
    + f_equal. cbn [add_winner tick giveaways giveaway_participants giveaway_winners
                       calls length]. f_equal; [by rewrite <- app_assoc | lia].
    + intros i Hi. cbn [add_winner tick calls].
      replace (S (calls w) + i)%nat with (calls w + S i)%nat by lia.
      apply Hnet. simpl. lia.
  - rewrite IH.
    + f_equal. cbn [tick giveaways giveaway_participants giveaway_winners
                       calls length app]. f_equal. lia.
    + intros i Hi. cbn [tick calls].
      replace (S (calls w) + i)%nat with (calls w + S i)%nat by lia.
      apply Hnet. simpl. lia.
Qed.

(** The first insert that throws ends the loop; the rows saved before it
    stay. *)
Lemma saveWinners_thrown (giveawayId : string) (winners : list Winner) (j : nat)
    (w : Remote) :
  (j < length winners)%nat →
  (∀ i, (i < j)%nat → net (calls w + i)%nat ≠ Throw) →
  net (calls w + j)%nat = Throw →
  ∃ w',
    for_of winners (saveWinner net date giveawayId) w = (Thrown, w') ∧
    tables_kept w w' ∧
    giveaway_winners w'
    = (giveaway_winners w ++ savedRows net date giveawayId (calls w) (take j winners))%list.
Proof.
  revert j w. induction winners as [| x xs IH]; intros j w Hj Hbefore Hthrow.
  { simpl in Hj. lia. }
  cbn [for_of]. unfold bind at 1. rewrite saveWinner_eq.
  destruct j as [| j].
  - rewrite Nat.add_0_r in Hthrow. rewrite Hthrow.
    exists (tick w). split_and!; [done | done |].
    cbn [take savedRows tick giveaway_winners]. by rewrite app_nil_r.
  - pose proof (Hbefore 0%nat ltac:(lia)) as H0. rewrite Nat.add_0_r in H0.
    cbn [take savedRows]. simpl in Hj.
    destruct (net (calls w)) eqn:E; [| | done].
    + destruct (IH j (add_winner (winnerRow date giveawayId x) (tick w)))
        as (w' & -> & [Hg Hp] & Hrows); [lia | | |].
      * intros i Hi. cbn [add_winner tick calls].
        replace (S (calls w) + i)%nat with (calls w + S i)%nat by lia.
        apply Hbefore. lia.
      * cbn [add_winner tick calls].
        by replace (S (calls w) + j)%nat with (calls w + S j)%nat by lia.
      * exists w'. split_and!; [done | done |].
        rewrite Hrows. cbn [add_winner tick giveaway_winners calls].
        by rewrite <- app_assoc.
    + destruct (IH j (tick w)) as (w' & -> & [Hg Hp] & Hrows); [lia | | |].
      * intros i Hi. cbn [tick calls].
        replace (S (calls w) + i)%nat with (calls w + S i)%nat by lia.
        apply Hbefore. lia.
      * cbn [tick calls].
        by replace (S (calls w) + j)%nat with (calls w + S j)%nat by lia.
      * exists w'. split_and!; [done | done |]. by rewrite Hrows.
Qed.

(** With both reads answered, [selectWinners] draws the winners and goes
    on to save them. *)
Lemma selectWinners_drawn (giveawayId : string) (w : Remote) (k : Z) :
  giveaways w !! giveawayId = Some k →
  net (calls w) = Ok → net (S (calls w)) = Ok →
  ∃ drawn,
    length drawn
    = Z.to_nat (Z.min k (Z.of_nat (length (participantsOf giveawayId w)))) ∧
    (winner_user_id <$> drawn) ⊆+ (user_id <$> participantsOf giveawayId w) ∧
    selectWinners net random date giveawayId w
    = try_catch
        (for_of drawn (saveWinner net date giveawayId);; ret (Success drawn))
        (ret Failure) (tick (tick w)).
Proof.
  intros Hk Hnet0 Hnet1.
  unfold selectWinners, try_catch.
  unfold bind at 1, get at 1. unfold bind at 1, call at 1. rewrite Hnet0, Hk.
  unfold bind at 1, ret at 1. unfold bind at 1, call at 1.
  change (calls (tick w)) with (S (calls w)). rewrite Hnet1.
  unfold bind at 1, ret at 1.
  change ((filter _ (giveaway_participants w)).*2) with (participantsOf giveawayId w).
  set (participants := participantsOf giveawayId w).
  destruct (decide (length participants = 0%nat)) as [Hnil | Hnil].
  { exists []. rewrite Hnil. split_and!; [simpl; lia | apply submseteq_nil_l | done]. }
  unfold bind at 1.
  destruct (drawLoop_draws random participants
              (Z.to_nat (Z.min k (Z.of_nat (length (user_id <$> participants))))) 0
              (user_id <$> participants) [] (tick (tick w)))
    as (drawn & rest & -> & Hdrawn & Hperm); [lia | done |].
  exists drawn. split_and!.
  - by rewrite Hdrawn, length_fmap.
  - rewrite Hperm. by apply submseteq_inserts_r.
  - done.
Qed.

(** X18: when the store answers both reads and no insert throws,
    [selectWinners] succeeds with as many winners as asked for, or with all
    participants if there are fewer; no participant wins more often than
    they are entered.  With distinct participants the winners are
    distinct. *)
Theorem selectWinners_draws_without_replacement (giveawayId : string)
    (w : Remote) (k : Z) :
  giveaways w !! giveawayId = Some k →
  net (calls w) = Ok → net (S (calls w)) = Ok → (∀ i, net i ≠ Throw) →
  ∃ winners w',
    selectWinners net random date giveawayId w = (Returned (Success winners), w') ∧
    length winners
    = Z.to_nat (Z.min k (Z.of_nat (length (participantsOf giveawayId w)))) ∧
    (winner_user_id <$> winners) ⊆+ (user_id <$> participantsOf giveawayId w) ∧
    (NoDup (user_id <$> participantsOf giveawayId w) →
     NoDup (winner_user_id <$> winners)).
Proof.
  intros Hk Hnet0 Hnet1 Hnet.
  destruct (selectWinners_drawn giveawayId w k Hk Hnet0 Hnet1)
    as (drawn & Hlen & Hsub & ->).
  unfold try_catch, bind. rewrite saveWinners_rows by (intros i _; apply Hnet).
  eexists drawn, _. split_and!; [done | done | done |].
  intros Hnodup. apply submseteq_Permutation in Hsub as [rest Hperm].
  rewrite Hperm in Hnodup. by apply NoDup_app in Hnodup as [? _].
Qed.

(** X19: in the same case the table [giveaway_winners] gains, in the order
    drawn, the row of each winner whose insert was answered without error,
    and no other row: a winner whose insert was answered with an error is
    returned as a winner and not saved. *)
Theorem selectWinners_saves_the_answered_inserts (giveawayId : string)
    (w : Remote) (k : Z) :
  giveaways w !! giveawayId = Some k →
  net (calls w) = Ok → net (S (calls w)) = Ok → (∀ i, net i ≠ Throw) →
  ∃ winners w',
    selectWinners net random date giveawayId w = (Returned (Success winners), w') ∧
    giveaway_winners w'
    = (giveaway_winners w
       ++ savedRows net date giveawayId (S (S (calls w))) winners)%list ∧
    tables_kept w w'.
Proof.
  intros Hk Hnet0 Hnet1 Hnet.
  destruct (selectWinners_drawn giveawayId w k Hk Hnet0 Hnet1)
    as (drawn & Hlen & Hsub & ->).
  unfold try_catch, bind. rewrite saveWinners_rows by (intros i _; apply Hnet).
  eexists drawn, _. by split_and!.
Qed.

(** X20: when a read of [selectWinners] fails (the giveaway is not there, or
    the store answers one of the two reads with an error or not at all),
    the result is a failure and no row is written. *)
Theorem selectWinners_failed_read_writes_nothing (giveawayId : string)
    (w : Remote) :
  giveaways w !! giveawayId = None ∨ net (calls w) ≠ Ok ∨ net (S (calls w)) ≠ Ok →
  ∃ w',
    selectWinners net random date giveawayId w = (Returned Failure, w') ∧
    giveaway_winners w' = giveaway_winners w ∧
    tables_kept w w'.
Proof.
  intros Hfail.
  unfold selectWinners, try_catch.
  unfold bind at 1, get at 1. unfold bind at 1, call at 1.
  destruct (net (calls w)) eqn:Hnet0; [| by exists (tick w) ..].
  destruct (giveaways w !! giveawayId) as [k |] eqn:Hk; [| by exists (tick w)].
  unfold bind at 1, ret at 1. unfold bind at 1, call at 1.
  change (calls (tick w)) with (S (calls w)).
  destruct Hfail as [Hnone | [Hne | Hne]]; [done | done |].
  exists (tick (tick w)).
  by destruct (net (S (calls w))).
Qed.

(** X21: when the store answers both reads and the inserts up to the
    [j]-th, and the next insert throws, [selectWinners] reports a failure
    although the rows of the answered inserts before it have been
    written. *)
Theorem selectWinners_thrown_insert_keeps_earlier_rows (giveawayId : string)
    (w : Remote) (k : Z) (j : nat) :
  giveaways w !! giveawayId = Some k →
  net (calls w) = Ok → net (S (calls w)) = Ok →
  (j < Z.to_nat (Z.min k (Z.of_nat (length (participantsOf giveawayId w)))))%nat →
  (∀ i, (i < j)%nat → net (S (S (calls w)) + i)%nat = Ok) →
  net (S (S (calls w)) + j)%nat = Throw →
  ∃ w' rows,
    selectWinners net random date giveawayId w = (Returned Failure, w') ∧
    giveaway_winners w' = (giveaway_winners w ++ rows)%list ∧
    length rows = j ∧
    Forall (λ row, giveaway_id row = giveawayId ∧
                   won_user_id row ∈ user_id <$> participantsOf giveawayId w) rows.
Proof.
  intros Hk Hnet0 Hnet1 Hj Hbefore Hthrow.
  destruct (selectWinners_drawn giveawayId w k Hk Hnet0 Hnet1)
    as (drawn & Hlen & Hsub & ->).
  destruct (saveWinners_thrown giveawayId drawn j (tick (tick w)))
    as (w' & E & _ & Hrows); [lia | | done |].
  { intros i Hi. cbn [tick calls]. by rewrite Hbefore. }
  unfold try_catch, bind. rewrite E.
  exists w', (savedRows net date giveawayId (S (S (calls w))) (take j drawn)).
  split_and!; [done | done | |].
  - assert (Hgen : ∀ (xs : list Winner) (start : nat),
              (∀ i, (i < length xs)%nat → net (start + i)%nat = Ok) →
              savedRows net date giveawayId start xs
              = winnerRow date giveawayId <$> xs).
    { induction xs as [| x xs IH]; intros start Hok; [done |].
      cbn [savedRows]. pose proof (Hok 0%nat ltac:(simpl; lia)) as H0.
      rewrite Nat.add_0_r in H0. rewrite H0, IH; [done |].
      intros i Hi. replace (S start + i)%nat with (start + S i)%nat by lia.
      apply Hok. simpl. lia. }
    rewrite Hgen.
    + rewrite length_fmap, length_take. lia.
    + intros i Hi. rewrite length_take in Hi. apply Hbefore. lia.
  - assert (Hgen : ∀ (xs : list Winner) (start : nat),
              Forall (λ row, giveaway_id row = giveawayId ∧
                             won_user_id row ∈ winner_user_id <$> xs)
                (savedRows net date giveawayId start xs)).
    { induction xs as [| x xs IH]; intros start; [done |].
      cbn [savedRows]. apply Forall_app. split.
      - destruct (net start); [| done ..]. constructor; [| done].
        split; [done |]. cbn. left.
      - eapply Forall_impl; [apply IH |]. intros row [? ?]. split; [done |].
        cbn. by right. }
    eapply Forall_impl; [apply Hgen |]. intros row [Hid Hin]. split; [done |].
    eapply elem_of_submseteq; [| exact Hsub].
    eapply elem_of_submseteq; [exact Hin |].
    apply fmap_submseteq, sublist_submseteq, sublist_take.
Qed.

End Selection.

(** The second insert is answered with an error. *)
Definition second_insert_fails (i : nat) : outcome :=
  match i with
  | 3%nat => Err
  | _ => Ok
  end.

(** The second insert is not answered. *)
Definition second_insert_throws (i : nat) : outcome :=
  match i with
  | 3%nat => Throw
  | _ => Ok
  end.

Lemma selectWinners_draws_without_replacement_witness :
  ∃ winners w',
    selectWinners (λ _, Ok) some_draws "2024-05-01T10:00:00.000Z" "spring"
      (spring_giveaway 2) = (Returned (Success winners), w') ∧
    length winners
    = Z.to_nat (Z.min 2 (Z.of_nat (length (participantsOf "spring" (spring_giveaway 2))))) ∧
    (winner_user_id <$> winners)
      ⊆+ (user_id <$> participantsOf "spring" (spring_giveaway 2)) ∧
    (NoDup (user_id <$> participantsOf "spring" (spring_giveaway 2)) →
     NoDup (winner_user_id <$> winners)).
Proof.
  refine (selectWinners_draws_without_replacement (λ _, Ok) some_draws
            "2024-05-01T10:00:00.000Z" "spring" (spring_giveaway 2) 2 _ _ _ _);
    [vm_compute; reflexivity | reflexivity | reflexivity | intros i; discriminate].
Defined.

Lemma selectWinners_saves_the_answered_inserts_witness :
  ∃ winners w',
    selectWinners second_insert_fails some_draws "2024-05-01T10:00:00.000Z" "spring"
      (spring_giveaway 3) = (Returned (Success winners), w') ∧
    giveaway_winners w'
    = (giveaway_winners (spring_giveaway 3)
       ++ savedRows second_insert_fails "2024-05-01T10:00:00.000Z" "spring"
            (S (S (calls (spring_giveaway 3)))) winners)%list ∧
    tables_kept (spring_giveaway 3) w'.
Proof.
  refine (selectWinners_saves_the_answered_inserts second_insert_fails some_draws
            "2024-05-01T10:00:00.000Z" "spring" (spring_giveaway 3) 3 _ _ _ _);
    [vm_compute; reflexivity | reflexivity | reflexivity |].
  intros i. unfold second_insert_fails. by repeat (destruct i as [| i]; [done |]).
Defined.

Lemma selectWinners_failed_read_writes_nothing_witness :
  ∃ w',
    selectWinners (λ _, Ok) some_draws "2024-05-01T10:00:00.000Z" "winter"
      (spring_giveaway 3) = (Returned Failure, w') ∧
    giveaway_winners w' = giveaway_winners (spring_giveaway 3) ∧
    tables_kept (spring_giveaway 3) w'.
Proof.
  refine (selectWinners_failed_read_writes_nothing (λ _, Ok) some_draws
            "2024-05-01T10:00:00.000Z" "winter" (spring_giveaway 3) _).
  left. vm_compute. reflexivity.
Defined.

Lemma selectWinners_thrown_insert_keeps_earlier_rows_witness :
  ∃ w' rows,
    selectWinners second_insert_throws some_draws "2024-05-01T10:00:00.000Z" "spring"
      (spring_giveaway 3) = (Returned Failure, w') ∧
    giveaway_winners w' = (giveaway_winners (spring_giveaway 3) ++ rows)%list ∧
    length rows = 1%nat ∧
    Forall (λ row, giveaway_id row = "spring" ∧
                   won_user_id row
                     ∈ user_id <$> participantsOf "spring" (spring_giveaway 3)) rows.
Proof.
  refine (selectWinners_thrown_insert_keeps_earlier_rows second_insert_throws
            some_draws "2024-05-01T10:00:00.000Z" "spring" (spring_giveaway 3) 3 1
            _ _ _ _ _ _);
    [vm_compute; reflexivity | reflexivity | reflexivity | vm_compute; lia | |
     reflexivity].
  intros i Hi. destruct i as [| i]; [reflexivity | lia].
Defined.

(** *** [finishGiveaway] and [updateUserBalance] *)

(** The [details] of the two actions logged below. *)
Inductive Details : Type :=
  | GiveawayFinished (giveaway_id : string) (winners_count : nat)
  | BalanceUpdated (user_id : string) (amount new_balance : Z).

(** A row of [admin_logs]. *)
Record LogRow : Type := {
  admin_id : string;
  admin_name : string;
  action : string;
  details : Details;
  ip_address : string;
  user_agent : string;
  created_at : string
}.

(** A row of [transactions]. *)
Record Transaction : Type := {
  transaction_user_id : string;
  transaction_type : string;
  transaction_amount : Z;
  transaction_description : string;
  transaction_admin_id : string;
  transaction_created_at : string
}.

(** The remote store with the columns [is_finished] and [finished_at] of
    [giveaways] (keyed by the giveaway like [winners_count]), the column
    [balance] of [users] (keyed by the user; [None] is a balance of [null])
    and the tables [transactions] and [admin_logs]. *)
Record Admin : Type := {
  remote : Remote;
  is_finished : gmap string bool;
  finished_at : gmap string string;
  balance : gmap string (option Z);
  transactions : list Transaction;
  admin_logs : list LogRow
}.

Definition set_remote (f : Remote → Remote) (s : Admin) : Admin :=
  {| remote := f (remote s); is_finished := is_finished s;
     finished_at := finished_at s; balance := balance s;
     transactions := transactions s; admin_logs := admin_logs s |}.

(** [.update({ is_finished: true, finished_at }).eq('id', giveawayId)] *)
Definition finish (giveawayId date : string) (s : Admin) : Admin :=
  {| remote := remote s;
     is_finished := <[giveawayId := true]> (is_finished s);
     finished_at := <[giveawayId := date]> (finished_at s);
     balance := balance s;
     transactions := transactions s;
     admin_logs := admin_logs s |}.



Definition add_log (row : LogRow) (s : Admin) : Admin :=
  {| remote := remote s; is_finished := is_finished s;
     finished_at := finished_at s; balance := balance s;
     transactions := transactions s;
     admin_logs := (admin_logs s ++ [row])%list |}.

(** A method of the same object that works on the tables of [Remote]. *)
Definition on_remote {A} (m : M Remote A) : M Admin A :=
  λ s, let '(r, w) := m (remote s) in (r, set_remote (λ _, w) s).

(** What [finishGiveaway] resolves to. *)
Inductive Finish : Type :=
  | AlreadyFinished                  (* { success: true, message } *)
  | Finished (winners : list Winner) (* { success: true, message, winners } *)
  | FinishFailure.                   (* { success: false, error } *)


Section FinishGiveaway.
Variable net : Oracle.
Variable random : nat → Z.
Variable date : string.
(** [this.currentUser.id] and [this.currentUser.username] *)
Variable currentUser_id currentUser_username : string.
(** What [getClientIP] resolves to, and [navigator.userAgent]. *)
Variable ip userAgent : string.

(** [logAdminAction(action, details)]: the answer of the insert is not
    looked at, a rejected insert is caught. *)
Definition logAdminAction (action : string) (details : Details) : M Admin unit :=
  try_catch
    (do o <- on_remote (call net);
     match o with
     | Ok =>
         modify (add_log {| admin_id := currentUser_id;
                            admin_name := currentUser_username;
                            action := action;
                            details := details;
                            ip_address := ip;
                            user_agent := userAgent;
                            created_at := date |})
     | Err => ret tt
     | Throw => throw
     end)
    (ret tt).

(** [notifyWinners] only writes to the console.  Reading
    [winnersResult.winners.length] throws when [selectWinners] resolved to
    a failure, which has no [winners]. *)
Definition finishGiveaway (giveawayId : string) : M Admin Finish :=
  try_catch
    (do s <- get;
     (* .from('giveaways').select('*').eq('id', id).single() *)
     do o <- on_remote (call net);
     do finished <-
       match o, giveaways (remote s) !! giveawayId with
       | Ok, Some _ => ret (default false (is_finished s !! giveawayId))
       | _, _ => throw
       end;
     if finished : bool then ret AlreadyFinished
     else
       do winnersResult <- on_remote (selectWinners net random date giveawayId);
       do o <- on_remote (call net);
       match o with
       | Ok => modify (finish giveawayId date)
       | _ => throw
       end;;
       match winnersResult with
       | Failure => throw
       | Success winners =>
           logAdminAction "giveaway_finished"
             (GiveawayFinished giveawayId (length winners));;
           ret (Finished winners)
       end)
    (ret FinishFailure).



Lemma tables_kept_tick (w : Remote) : tables_kept w (tick w).
Proof. done. Qed.

Lemma tables_kept_drawLoop (todo i : nat) (participants : list Participant)
    (ids : list string) (winners : list Winner) (w : Remote) :
  (drawLoop random todo i participants ids winners w).2 = w.
Proof.
  revert i ids winners. induction todo as [| todo IH]; intros i ids winners; [done |].
  cbn [drawLoop].
  destruct (ids !! _); [| done]. destruct (find_participant _ _); [| done].
  apply IH.
Qed.

Lemma tables_kept_saveWinner (giveawayId : string) (winner : Winner) (w : Remote) :
  tables_kept w (saveWinner net date giveawayId winner w).2.
Proof. rewrite saveWinner_eq. by destruct (net (calls w)). Qed.

(** [selectWinners] always resolves, and changes neither [giveaways] nor
    [giveaway_participants]. *)
Lemma selectWinners_resolves (giveawayId : string) (w : Remote) :
  ∃ sel w',
    selectWinners net random date giveawayId w = (Returned sel, w') ∧
    tables_kept w w'.
Proof.
  assert (Hkept : tables_kept w (selectWinners net random date giveawayId w).2).
  { unfold selectWinners.
    apply (step_try_catch tables_kept); [| done].
    apply (step_bind tables_kept); [done |]. intros w0 _.
    apply (step_bind tables_kept); [done |]. intros o _.
    apply (step_bind tables_kept).
    { destruct o; [| done ..]. by destruct (giveaways w0 !! giveawayId). }
    intros k _. apply (step_bind tables_kept); [done |]. intros o' _.
    apply (step_bind tables_kept); [by destruct o' |]. intros ps _.
    destruct (decide _); [done |].
    apply (step_bind tables_kept); [by rewrite tables_kept_drawLoop |].
    intros winners _.
    apply (step_bind tables_kept); [| done].
    apply (step_for_of tables_kept). intros x w' _. apply tables_kept_saveWinner. }
  unfold selectWinners, try_catch in *.
  destruct (bind get _ w) as [[sel |] w']; by eexists _, _.
Qed.

Lemma logAdminAction_eq (action : string) (details : Details) (s : Admin) :
  ∃ s',
    logAdminAction action details s = (Returned tt, s') ∧
    is_finished s' = is_finished s ∧
    tables_kept (remote s) (remote s') ∧
    giveaway_winners (remote s') = giveaway_winners (remote s) ∧
    balance s' = balance s ∧
    transactions s' = transactions s.
Proof.
  unfold logAdminAction, try_catch, bind, on_remote, call.
  destruct (net (calls (remote s))); by eexists.
Qed.

(** The ways through [finishGiveaway] once its read is answered. *)
Lemma finishGiveaway_eq (giveawayId : string) (s : Admin) (k : Z) :
  giveaways (remote s) !! giveawayId = Some k →
  net (calls (remote s)) = Ok →
  finishGiveaway giveawayId s =
  if default false (is_finished s !! giveawayId)
  then (Returned AlreadyFinished, set_remote tick s)
  else
    let selected := selectWinners net random date giveawayId (tick (remote s)) in
    match net (calls selected.2) with
    | Ok =>
        let s2 := finish giveawayId date (set_remote (λ _, tick selected.2) s) in
        match selected.1 with
        | Returned (Success winners) =>
            (Returned (Finished winners),
             (logAdminAction "giveaway_finished"
                (GiveawayFinished giveawayId (length winners)) s2).2)
        | _ => (Returned FinishFailure, s2)
        end
    | _ => (Returned FinishFailure, set_remote (λ _, tick selected.2) s)
    end.
Proof.
  intros Hk Hnet0. unfold finishGiveaway, try_catch.
  unfold bind at 1, get at 1. unfold bind at 1, on_remote at 1, call at 1.
  rewrite Hnet0, Hk. unfold bind at 1, ret at 1.
  destruct (default false (is_finished s !! giveawayId)); [done |].
  unfold bind at 1, on_remote at 1. cbn [set_remote remote].
  destruct (selectWinners_resolves giveawayId (tick (remote s)))
    as (sel & w1 & E & _).
  rewrite E. cbn [fst snd].
  unfold bind at 1. unfold bind at 1, on_remote at 1, call at 1.
  cbn [set_remote remote].
  destruct (net (calls w1)); [| done ..].
  unfold modify at 1. destruct sel as [winners |]; [| done].
  unfold bind at 1.
  set (s2 := finish _ _ _).
  destruct (logAdminAction_eq "giveaway_finished"
              (GiveawayFinished giveawayId (length winners)) s2)
    as (s3 & -> & _).
  done.
Qed.

(** X22: a giveaway whose selection of winners failed is closed all the
    same.  When [selectWinners] resolves to a failure and the update is
    answered, [finishGiveaway] reports a failure, yet the giveaway is
    marked finished; the next [finishGiveaway] whose read is answered
    reports that the giveaway is already finished and draws nobody. *)
Theorem finishGiveaway_closes_giveaway_without_winners (giveawayId : string)
    (s : Admin) (k : Z) :
  giveaways (remote s) !! giveawayId = Some k →
  default false (is_finished s !! giveawayId) = false →
  net (calls (remote s)) = Ok →
  let selected := selectWinners net random date giveawayId (tick (remote s)) in
  selected.1 = Returned Failure →
  net (calls selected.2) = Ok →
  ∃ s',
    finishGiveaway giveawayId s = (Returned FinishFailure, s') ∧
    is_finished s' !! giveawayId = Some true ∧
    giveaway_winners (remote s') = giveaway_winners selected.2 ∧
    (net (calls (remote s')) = Ok →
     ∃ s'',
       finishGiveaway giveawayId s' = (Returned AlreadyFinished, s'') ∧
       giveaway_winners (remote s'') = giveaway_winners (remote s')).
Proof.
  intros Hk Hopen Hnet0 selected Hsel Hupdate.
  rewrite (finishGiveaway_eq giveawayId s k Hk Hnet0), Hopen.
  cbv zeta. fold selected. rewrite Hupdate, Hsel.
  eexists. split; [reflexivity |].
  cbn [finish set_remote is_finished remote tick giveaway_winners].
  rewrite lookup_insert_eq. split_and!; [done | done |].
  intros Hnet1.
  destruct (selectWinners_resolves giveawayId (tick (remote s)))
    as (sel & w1 & E & [Hg _]).
  erewrite finishGiveaway_eq; [| | exact Hnet1].
  - cbn [finish set_remote is_finished]. rewrite lookup_insert_eq.
    cbn [default from_option]. by eexists.
  - cbn [finish set_remote remote tick giveaways]. subst selected. rewrite E.
    cbn [snd]. rewrite Hg. exact Hk.
Qed.

(** X23: a giveaway is finished once.  After a [finishGiveaway] that
    resolved with winners, the giveaway is marked finished, and the next
    [finishGiveaway] whose read is answered reports that it is already
    finished and writes no winner. *)
Theorem finishGiveaway_finishes_once (giveawayId : string) (s : Admin)
    (winners : list Winner) :
  (finishGiveaway giveawayId s).1 = Returned (Finished winners) →
  let s' := (finishGiveaway giveawayId s).2 in
  net (calls (remote s')) = Ok →
  is_finished s' !! giveawayId = Some true ∧
  (selectWinners net random date giveawayId (tick (remote s))).1
    = Returned (Success winners) ∧
  ∃ s'',
    finishGiveaway giveawayId s' = (Returned AlreadyFinished, s'') ∧
    giveaway_winners (remote s'') = giveaway_winners (remote s').
Proof.
  intros Hfirst s' Hnet1. subst s'.
  assert (Hread : ∃ k, giveaways (remote s) !! giveawayId = Some k ∧
                       net (calls (remote s)) = Ok).
  { revert Hfirst. unfold finishGiveaway, try_catch.
    unfold bind at 1, get at 1. unfold bind at 1, on_remote at 1, call at 1.
    destruct (net (calls (remote s))); [| done ..].
    destruct (giveaways (remote s) !! giveawayId) as [k |]; [| done].
    by exists k. }
  destruct Hread as (k & Hk & Hnet0).
  rewrite (finishGiveaway_eq giveawayId s k Hk Hnet0) in Hfirst, Hnet1 |- *.
  destruct (default false (is_finished s !! giveawayId)); [done |].
  cbv zeta in Hfirst, Hnet1 |- *.
  destruct (selectWinners_resolves giveawayId (tick (remote s)))
    as (sel & w1 & E & [Hg _]).
  rewrite E in Hfirst, Hnet1 |- *. cbn [fst snd] in Hfirst, Hnet1 |- *.
  destruct (net (calls w1)); [| done ..].
  destruct sel as [ws |]; [| done].
  cbn [fst] in Hfirst. injection Hfirst as ->.
  set (s2 := finish _ _ _) in *.
  destruct (logAdminAction_eq "giveaway_finished"
              (GiveawayFinished giveawayId (length winners)) s2)
    as (s3 & E3 & Hfin & [Hg3 _] & _).
  rewrite E3 in Hnet1 |- *. cbn [snd] in Hnet1 |- *.
  assert (Hdone : is_finished s3 !! giveawayId = Some true).
  { rewrite Hfin. subst s2. cbn [finish is_finished]. apply lookup_insert_eq. }
  split_and!; [done | done |].
  erewrite finishGiveaway_eq; [| | exact Hnet1].
  - rewrite Hdone. cbn [default from_option]. by eexists.
  - rewrite Hg3. subst s2. cbn [finish set_remote remote tick giveaways].
    rewrite Hg. exact Hk.
Qed.

(** X24: when the update that marks the giveaway finished is answered with
    an error or not at all, [finishGiveaway] reports a failure and the
    giveaway stays open, while everything that [selectWinners] wrote
    stays: the next [finishGiveaway] draws again. *)
Theorem finishGiveaway_failed_update_keeps_drawn_winners (giveawayId : string)
    (s : Admin) (k : Z) :
  giveaways (remote s) !! giveawayId = Some k →
  default false (is_finished s !! giveawayId) = false →
  net (calls (remote s)) = Ok →
  let selected := selectWinners net random date giveawayId (tick (remote s)) in
  net (calls selected.2) ≠ Ok →
  ∃ s',
    finishGiveaway giveawayId s = (Returned FinishFailure, s') ∧
    is_finished s' = is_finished s ∧
    giveaways (remote s') !! giveawayId = Some k ∧
    giveaway_winners (remote s') = giveaway_winners selected.2.
Proof.
  intros Hk Hopen Hnet0 selected Hupdate.
  rewrite (finishGiveaway_eq giveawayId s k Hk Hnet0), Hopen.
  cbv zeta. fold selected.
  destruct (selectWinners_resolves giveawayId (tick (remote s)))
    as (sel & w1 & E & [Hg _]).
  assert (Hk1 : giveaways selected.2 !! giveawayId = Some k).
  { subst selected. rewrite E. cbn [snd]. by rewrite Hg. }
  destruct (net (calls selected.2)); [done | by eexists ..].
Qed.


End FinishGiveaway.

(** The store of [spring_giveaway] with no giveaway finished yet. *)
Definition spring_admin (k : Z) : Admin :=
  {| remote := spring_giveaway k; is_finished := ∅; finished_at := ∅;
     balance := {[ "u-17" := Some 120; "u-23" := None ]};
     transactions := []; admin_logs := [] |}.

(** The read of the participants is answered with an error. *)
Definition participants_read_fails (i : nat) : outcome :=
  match i with
  | 2%nat => Err
  | _ => Ok
  end.

(** With two winners to save, the update of the giveaway is the sixth call;
    it is answered with an error. *)
Definition update_fails (i : nat) : outcome :=
  match i with
  | 5%nat => Err
  | _ => Ok
  end.

Lemma finishGiveaway_closes_giveaway_without_winners_witness :
  let selected :=
    selectWinners participants_read_fails some_draws "2024-05-01T10:00:00.000Z"
      "spring" (tick (remote (spring_admin 2))) in
  ∃ s',
    finishGiveaway participants_read_fails some_draws "2024-05-01T10:00:00.000Z"
      "a-1" "root" "203.0.113.7" "Mozilla/5.0" "spring" (spring_admin 2)
    = (Returned FinishFailure, s') ∧
    is_finished s' !! "spring" = Some true ∧
    giveaway_winners (remote s') = giveaway_winners selected.2 ∧
    (participants_read_fails (calls (remote s')) = Ok →
     ∃ s'',
       finishGiveaway participants_read_fails some_draws "2024-05-01T10:00:00.000Z"
         "a-1" "root" "203.0.113.7" "Mozilla/5.0" "spring" s'
       = (Returned AlreadyFinished, s'') ∧
       giveaway_winners (remote s'') = giveaway_winners (remote s')).
Proof.
  refine (finishGiveaway_closes_giveaway_without_winners participants_read_fails
            some_draws "2024-05-01T10:00:00.000Z" "a-1" "root" "203.0.113.7"
            "Mozilla/5.0" "spring" (spring_admin 2) 2 _ _ _ _ _);
    vm_compute; reflexivity.
Defined.

Lemma finishGiveaway_finishes_once_witness :
  let s' :=
    (finishGiveaway (λ _, Ok) some_draws "2024-05-01T10:00:00.000Z"
       "a-1" "root" "203.0.113.7" "Mozilla/5.0" "spring" (spring_admin 2)).2 in
  is_finished s' !! "spring" = Some true ∧
  (selectWinners (λ _, Ok) some_draws "2024-05-01T10:00:00.000Z" "spring"
     (tick (remote (spring_admin 2)))).1
    = Returned (Success
        [ {| winner_user_id := "u-40"; winner_username := Some "dee";
             winner_telegram_tag := None |};
          {| winner_user_id := "u-17"; winner_username := Some "ann";
             winner_telegram_tag := None |} ]) ∧
  ∃ s'',
    finishGiveaway (λ _, Ok) some_draws "2024-05-01T10:00:00.000Z"
      "a-1" "root" "203.0.113.7" "Mozilla/5.0" "spring" s'
    = (Returned AlreadyFinished, s'') ∧
    giveaway_winners (remote s'') = giveaway_winners (remote s').
Proof.
  refine (finishGiveaway_finishes_once (λ _, Ok) some_draws
            "2024-05-01T10:00:00.000Z" "a-1" "root" "203.0.113.7" "Mozilla/5.0"
            "spring" (spring_admin 2) _ _ _);
    [vm_compute; reflexivity | reflexivity].
Defined.

Lemma finishGiveaway_failed_update_keeps_drawn_winners_witness :
  let selected :=
    selectWinners update_fails some_draws "2024-05-01T10:00:00.000Z"
      "spring" (tick (remote (spring_admin 2))) in
  ∃ s',
    finishGiveaway update_fails some_draws "2024-05-01T10:00:00.000Z"
      "a-1" "root" "203.0.113.7" "Mozilla/5.0" "spring" (spring_admin 2)
    = (Returned FinishFailure, s') ∧
    is_finished s' = is_finished (spring_admin 2) ∧
    giveaways (remote s') !! "spring" = Some 2 ∧
    giveaway_winners (remote s') = giveaway_winners selected.2.
Proof.
  refine (finishGiveaway_failed_update_keeps_drawn_winners update_fails
            some_draws "2024-05-01T10:00:00.000Z" "a-1" "root" "203.0.113.7"
            "Mozilla/5.0" "spring" (spring_admin 2) 2 _ _ _ _);
    [vm_compute; reflexivity .. |].
  intros H. vm_compute in H. discriminate.
Defined.



End AdminFacts.

(** ** security.js, continued: what users type, and random strings

    A string is the sequence of its code units; in this part they are read
    as code units below 256, so the white space that [trim] removes is TAB,
    LF, VT, FF, CR, SP and NBSP, and the letters that [toLowerCase] changes
    are A to Z and the capital letters from 192 to 222. *)

Module InputFacts.

Definition code (a : ascii) : N := N_of_ascii a.

(** [[A-Z]], [[a-z]] and [[^A-Za-z0-9]] *)
Definition isUpper (a : ascii) : bool := ((65 <=? code a) && (code a <=? 90))%N.
Definition isLower (a : ascii) : bool := ((97 <=? code a) && (code a <=? 122))%N.
Definition isSpecial (a : ascii) : bool :=
  negb (isUpper a || isLower a || Format.isDigit a).

(** [/c/.test(s)] for a pattern [c] that is one character class. *)
Fixpoint test (class : ascii → bool) (s : string) : bool :=
  match s with
  | String a t => class a || test class t
  | EmptyString => false
  end.

(** [s.includes(c)] for one character [c]. *)
Definition occurs (c : ascii) (s : string) : bool := test (Ascii.eqb c) s.

(** What a caller may hand in: [null], [undefined], a string, or another
    value, of which [String(input)] is kept. *)
Inductive Input : Type :=
  | Null
  | Undefined
  | Text (s : string)
  | Other (shown : string).

(** *** [trim], [toLowerCase], [substring] *)

Definition isWhiteSpace (a : ascii) : bool :=
  ((9 <=? code a) && (code a <=? 13) || (code a =? 32) || (code a =? 160))%N.

Fixpoint trimStart (s : string) : string :=
  match s with
  | String a t => if isWhiteSpace a then trimStart t else s
  | EmptyString => s
  end.

Fixpoint trimEnd (s : string) : string :=
  match s with
  | String a t =>
      match trimEnd t with
      | EmptyString => if isWhiteSpace a then EmptyString else String a EmptyString
      | t' => String a t'
      end
  | EmptyString => s
  end.

Definition trim (s : string) : string := trimEnd (trimStart s).

Definition lowerCase (a : ascii) : ascii :=
  let n := code a in
  if ((65 <=? n) && (n <=? 90)
      || (192 <=? n) && (n <=? 222) && negb (n =? 215))%N
  then ascii_of_N (n + 32)
  else a.

Fixpoint toLowerCase (s : string) : string :=
  match s with
  | String a t => String (lowerCase a) (toLowerCase t)
  | EmptyString => s
  end.

(** [s.substring(0, n)] *)
Fixpoint substring0 (n : nat) (s : string) : string :=
  match n, s with
  | S n', String a t => String a (substring0 n' t)
  | _, _ => EmptyString
  end.

(** *** [sanitizeInput] *)

(** The canonical form of a character under the flag [i]; a code unit from
    128 on never equals an ASCII one. *)
Definition canonicalize (a : ascii) : ascii :=
  if isLower a then ascii_of_N (code a - 32) else a.

(** The literal [p] matches at the start of [s], letter case ignored. *)
Fixpoint matches (p s : string) : bool :=
  match p, s with
  | EmptyString, _ => true
  | String a p', String b s' =>
      Ascii.eqb (canonicalize a) (canonicalize b) && matches p' s'
  | String _ _, EmptyString => false
  end.

(** The alternatives of [this.xssPatterns], in their order. *)
Definition xssPatterns : list string :=
  ["<script"; "javascript:"; "onload="; "onerror="; "onclick="; "alert(";
   "document."; "window."; "eval("].

(** The keywords of [this.sqlInjectionPatterns], in their order. *)
Definition sqlKeywords : list string :=
  ["SELECT"; "INSERT"; "UPDATE"; "DELETE"; "DROP"; "UNION"; "EXEC"; "ALTER";
   "CREATE"; "TRUNCATE"].

(** [\b] between the character before, if any, and the string ahead. *)
Definition boundary (before : option ascii) (s : string) : bool :=
  negb (Format.notBoundary before s).

(** The length of the match of [xssPatterns] that starts here, if there is
    one: that of the first alternative that matches. *)
Definition xssAt (before : option ascii) (s : string) : option nat :=
  String.length <$> List.find (λ p, matches p s) xssPatterns.

(** The same for [(\-\-)|(\b(SELECT|...)\b)]. *)
Definition sqlAt (before : option ascii) (s : string) : option nat :=
  if Str.startsWith "--" s then Some 2%nat
  else if boundary before s then
    String.length <$>
      List.find (λ keyword,
                   matches keyword s &&
                   boundary (String.get (String.length keyword - 1) s)
                     (Str.drop (String.length keyword) s))
        sqlKeywords
  else None.

(** [s.replace(re, '')] for a global pattern that matches no empty string:
    the text is scanned from the left, a match is left out, and the scan
    goes on behind it.  [skip] characters of a match are still to leave
    out; [before] is the character before the position. *)
Fixpoint removeMatches (matchAt : option ascii → string → option nat)
    (skip : nat) (before : option ascii) (s : string) : string :=
  match s with
  | EmptyString => EmptyString
  | String a t =>
      match skip with
      | S skip' => removeMatches matchAt skip' (Some a) t
      | O =>
          match matchAt before s with
          | Some (S skip') => removeMatches matchAt skip' (Some a) t
          | _ => String a (removeMatches matchAt 0 (Some a) t)
          end
      end
  end.

(** [s.replace(/c/g, replacement)] for one character [c]. *)
Fixpoint replaceAll (c : ascii) (replacement : string) (s : string) : string :=
  match s with
  | String a t =>
      (if Ascii.eqb a c then replacement else String a EmptyString)
      +:+ replaceAll c replacement t
  | EmptyString => EmptyString
  end.

Definition quote : ascii := "034"%char.

Definition sanitizeInput (input : Input) : string :=
  match input with
  | Null | Undefined => ""
  | Other shown => shown
  | Text input =>
      let sanitized :=
        removeMatches sqlAt 0 None (removeMatches xssAt 0 None input) in
      let sanitized :=
        replaceAll "/" "&#x2F;"
          (replaceAll "'" "&#x27;"
             (replaceAll quote "&quot;"
                (replaceAll ">" "&gt;"
                   (replaceAll "<" "&lt;"
                      (replaceAll "&" "&amp;" sanitized))))) in
      substring0 1000 (trim sanitized)
  end.

(** The characters that [sanitizeInput] escapes in HTML. *)
Definition markup : list ascii := ["<"; ">"; quote; "'"; "/"]%char.

(** *** [validatePassword] and [calculatePasswordStrength] *)

Definition passwordMinLength : nat := 6.

Definition commonPasswords : list string :=
  ["password"; "123456"; "qwerty"; "admin"; "welcome"; "password123";
   "admin123"; "qwerty123"; "123456789"; "12345678"; "12345"; "1234567";
   "123123"; "111111"].

Inductive Reason : Type :=
  | NotGiven     (* 'Пароль не указан' *)
  | TooShort     (* 'Пароль должен содержать не менее 6 символов' *)
  | TooPlain     (* '... заглавные и строчные буквы, а также цифры' *)
  | TooCommon.   (* 'Пароль слишком простой и легко угадывается' *)

(** [{ valid: false, message }] or [{ valid: true, message, strength }]. *)
Inductive PasswordCheck : Type :=
  | Invalid (reason : Reason)
  | Valid (strength : Z).

Definition calculatePasswordStrength (password : string) : Z :=
  let strength := 0 in
  let strength :=
    if (8 <=? String.length password)%nat then strength + 1 else strength in
  let strength :=
    if (12 <=? String.length password)%nat then strength + 1 else strength in
  let strength :=
    if test isUpper password && test isLower password then strength + 1
    else strength in
  let strength := if test Format.isDigit password then strength + 1 else strength in
  let strength := if test isSpecial password then strength + 1 else strength in
  Z.min strength 5.

Definition validatePassword (password : Input) : PasswordCheck :=
  match password with
  | Text (String a t) =>
      let trimmedPassword := trim (String a t) in
      if (String.length trimmedPassword <? passwordMinLength)%nat
      then Invalid TooShort
      else
        let hasUpperCase := test isUpper trimmedPassword in
        let hasLowerCase := test isLower trimmedPassword in
        let hasNumbers := test Format.isDigit trimmedPassword in
        if negb hasUpperCase || negb hasLowerCase || negb hasNumbers
        then Invalid TooPlain
        else if bool_decide (toLowerCase trimmedPassword ∈ commonPasswords)
        then Invalid TooCommon
        else Valid (calculatePasswordStrength trimmedPassword)
  | _ => Invalid NotGiven
  end.

(** *** [generateRandomString] *)

Definition chars : string :=
  "ABCDEFGHIJKLMNOPQRSTUVWXYZabcdefghijklmnopqrstuvwxyz0123456789".

(** [chars[i]] as it is appended to a string. *)
Definition charAt (s : string) (i : nat) : string :=
  match String.get i s with
  | Some c => String c EmptyString
  | None => "undefined"
  end.

(** The character drawn for a byte of the [Uint8Array]. *)
Definition pick (byte : Z) : string :=
  charAt chars (Z.to_nat ((byte `mod` 256) `mod` Z.of_nat (String.length chars))).

(** The loops [for (let i = 0; i < length; i++) result += piece(i)], from
    [i] on, with [todo] turns left. *)
Fixpoint append_each (piece : nat → string) (todo i : nat) (result : string)
    : string :=
  match todo with
  | O => result
  | S todo' => append_each piece todo' (S i) (result +:+ piece i)
  end.

(** [crypto] is what [window.crypto.getRandomValues] writes, element after
    element, or [None] where there is no [window.crypto]; the call also
    throws for more than 65536 bytes.  [fallback i] is the piece
    [Math.random().toString(36).substr(2, 1)] of the [i]-th turn of the
    handler. *)
Definition generateRandomString (length : nat) (crypto : option (nat → Z))
    (fallback : nat → string) : string :=
  match crypto with
  | Some array =>
      if Z.of_nat length <=? 65536
      then append_each (λ i, pick (array i)) length 0 ""
      else append_each fallback length 0 ""
  | None => append_each fallback length 0 ""
  end.

(** The bytes 0 to 255. *)
Definition bytes : list Z := Z.of_nat <$> seq 0 256.

(** *** Facts *)

Lemma occurs_app (c : ascii) (s t : string) :
  occurs c (s +:+ t) = occurs c s || occurs c t.
Proof.
  unfold occurs. induction s as [| a s IH]; [done |].
  rewrite string_app_cons. cbn [test]. by rewrite IH, orb_assoc.
Qed.

Lemma occurs_replaceAll (c d : ascii) (replacement s : string) :
  occurs c replacement = false →
  c = d ∨ occurs c s = false →
  occurs c (replaceAll d replacement s) = false.
Proof.
  intros Hrep Hs. induction s as [| a s IH]; [done |].
  cbn [replaceAll]. rewrite occurs_app.
  destruct (Ascii.eqb_spec a d) as [-> | Hne].
  - rewrite Hrep. cbn [orb]. apply IH.
    destruct Hs as [-> | Hs]; [by left |]. right.
    unfold occurs in *. cbn [test] in Hs. by apply orb_false_elim in Hs as [_ ?].
  - destruct Hs as [-> | Hs].
    + unfold occurs at 1. cbn [test].
      destruct (Ascii.eqb_spec d a) as [-> | _]; [done |]. cbn [orb].
      apply IH. by left.
    + unfold occurs in Hs |- *. cbn [test] in Hs |- *.
      apply orb_false_elim in Hs as [-> Hs]. cbn [orb].
      apply IH. by right.
Qed.

Lemma occurs_trimStart (c : ascii) (s : string) :
  occurs c s = false → occurs c (trimStart s) = false.
Proof.
  unfold occurs. induction s as [| a s IH]; [done |]. intros Hs.
  cbn [trimStart]. destruct (isWhiteSpace a); [| done].
  cbn [test] in Hs. apply orb_false_elim in Hs as [_ Hs]. by apply IH.
Qed.

Lemma occurs_trimEnd (c : ascii) (s : string) :
  occurs c s = false → occurs c (trimEnd s) = false.
Proof.
  unfold occurs. induction s as [| a s IH]; [done |]. intros Hs.
  cbn [test] in Hs. apply orb_false_elim in Hs as [Ha Hs].
  cbn [trimEnd]. specialize (IH Hs).
  destruct (trimEnd s) as [| b t'].
  - destruct (isWhiteSpace a); [done |]. cbn [test]. by rewrite Ha.
  - cbn [test] in IH |- *. by rewrite Ha, IH.
Qed.

Lemma occurs_substring0 (c : ascii) (n : nat) (s : string) :
  occurs c s = false → occurs c (substring0 n s) = false.
Proof.
  unfold occurs. revert s. induction n as [| n IH]; intros [| a s] Hs; try done.
  cbn [test substring0] in Hs |- *. apply orb_false_elim in Hs as [-> Hs].
  by apply IH.
Qed.

Lemma length_substring0 (n : nat) (s : string) :
  (String.length (substring0 n s) ≤ n)%nat.
Proof.
  revert s. induction n as [| n IH]; intros [| a s]; simpl; try lia.
  specialize (IH s). lia.
Qed.

(** X26: whatever string comes in, the text that [sanitizeInput] returns has
    at most 1000 characters and none of them is [<], [>], a double or single
    quote, or a slash. *)
Theorem sanitizeInput_leaves_no_markup (input : string) :
  (String.length (sanitizeInput (Text input)) ≤ 1000)%nat ∧
  Forall (λ c, occurs c (sanitizeInput (Text input)) = false) markup.
Proof.
  cbn [sanitizeInput]. split; [apply length_substring0 |].
  set (sanitized := removeMatches sqlAt 0 None _).
  unfold markup.
  repeat apply Forall_cons_2; [.. | apply Forall_nil_2];
    apply occurs_substring0, occurs_trimEnd, occurs_trimStart.
  - apply occurs_replaceAll; [done | right].
    apply occurs_replaceAll; [done | right].
    apply occurs_replaceAll; [done | right].
    apply occurs_replaceAll; [done | right].
    apply occurs_replaceAll; [done | by left].
  - apply occurs_replaceAll; [done | right].
    apply occurs_replaceAll; [done | right].
    apply occurs_replaceAll; [done | right].
    apply occurs_replaceAll; [done | by left].
  - apply occurs_replaceAll; [done | right].
    apply occurs_replaceAll; [done | right].
    apply occurs_replaceAll; [done | by left].
  - apply occurs_replaceAll; [done | right].
    apply occurs_replaceAll; [done | by left].
  - apply occurs_replaceAll; [done | by left].
Qed.

Lemma test_toLowerCase_digit (s : string) :
  test Format.isDigit (toLowerCase s) = test Format.isDigit s.
Proof.
  induction s as [| a s IH]; [done |]. cbn [toLowerCase test]. rewrite IH.
  f_equal. by destruct a as [[] [] [] [] [] [] [] []].
Qed.

Lemma test_toLowerCase_lower (s : string) :
  test isLower s = true → test isLower (toLowerCase s) = true.
Proof.
  induction s as [| a s IH]; [done |]. cbn [toLowerCase test].
  intros [Ha | Hs]%orb_true_iff.
  - apply orb_true_iff. left. revert Ha.
    by destruct a as [[] [] [] [] [] [] [] []].
  - apply orb_true_iff. right. by apply IH.
Qed.

(** X27: of the fourteen passwords of [commonPasswords], only
    [password123], [admin123] and [qwerty123] can make [validatePassword]
    answer that the password is too common: the others have no digit or no
    letter, and such a password is turned down before the list is looked
    at. *)
Theorem validatePassword_reaches_three_common_passwords (password : string) :
  validatePassword (Text password) = Invalid TooCommon →
  toLowerCase (trim password) ∈ ["password123"; "admin123"; "qwerty123"].
Proof.
  unfold validatePassword.
  destruct password as [| a t]; [done |].
  set (trimmed := trim (String a t)).
  destruct (String.length trimmed <? passwordMinLength)%nat; [done |].
  destruct (test isUpper trimmed); [| done].
  destruct (test isLower trimmed) eqn:Hlower; [| done].
  destruct (test Format.isDigit trimmed) eqn:Hdigit; [| done].
  cbn [negb orb].
  destruct (bool_decide _) eqn:Hcommon; [| done]. intros _.
  apply bool_decide_eq_true_1 in Hcommon.
  apply test_toLowerCase_lower in Hlower.
  rewrite <- test_toLowerCase_digit in Hdigit.
  unfold commonPasswords in Hcommon.
  repeat (apply elem_of_cons in Hcommon as [E | Hcommon];
          [rewrite E in Hlower, Hdigit |- *;
           first [discriminate Hlower | discriminate Hdigit | set_solver] |]).
  by apply elem_of_nil in Hcommon.
Qed.

Lemma validatePassword_reaches_three_common_passwords_witness :
  toLowerCase (trim " Password123 ") ∈ ["password123"; "admin123"; "qwerty123"].
Proof.
  refine (validatePassword_reaches_three_common_passwords " Password123 " _).
  vm_compute. reflexivity.
Defined.

(** X28: a password that [validatePassword] accepts has at least six
    characters once trimmed and a strength from 2 to 5; strength 5 needs at
    least twelve characters and one that is no letter and no digit. *)
Theorem validatePassword_strength (password : string) (strength : Z) :
  validatePassword (Text password) = Valid strength →
  (6 ≤ String.length (trim password))%nat ∧
  2 ≤ strength ≤ 5 ∧
  (strength = 5 →
   (12 ≤ String.length (trim password))%nat ∧
   test isSpecial (trim password) = true).
Proof.
  unfold validatePassword.
  destruct password as [| a t]; [done |].
  set (trimmed := trim (String a t)).
  destruct (Nat.ltb_spec (String.length trimmed) passwordMinLength) as [| Hlen];
    [done |].
  destruct (test isUpper trimmed) eqn:Hupper; [| done].
  destruct (test isLower trimmed) eqn:Hlower; [| done].
  destruct (test Format.isDigit trimmed) eqn:Hdigit; [| done].
  cbn [negb orb].
  destruct (bool_decide _); [done |]. intros [= <-].
  unfold calculatePasswordStrength. rewrite Hupper, Hlower, Hdigit. cbn [andb].
  unfold passwordMinLength in Hlen.
  destruct (Nat.leb_spec 8 (String.length trimmed)),
    (Nat.leb_spec 12 (String.length trimmed)),
    (test isSpecial trimmed); split_and!; try done; try lia.
Qed.

Lemma validatePassword_strength_witness :
  (6 ≤ String.length (trim "Sunny4Days-in-May"))%nat ∧
  2 ≤ 5 ≤ 5 ∧
  (5 = 5 →
   (12 ≤ String.length (trim "Sunny4Days-in-May"))%nat ∧
   test isSpecial (trim "Sunny4Days-in-May") = true).
Proof.
  refine (validatePassword_strength "Sunny4Days-in-May" 5 _).
  vm_compute. reflexivity.
Defined.

Lemma pick_check :
  forallb (λ i, match String.get i chars with
                | Some c => occurs c chars
                | None => false
                end) (seq 0 62) = true.
Proof. vm_compute. reflexivity. Qed.

Lemma pick_char (byte : Z) :
  ∃ c, pick byte = String c EmptyString ∧ occurs c chars = true.
Proof.
  unfold pick, charAt.
  set (i := Z.to_nat _).
  assert (Hi : (i < 62)%nat).
  { subst i. change (Z.of_nat (String.length chars)) with 62.
    pose proof (Z.mod_pos_bound (byte `mod` 256) 62 eq_refl). lia. }
  pose proof pick_check as Hall. rewrite forallb_forall in Hall.
  specialize (Hall i). rewrite in_seq in Hall. specialize (Hall ltac:(lia)).
  destruct (String.get i chars) as [c |]; [| done]. by exists c.
Qed.

Lemma append_each_chars (array : nat → Z) (todo i : nat) (result : string) :
  String.length (append_each (λ i, pick (array i)) todo i result)
  = (String.length result + todo)%nat ∧
  ∀ c, occurs c (append_each (λ i, pick (array i)) todo i result) = true →
       occurs c result = true ∨ occurs c chars = true.
Proof.
  revert i result. induction todo as [| todo IH]; intros i result.
  { cbn [append_each]. split; [lia | by left]. }
  cbn [append_each].
  destruct (pick_char (array i)) as (d & -> & Hd).
  destruct (IH (S i) (result +:+ String d EmptyString)) as [Hlen Hocc].
  split.
  - rewrite Hlen, Str.app_length. simpl. lia.
  - intros c Hc. destruct (Hocc c Hc) as [Hr | ?]; [| by right].
    rewrite occurs_app in Hr. apply orb_true_iff in Hr as [? | Hr]; [by left |].
    right. unfold occurs at 1 in Hr. cbn [test] in Hr.
    rewrite orb_false_r in Hr. by apply Ascii.eqb_eq in Hr as ->.
Qed.

(** X29: where [window.crypto] is there, [generateRandomString(length)]
    returns, for a length up to 65536, a string of exactly that many
    characters, each a letter A to Z or a to z or a digit; so the tokens of
    32 and the session ids of 64 characters are never empty. *)
Theorem generateRandomString_alphabet (length : nat) (array : nat → Z)
    (fallback : nat → string) :
  Z.of_nat length ≤ 65536 →
  String.length (generateRandomString length (Some array) fallback) = length ∧
  (∀ c, occurs c (generateRandomString length (Some array) fallback) = true →
        isUpper c || isLower c || Format.isDigit c = true) ∧
  ((0 < length)%nat → generateRandomString length (Some array) fallback ≠ "").
Proof.
  intros Hlength. unfold generateRandomString.
  assert (E : (Z.of_nat length <=? 65536) = true) by (apply Z.leb_le; lia).
  rewrite E.
  destruct (append_each_chars array length 0 "") as [Hlen Hocc].
  split_and!.
  - by rewrite Hlen.
  - intros c Hc. destruct (Hocc c Hc) as [? | Hchars]; [done |].
    revert Hchars. by destruct c as [[] [] [] [] [] [] [] []].
  - intros Hpos Hempty. rewrite Hempty in Hlen. simpl in Hlen. lia.
Qed.

Lemma generateRandomString_alphabet_witness :
  String.length (generateRandomString 32 (Some (λ i, Z.of_nat (7 * i + 250))) (λ _, ""))
  = 32%nat ∧
  (∀ c, occurs c (generateRandomString 32 (Some (λ i, Z.of_nat (7 * i + 250)))
                    (λ _, "")) = true →
        isUpper c || isLower c || Format.isDigit c = true) ∧
  ((0 < 32)%nat →
   generateRandomString 32 (Some (λ i, Z.of_nat (7 * i + 250))) (λ _, "") ≠ "").
Proof.
  refine (generateRandomString_alphabet 32 (λ i, Z.of_nat (7 * i + 250)) (λ _, "") _).
  lia.
Defined.

Lemma pick_count_check :
  forallb (λ j, (length (filter (λ byte, pick byte = charAt chars j) bytes)
                 =? (if j <? 8 then 5 else 4))%nat) (seq 0 62) = true.
Proof. vm_compute. reflexivity. Qed.

(** X30: the characters of [generateRandomString] are not drawn evenly:
    of the 256 values of a byte, five give each of the first eight
    characters of the alphabet (A to H) and four give each of the other
    54. *)
Theorem generateRandomString_favours_first_letters (j : nat) :
  (j < String.length chars)%nat →
  length (filter (λ byte, pick byte = charAt chars j) bytes)
  = if (j <? 8)%nat then 5%nat else 4%nat.
Proof.
  intros Hj. pose proof pick_count_check as Hall.
  rewrite forallb_forall in Hall. specialize (Hall j).
  rewrite in_seq in Hall. apply Nat.eqb_eq, Hall.
  change (String.length chars) with 62%nat in Hj. lia.
Qed.

Lemma generateRandomString_favours_first_letters_witness :
  length (filter (λ byte, pick byte = charAt chars 7) bytes)
  = if (7 <? 8)%nat then 5%nat else 4%nat.
Proof.
  refine (generateRandomString_favours_first_letters 7 _).
  vm_compute. lia.
Defined.

End InputFacts.
